(** * Type parsing (lib/Parse/ParseType.cpp): committed parser and speculative prober

    A shallow embedding of the recursive-descent type parser and of its
    boolean mirror (the [canParse...] family).  The parser object is an
    explicit state (token cursor and emitted diagnostics); every method
    is a function in a small state monad.  Recursive methods take a
    recursion budget and report its exhaustion as [None], which is kept
    distinct from the null pointer a parse function returns on failure. *)

From Stdlib Require Import List String Ascii Bool Arith Lia.
Import ListNotations.

Set Implicit Arguments.
Set Warnings "-register-all".


(** ** Tokens *)

(** [tok::...]: the token kinds this file mentions, plus a few of the other
    kinds of Tokens.def that examples need. *)
Module tok.
Inductive t : Type :=
| unknown | eof | identifier
| oper_binary | oper_postfix | oper_prefix
| integer_literal
| kw_This | kw_protocol | kw_metatype | kw_var | kw_func
| l_paren | r_paren | l_square | r_square | l_brace | r_brace
| period | period_prefix | comma | colon | semi | equal | arrow
| question | ellipsis.

Definition eq_dec (a b : t) : {a = b} + {a <> b}.
Proof. decide equality. Defined.

Definition eqb (a b : t) : bool := if eq_dec a b then true else false.

Lemma eqb_eq a b : eqb a b = true <-> a = b.
Proof. unfold eqb. destruct (eq_dec a b); split; congruence. Qed.

Lemma eqb_neq a b : eqb a b = false <-> a <> b.
Proof. unfold eqb. destruct (eq_dec a b); split; congruence. Qed.

Lemma eqb_refl a : eqb a a = true.
Proof. apply eqb_eq. reflexivity. Qed.
End tok.

(** A source location is a position in the buffer; [None] is the invalid
    location [SourceLoc()]. *)
Definition SourceLoc := option nat.

Record SourceRange : Type := mkRange { Start : SourceLoc; End : SourceLoc }.

(** A token as the lexer hands it over.  [PrevChar] is the character that
    precedes the token's text in the buffer (what [getText().data()[-1]]
    reads). *)
Record Token : Type := mkToken {
  getKind : tok.t;
  getText : string;
  getLoc : SourceLoc;
  isAtStartOfLine : bool;
  PrevChar : ascii
}.

Definition is_ (T : Token) (K : tok.t) : bool := tok.eqb (getKind T) K.
Definition isNot (T : Token) (K : tok.t) : bool := negb (is_ T K).

Definition isAnyOperator (T : Token) : bool :=
  is_ T tok.oper_binary || is_ T tok.oper_postfix || is_ T tok.oper_prefix.

(** Modelled from the spec: a following array bracket is a [[] that is not
    separated from the type by a line break. *)
Definition isFollowingLSquare (T : Token) : bool :=
  is_ T tok.l_square && negb (isAtStartOfLine T).

Definition firstChar (s : string) : option ascii :=
  match s with
  | EmptyString => None
  | String c _ => Some c
  end.

Definition startsWithChar (c : ascii) (T : Token) : bool :=
  isAnyOperator T &&
  match firstChar (getText T) with
  | Some c' => Ascii.eqb c' c
  | None => false
  end.

Definition startsWithLess : Token -> bool := startsWithChar "<"%char.
Definition startsWithGreater : Token -> bool := startsWithChar ">"%char.

Definition eofToken : Token :=
  mkToken tok.eof EmptyString None false " "%char.

(** ** Diagnostics *)

Module diag.
Inductive t : Type :=
| expected_type
| expected_type_function_result
| expected_rangle_generic_arg_list
| opening_angle
| opening_paren
| opening_bracket
| expected_identifier_for_type
| expected_identifier_in_dotted_type
| expected_langle_protocol
| expected_rangle_protocol
| expected_rparen_tuple_type_list
| expected_initializer_expr
| tuple_type_init
| unexpected_ellipsis_in_tuple
| empty_tuple_ellipsis
| expected_expr_array_type
| expected_rbracket_array_type
| unsupported_fixed_length_array
| invalid_attribute.

Definition eq_dec (a b : t) : {a = b} + {a <> b}.
Proof. decide equality. Defined.
End diag.

Record Diagnostic : Type := mkDiag {
  DiagLoc : SourceLoc;
  DiagID : diag.t;
  Highlight : option SourceRange;
  FixItRemove : option SourceRange
}.

(** ** The AST of type representations *)

Definition Identifier := string.
Definition ValueDecl := nat.
Definition DeclAttributes := list string.

(** Only the source range of an expression is looked at by this file. *)
Record Expr : Type := mkExpr { getSourceRange : SourceRange }.

Definition getEndLoc (E : Expr) : SourceLoc := End (getSourceRange E).

(** [AttributedTypeRepr] holds a pointer that [applyAttributeToType] does
    not test, hence the [option]. *)
Inductive TypeRepr : Type :=
| IdentTypeRepr (Components : list Component)
| TupleTypeRepr (Elements : list TypeRepr) (Parens : SourceRange)
                (Ellipsis : SourceLoc)
| NamedTypeRepr (Name : Identifier) (Ty : TypeRepr) (NameLoc : SourceLoc)
| FunctionTypeRepr (ArgsTy RetTy : TypeRepr)
| OptionalTypeRepr (Base : TypeRepr) (QuestionLoc : SourceLoc)
| ArrayTypeRepr (Base : TypeRepr) (Size : option Expr) (Brackets : SourceRange)
| ProtocolCompositionTypeRepr (Protocols : list (list Component))
                              (ProtocolLoc : SourceLoc) (AngleBrackets : SourceRange)
| MetaTypeTypeRepr (Base : TypeRepr) (MetaLoc : SourceLoc)
| AttributedTypeRepr (Attrs : DeclAttributes) (Ty : option TypeRepr)
with Component : Type :=
| mkComponent (IdLoc : SourceLoc) (Id : Identifier)
              (GenericArgs : list TypeRepr) (Value : option ValueDecl).

Definition setValue (c : Component) (v : ValueDecl) : Component :=
  match c with
  | mkComponent l i a _ => mkComponent l i a (Some v)
  end.

Definition getIdentifier (c : Component) : Identifier :=
  match c with
  | mkComponent _ i _ _ => i
  end.

(** ** Parser state and its monad *)

(** The cursor is the list of tokens not yet consumed, the current token
    first.  A token stream ends with its [tok.eof] token; past the end of
    the list the current token is [eofToken]. *)
Record Parser : Type := mkParser {
  Toks : list Token;
  Diags : list Diagnostic
}.

Definition Tok (P : Parser) : Token := hd eofToken (Toks P).
Definition peekToken (P : Parser) : Token := hd eofToken (tl (Toks P)).

Definition setToks (P : Parser) (ts : list Token) : Parser :=
  mkParser ts (Diags P).

(** A computation either runs out of recursion budget ([None]) or returns
    a value and the next parser state. *)
Definition M (A : Type) : Type := Parser -> option (A * Parser).

Definition ret {A} (a : A) : M A := fun P => Some (a, P).

Definition bind {A B} (m : M A) (k : A -> M B) : M B :=
  fun P => match m P with
           | None => None
           | Some (a, P') => k a P'
           end.

Definition outOfFuel {A} : M A := fun _ => None.

Declare Scope parser_scope.
Delimit Scope parser_scope with parser.
Notation "x <- c1 ;; c2" := (bind c1 (fun x => c2))
  (at level 61, c1 at next level, right associativity) : parser_scope.
Notation "' pat <- c1 ;; c2" := (bind c1 (fun x => match x with pat => c2 end))
  (at level 61, pat pattern, c1 at next level, right associativity) : parser_scope.
Notation "c1 ;; c2" := (bind c1 (fun _ => c2))
  (at level 61, right associativity) : parser_scope.
Local Open Scope parser_scope.

Definition getTok : M Token := fun P => Some (Tok P, P).
Definition getPeek : M Token := fun P => Some (peekToken P, P).

(** Modelled from the spec: the cursor's [consume] primitive; it returns
    the location of the token it consumed. *)
Definition consumeToken : M SourceLoc :=
  fun P => Some (getLoc (Tok P), setToks P (tl (Toks P))).

Definition consumeIf (K : tok.t) : M bool :=
  fun P => if is_ (Tok P) K then Some (true, setToks P (tl (Toks P)))
           else Some (false, P).

Definition dropFirstChar (s : string) : string :=
  match s with
  | EmptyString => EmptyString
  | String _ r => r
  end.

(** Modelled from the spec: consuming the leading [<] or [>] of an operator
    token.  A one-character token is consumed; a longer one is replaced by
    the token the lexer forms from the rest of its text. *)
Definition consumeStartingCharacter : M SourceLoc :=
  fun P =>
    let T := Tok P in
    if Nat.eqb (String.length (getText T)) 1 then consumeToken P
    else
      let rest := mkToken (getKind T) (dropFirstChar (getText T))
                          (option_map S (getLoc T)) false
                          (match firstChar (getText T) with
                           | Some c => c
                           | None => " "%char
                           end) in
      Some (getLoc T, setToks P (rest :: tl (Toks P))).

Definition consumeStartingLess : M SourceLoc := consumeStartingCharacter.
Definition consumeStartingGreater : M SourceLoc := consumeStartingCharacter.

Definition diagnoseFull (D : Diagnostic) : M unit :=
  fun P => Some (tt, mkParser (Toks P) (Diags P ++ [D])).

Definition diagnose (L : SourceLoc) (ID : diag.t) : M unit :=
  diagnoseFull (mkDiag L ID None None).

(** ** Collaborators

    Parts of the compiler this file calls and does not define: the
    expression and attribute parsers, the declaration and binding-name
    predicates, scope lookup, the [IDENTIFIER_KEYWORD] table of Tokens.def
    and the single-step skipping primitive. *)
Record Collaborators : Type := mkCollaborators {
  parseExpr : diag.t -> Parser -> option Expr * Parser;
  parseAttributeList : Parser -> (bool * DeclAttributes) * Parser;
  isStartOfDecl : Token -> Token -> bool;
  isStartOfBindingName : Token -> bool;
  lookupInScope : Identifier -> option ValueDecl;
  isIdentifierKeyword : tok.t -> bool;
  skipSingle : list Token -> list Token
}.

Section WithCollaborators.

Variable C : Collaborators.

Definition liftC {A} (f : Parser -> A * Parser) : M A := fun P => Some (f P).

Definition skipSingleM : M unit :=
  fun P => Some (tt, setToks P (skipSingle C (Toks P))).

(** The size of what is left of the input: one per token and one per
    character of its text (splitting an operator token shortens its text). *)
Definition tokWeight (T : Token) : nat := S (String.length (getText T)).
Definition weight (ts : list Token) : nat := list_sum (map tokWeight ts).

(** [while (!stop) skipSingle();] for the three skipping loops of this
    file, which differ in their stop condition only. *)
Fixpoint skipLoop (stop : Parser -> bool) (n : nat) : M unit :=
  match n with
  | 0 => outOfFuel
  | S n =>
      fun P => if stop P then Some (tt, P)
               else (skipSingleM ;; skipLoop stop n) P
  end.

(** The loop is given one round per unit of input left, which is enough
    whenever [skipSingle] advances. *)
Definition skipWhileNot (stop : Parser -> bool) : M unit :=
  fun P => skipLoop stop (S (weight (Toks P))) P.

(** Modelled from the spec: skip forward to the next operator token (or the
    end of input). *)
Definition skipUntilAnyOperator : M unit :=
  skipWhileNot (fun P => is_ (Tok P) tok.eof || isAnyOperator (Tok P)).

(** ** The speculative prober *)

(** Lines 480-484: [while ((Tok.is(period) || Tok.is(period_prefix)) &&
    peekToken().is(kw_metatype)) { consumeToken(); consumeToken(kw_metatype); }] *)
Fixpoint skipMetatypes (ts : list Token) : list Token :=
  match ts with
  | p :: m :: rest =>
      if (is_ p tok.period || is_ p tok.period_prefix) && is_ m tok.kw_metatype
      then skipMetatypes rest
      else ts
  | _ => ts
  end.

(** Lines 494-495: [while (!Tok.isAtStartOfLine() && consumeIf(tok::question));] *)
Fixpoint skipQuestions (ts : list Token) : list Token :=
  match ts with
  | q :: rest =>
      if negb (isAtStartOfLine q) && is_ q tok.question
      then skipQuestions rest
      else ts
  | [] => ts
  end.

Definition onToks (f : list Token -> list Token) : M unit :=
  fun P => Some (tt, setToks P (f (Toks P))).

Fixpoint canParseTypeArray (n : nat) : M bool :=
  match n with
  | 0 => outOfFuel
  | S n =>
      consumeToken ;;
      T <- getTok ;;
      if is_ T tok.r_square then
        consumeToken ;;
        T <- getTok ;;
        if isFollowingLSquare T then canParseTypeArray n
        else ret true
      else ret false
  end.

(** Lines 578-586 and 609-617: the bracketed attribute list before an
    element's type.  [false] is the [return false] of the enclosing
    function. *)
Definition canSkipAttributes : M bool :=
  b <- consumeIf tok.l_square ;;
  if b then
    skipWhileNot (fun P => is_ (Tok P) tok.eof || is_ (Tok P) tok.r_brace ||
                           is_ (Tok P) tok.r_square || is_ (Tok P) tok.r_paren ||
                           isStartOfDecl C (Tok P) (peekToken P)) ;;
    consumeIf tok.r_square
  else ret true.

(** Lines 594-601: the default value after [=]. *)
Definition canSkipDefaultValue : M unit :=
  b <- consumeIf tok.equal ;;
  if b then
    skipWhileNot (fun P => is_ (Tok P) tok.eof || is_ (Tok P) tok.r_paren ||
                           is_ (Tok P) tok.r_brace || is_ (Tok P) tok.ellipsis ||
                           is_ (Tok P) tok.comma ||
                           isStartOfDecl C (Tok P) (peekToken P))
  else ret tt.

Definition isIdentifierToken (T : Token) : bool :=
  is_ T tok.identifier || isIdentifierKeyword C (getKind T).

Fixpoint canParseType (n : nat) : M bool :=
  match n with
  | 0 => outOfFuel
  | S n =>
      T <- getTok ;;
      ok <- match getKind T with
            | tok.kw_This | tok.identifier => canParseTypeIdentifier n
            | tok.kw_protocol => canParseTypeComposition n
            | tok.l_paren => consumeToken ;; canParseTypeTupleBody n
            | _ => ret false
            end ;;
      if negb ok then ret false
      else
        onToks skipMetatypes ;;
        arrow <- consumeIf tok.arrow ;;
        if arrow then
          ok <- canParseType n ;;
          if negb ok then ret false else ret true
        else
          onToks skipQuestions ;;
          T <- getTok ;;
          if isFollowingLSquare T then canParseTypeArray n
          else ret true
  end

with canParseGenericArguments (n : nat) : M bool :=
  match n with
  | 0 => outOfFuel
  | S n =>
      T <- getTok ;;
      if negb (startsWithLess T) then ret false
      else
        consumeStartingLess ;;
        ok <- canParseGenericArguments_list n ;;
        if negb ok then ret false
        else
          T <- getTok ;;
          if negb (startsWithGreater T) then ret false
          else consumeStartingGreater ;; ret true
  end

(** Lines 444-448: [do { if (!canParseType()) return false; }
    while (consumeIf(tok::comma));] *)
with canParseGenericArguments_list (n : nat) : M bool :=
  match n with
  | 0 => outOfFuel
  | S n =>
      ok <- canParseType n ;;
      if negb ok then ret false
      else
        c <- consumeIf tok.comma ;;
        if c then canParseGenericArguments_list n else ret true
  end

with canParseTypeIdentifier (n : nat) : M bool :=
  match n with
  | 0 => outOfFuel
  | S n =>
      T <- getTok ;;
      if isNot T tok.identifier && isNot T tok.kw_This then ret false
      else canParseTypeIdentifier_loop n
  end

(** Lines 509-533: the [while (true)] loop over the dotted components. *)
with canParseTypeIdentifier_loop (n : nat) : M bool :=
  match n with
  | 0 => outOfFuel
  | S n =>
      T <- getTok ;;
      if negb (isIdentifierToken T) then ret false
      else
        consumeToken ;;
        T <- getTok ;;
        ok <- (if startsWithLess T then canParseGenericArguments n else ret true) ;;
        if negb ok then ret false
        else
          T <- getTok ;;
          N <- getPeek ;;
          if (is_ T tok.period || is_ T tok.period_prefix) && isNot N tok.kw_metatype
          then consumeToken ;; canParseTypeIdentifier_loop n
          else ret true
  end

with canParseTypeComposition (n : nat) : M bool :=
  match n with
  | 0 => outOfFuel
  | S n =>
      consumeToken ;;
      T <- getTok ;;
      if negb (startsWithLess T) then ret false
      else
        consumeStartingLess ;;
        T <- getTok ;;
        if startsWithGreater T then consumeStartingGreater ;; ret true
        else
          ok <- canParseTypeComposition_list n ;;
          if negb ok then ret false
          else
            T <- getTok ;;
            if negb (startsWithGreater T) then ret false
            else consumeStartingGreater ;; ret true
  end

(** Lines 552-556: [do { if (!canParseTypeIdentifier()) return false; }
    while (consumeIf(tok::comma));] *)
with canParseTypeComposition_list (n : nat) : M bool :=
  match n with
  | 0 => outOfFuel
  | S n =>
      ok <- canParseTypeIdentifier n ;;
      if negb ok then ret false
      else
        c <- consumeIf tok.comma ;;
        if c then canParseTypeComposition_list n else ret true
  end

with canParseTypeTupleBody (n : nat) : M bool :=
  match n with
  | 0 => outOfFuel
  | S n =>
      T <- getTok ;;
      N <- getPeek ;;
      ok <- (if isNot T tok.r_paren && isNot T tok.r_brace &&
                isNot T tok.ellipsis && negb (isStartOfDecl C T N)
             then canParseTypeTupleBody_list n
             else ret true) ;;
      if negb ok then ret false
      else
        T <- getTok ;;
        (if is_ T tok.ellipsis then consumeToken ;; ret tt else ret tt) ;;
        T <- getTok ;;
        if is_ T tok.r_paren then consumeToken ;; ret true
        else ret false
  end

(** Lines 570-621: the [do ... while (consumeIf(tok::comma))] loop over the
    elements; the labelled branch ends in [continue], which jumps to the
    loop condition. *)
with canParseTypeTupleBody_list (n : nat) : M bool :=
  match n with
  | 0 => outOfFuel
  | S n =>
      T <- getTok ;;
      N <- getPeek ;;
      ok <- (if is_ T tok.identifier && is_ N tok.colon then
               consumeToken ;;
               consumeToken ;;
               a <- canSkipAttributes ;;
               if negb a then ret false
               else
                 ok <- canParseType n ;;
                 if negb ok then ret false
                 else canSkipDefaultValue ;; ret true
             else
               a <- canSkipAttributes ;;
               if negb a then ret false
               else canParseType n) ;;
      if negb ok then ret false
      else
        c <- consumeIf tok.comma ;;
        if c then canParseTypeTupleBody_list n else ret true
  end.

(** Lines 400-424. *)
Definition isGenericTypeDisambiguatingToken (T : Token) : bool :=
  match getKind T with
  | tok.r_paren | tok.r_square | tok.l_brace | tok.r_brace
  | tok.period | tok.comma | tok.semi | tok.eof => true
  | tok.period_prefix => Ascii.eqb (PrevChar T) ">"%char
  | tok.l_paren | tok.l_square => negb (isAtStartOfLine T)
  | _ => false
  end.

(** Modelled from the spec: the backtracking scope snapshots the parser on
    entry and restores it when the scope is left, on every exit path. *)
Definition BacktrackingScope {A} (body : M A) : M A :=
  fun P => match body P with
           | None => None
           | Some (a, _) => Some (a, P)
           end.

Definition canParseAsGenericArgumentList (n : nat) : M bool :=
  T <- getTok ;;
  if negb (isAnyOperator T) || negb (String.eqb (getText T) "<") then ret false
  else
    BacktrackingScope
      (ok <- canParseGenericArguments n ;;
       if ok then
         T <- getTok ;;
         ret (isGenericTypeDisambiguatingToken T)
       else ret false).


(** ** The committed parser *)

(** Modelled from the spec: parse one name.  The accepted kinds are those
    of the [switch] in [canParseTypeIdentifier] (line 510). *)
Definition parseIdentifier (D : diag.t) : M (option (Identifier * SourceLoc)) :=
  T <- getTok ;;
  if isIdentifierToken T then
    L <- consumeToken ;;
    ret (Some (getText T, L))
  else
    diagnose (getLoc T) D ;;
    ret None.

Definition openingNote (K : tok.t) : diag.t :=
  match K with
  | tok.r_square => diag.opening_bracket
  | _ => diag.opening_paren
  end.

(** Modelled from the spec: expect and consume a token of kind [K];
    otherwise diagnose, with a note at the opening delimiter.  [None] is
    the error return. *)
Definition parseMatchingToken (K : tok.t) (ErrorDiag : diag.t)
    (OtherLoc : SourceLoc) : M (option SourceLoc) :=
  T <- getTok ;;
  if is_ T K then
    L <- consumeToken ;;
    ret (Some L)
  else
    diagnose (getLoc T) ErrorDiag ;;
    diagnose OtherLoc (openingNote K) ;;
    ret None.

(** Modelled from the spec: the delimited-list helper parses elements
    separated by [SeparatorK] until [RightK].  [L] is the state the
    callback captures by reference; the callback returns [true] on
    error.  The result is the [Invalid] flag and [RightLoc]. *)
Fixpoint parseList_elements {L : Type} (n : nat) (RightK SeparatorK : tok.t)
    (callback : L -> M (bool * L)) (Invalid : bool) (l : L) : M (bool * L) :=
  match n with
  | 0 => outOfFuel
  | S n =>
      '(err, l) <- callback l ;;
      let Invalid := Invalid || err in
      T <- getTok ;;
      if is_ T RightK then ret (Invalid, l)
      else
        c <- consumeIf SeparatorK ;;
        if c then parseList_elements n RightK SeparatorK callback Invalid l
        else ret (Invalid, l)
  end.

Definition parseList {L : Type} (n : nat) (RightK : tok.t) (LeftLoc : SourceLoc)
    (SeparatorK : tok.t) (ErrorDiag : diag.t)
    (callback : L -> M (bool * L)) (l : L) : M (bool * SourceLoc * L) :=
  T <- getTok ;;
  if is_ T RightK then
    RightLoc <- consumeToken ;;
    ret (false, RightLoc, l)
  else
    '(Invalid, l) <- parseList_elements n RightK SeparatorK callback false l ;;
    r <- parseMatchingToken RightK ErrorDiag LeftLoc ;;
    match r with
    | Some RightLoc => ret (Invalid, RightLoc, l)
    | None => ret (true, None, l)
    end.

(** Lines 45-50. *)
Definition applyAttributeToType (ty : option TypeRepr) (attrs : DeclAttributes)
    : option TypeRepr :=
  match attrs with
  | [] => ty
  | _ :: _ => Some (AttributedTypeRepr attrs ty)
  end.

(** Lines 94-99: the [.metatype] suffixes. *)
Fixpoint parseMetatypes (ty : TypeRepr) (ts : list Token) : TypeRepr * list Token :=
  match ts with
  | p :: m :: rest =>
      if (is_ p tok.period || is_ p tok.period_prefix) && is_ m tok.kw_metatype
      then parseMetatypes (MetaTypeTypeRepr ty (getLoc m)) rest
      else (ty, ts)
  | _ => (ty, ts)
  end.

(** Lines 390-394. *)
Definition parseTypeOptional (base : TypeRepr) : M TypeRepr :=
  questionLoc <- consumeToken ;;
  ret (OptionalTypeRepr base questionLoc).

(** Lines 110-111: [while (ty && Tok.is(tok::question) &&
    !Tok.isAtStartOfLine()) ty = parseTypeOptional(ty);] *)
Fixpoint parseOptionals (ty : TypeRepr) (ts : list Token) : TypeRepr * list Token :=
  match ts with
  | q :: rest =>
      if is_ q tok.question && negb (isAtStartOfLine q)
      then parseOptionals (OptionalTypeRepr ty (getLoc q)) rest
      else (ty, ts)
  | [] => (ty, ts)
  end.

Definition onToksWith {A} (f : list Token -> A * list Token) : M A :=
  fun P => let (a, ts) := f (Toks P) in Some (a, setToks P ts).

(** Lines 352-386. *)
Fixpoint parseTypeArray (n : nat) (Base : TypeRepr) : M (option TypeRepr) :=
  match n with
  | 0 => outOfFuel
  | S n =>
      lsquareLoc <- consumeToken ;;
      T <- getTok ;;
      if is_ T tok.r_square then
        rsquareLoc <- consumeToken ;;
        T <- getTok ;;
        Base' <- (if isFollowingLSquare T then parseTypeArray n Base
                  else ret (Some Base)) ;;
        match Base' with
        | None => ret None
        | Some Base =>
            ret (Some (ArrayTypeRepr Base None (mkRange lsquareLoc rsquareLoc)))
        end
      else
        sizeEx <- liftC (parseExpr C diag.expected_expr_array_type) ;;
        match sizeEx with
        | None => ret None
        | Some sizeEx =>
            r <- parseMatchingToken tok.r_square
                   diag.expected_rbracket_array_type lsquareLoc ;;
            match r with
            | None => ret None
            | Some rsquareLoc =>
                T <- getTok ;;
                Base' <- (if isFollowingLSquare T then parseTypeArray n Base
                          else ret (Some Base)) ;;
                match Base' with
                | None => ret None
                | Some _ =>
                    diagnoseFull (mkDiag lsquareLoc
                                    diag.unsupported_fixed_length_array
                                    (Some (getSourceRange sizeEx)) None) ;;
                    ret None
                end
            end
        end
  end.

(** Lines 199-200. *)
Definition resolveFirstComponent (ComponentsR : list Component) : list Component :=
  match ComponentsR with
  | c :: rest =>
      match lookupInScope C (getIdentifier c) with
      | Some Entry => setValue c Entry :: rest
      | None => ComponentsR
      end
  | [] => []
  end.

(** The locals of [parseTypeTupleBody] that its element callback captures
    by reference. *)
Record TupleLocals : Type := mkTupleLocals {
  ElementsR : list TypeRepr;
  HadEllipsis : bool;
  EllipsisLoc : SourceLoc;
  Invalid : bool
}.

Definition isEmpty {A} (l : list A) : bool :=
  match l with
  | [] => true
  | _ :: _ => false
  end.

Fixpoint parseType (n : nat) (MessageID : diag.t) : M (option TypeRepr) :=
  match n with
  | 0 => outOfFuel
  | S n =>
      T <- getTok ;;
      ty <- match getKind T with
            | tok.kw_This | tok.identifier =>
                r <- parseTypeIdentifier n ;;
                ret (option_map IdentTypeRepr r)
            | tok.kw_protocol => parseTypeComposition n
            | tok.l_paren => parseTypeTupleBody n
            | _ => diagnose (getLoc T) MessageID ;; ret None
            end ;;
      match ty with
      | None => ret None
      | Some ty =>
          ty <- onToksWith (parseMetatypes ty) ;;
          arrow <- consumeIf tok.arrow ;;
          if arrow then
            SecondHalf <- parseType n diag.expected_type_function_result ;;
            match SecondHalf with
            | None => ret None
            | Some SecondHalf => ret (Some (FunctionTypeRepr ty SecondHalf))
            end
          else
            ty <- onToksWith (parseOptionals ty) ;;
            T <- getTok ;;
            if isFollowingLSquare T then parseTypeArray n ty
            else ret (Some ty)
      end
  end

(** Lines 35-43. *)
with parseTypeAnnotation (n : nat) (message : diag.t) : M (option TypeRepr) :=
  match n with
  | 0 => outOfFuel
  | S n =>
      '(_, attrs) <- liftC (parseAttributeList C) ;;
      ty <- parseType n message ;;
      ret (applyAttributeToType ty attrs)
  end

(** Lines 120-155.  The result is the error flag, [Args], [LAngleLoc] and
    [RAngleLoc]. *)
with parseGenericArguments (n : nat)
    : M (bool * list TypeRepr * SourceLoc * SourceLoc) :=
  match n with
  | 0 => outOfFuel
  | S n =>
      LAngleLoc <- consumeStartingLess ;;
      '(failed, Args) <- parseGenericArguments_list n [] ;;
      if failed then
        skipUntilAnyOperator ;;
        T <- getTok ;;
        (if startsWithGreater T then consumeStartingGreater ;; ret tt
         else ret tt) ;;
        ret (true, Args, LAngleLoc, None)
      else
        T <- getTok ;;
        if negb (startsWithGreater T) then
          diagnose (getLoc T) diag.expected_rangle_generic_arg_list ;;
          diagnose LAngleLoc diag.opening_angle ;;
          skipUntilAnyOperator ;;
          T <- getTok ;;
          RAngleLoc <- (if startsWithGreater T then consumeStartingGreater
                        else ret None) ;;
          ret (true, Args, LAngleLoc, RAngleLoc)
        else
          RAngleLoc <- consumeStartingGreater ;;
          ret (false, Args, LAngleLoc, RAngleLoc)
  end

(** Lines 127-139: the [do ... while (consumeIf(tok::comma))] loop; the
    flag tells that an argument type failed to parse. *)
with parseGenericArguments_list (n : nat) (Args : list TypeRepr)
    : M (bool * list TypeRepr) :=
  match n with
  | 0 => outOfFuel
  | S n =>
      Ty <- parseType n diag.expected_type ;;
      match Ty with
      | None => ret (true, Args)
      | Some Ty =>
          let Args := Args ++ [Ty] in
          c <- consumeIf tok.comma ;;
          if c then parseGenericArguments_list n Args
          else ret (false, Args)
      end
  end

(** Lines 162-203. *)
with parseTypeIdentifier (n : nat) : M (option (list Component)) :=
  match n with
  | 0 => outOfFuel
  | S n =>
      T <- getTok ;;
      if isNot T tok.identifier && isNot T tok.kw_This then
        diagnose (getLoc T) diag.expected_identifier_for_type ;;
        ret None
      else
        r <- parseTypeIdentifier_loop n [] ;;
        match r with
        | None => ret None
        | Some ComponentsR => ret (Some (resolveFirstComponent ComponentsR))
        end
  end

(** Lines 170-195: the [while (true)] loop over the dotted components. *)
with parseTypeIdentifier_loop (n : nat) (ComponentsR : list Component)
    : M (option (list Component)) :=
  match n with
  | 0 => outOfFuel
  | S n =>
      id <- parseIdentifier diag.expected_identifier_in_dotted_type ;;
      match id with
      | None => ret None
      | Some (Name, Loc) =>
          T <- getTok ;;
          ga <- (if startsWithLess T then
                   '(err, GenericArgs, _, _) <- parseGenericArguments n ;;
                   if err : bool then ret None else ret (Some GenericArgs)
                 else ret (Some [])) ;;
          match ga with
          | None => ret None
          | Some GenericArgs =>
              let ComponentsR :=
                ComponentsR ++ [mkComponent Loc Name GenericArgs None] in
              T <- getTok ;;
              N <- getPeek ;;
              if (is_ T tok.period || is_ T tok.period_prefix) &&
                 isNot N tok.kw_metatype
              then consumeToken ;; parseTypeIdentifier_loop n ComponentsR
              else ret (Some ComponentsR)
          end
      end
  end

(** Lines 213-264. *)
with parseTypeComposition (n : nat) : M (option TypeRepr) :=
  match n with
  | 0 => outOfFuel
  | S n =>
      ProtocolLoc <- consumeToken ;;
      T <- getTok ;;
      if negb (startsWithLess T) then
        diagnose (getLoc T) diag.expected_langle_protocol ;;
        ret None
      else
        LAngleLoc <- consumeStartingLess ;;
        T <- getTok ;;
        if startsWithGreater T then
          RAngleLoc <- consumeStartingGreater ;;
          ret (Some (ProtocolCompositionTypeRepr [] ProtocolLoc
                       (mkRange LAngleLoc RAngleLoc)))
        else
          '(Invalid, Protocols) <- parseTypeComposition_list n [] ;;
          T <- getTok ;;
          EndLoc <- (if negb (startsWithGreater T) then
                       (if negb Invalid then
                          diagnose (getLoc T) diag.expected_rangle_protocol ;;
                          diagnose LAngleLoc diag.opening_angle
                        else ret tt) ;;
                       skipUntilAnyOperator ;;
                       T' <- getTok ;;
                       if startsWithGreater T' then consumeStartingGreater
                       else ret (getLoc T)
                     else consumeStartingGreater) ;;
          ret (Some (ProtocolCompositionTypeRepr Protocols ProtocolLoc
                       (mkRange LAngleLoc EndLoc)))
  end

(** Lines 235-244: the [do ... while (consumeIf(tok::comma))] loop; the
    flag is [Invalid]. *)
with parseTypeComposition_list (n : nat) (Protocols : list (list Component))
    : M (bool * list (list Component)) :=
  match n with
  | 0 => outOfFuel
  | S n =>
      Protocol <- parseTypeIdentifier n ;;
      match Protocol with
      | None => ret (true, Protocols)
      | Some Protocol =>
          let Protocols := Protocols ++ [Protocol] in
          c <- consumeIf tok.comma ;;
          if c then parseTypeComposition_list n Protocols
          else ret (false, Protocols)
      end
  end

(** Lines 274-340. *)
with parseTypeTupleBody (n : nat) : M (option TypeRepr) :=
  match n with
  | 0 => outOfFuel
  | S n =>
      LPLoc <- consumeToken ;;
      '(Invalid', RPLoc, l) <-
        parseList n tok.r_paren LPLoc tok.comma
          diag.expected_rparen_tuple_type_list
          (parseTypeTupleBody_element n)
          (mkTupleLocals [] false None false) ;;
      if HadEllipsis l && isEmpty (ElementsR l) then
        diagnose (EllipsisLoc l) diag.empty_tuple_ellipsis ;;
        ret None
      else
        T <- getTok ;;
        ret (Some (TupleTypeRepr (ElementsR l) (mkRange LPLoc (getLoc T))
                     (if HadEllipsis l then EllipsisLoc l else None)))
  end

(** Lines 283-330: the element callback handed to [parseList]. *)
with parseTypeTupleBody_element (n : nat) (l : TupleLocals)
    : M (bool * TupleLocals) :=
  match n with
  | 0 => outOfFuel
  | S n =>
      T <- getTok ;;
      N <- getPeek ;;
      e <- (if isStartOfBindingName C T && is_ N tok.colon then
              let name := getText T in
              nameLoc <- consumeToken ;;
              consumeToken ;;
              type <- parseTypeAnnotation n diag.expected_type ;;
              match type with
              | None => ret None
              | Some type => ret (Some (NamedTypeRepr name type nameLoc))
              end
            else parseTypeAnnotation n diag.expected_type) ;;
      match e with
      | None => ret (true, l)
      | Some e =>
          let l := mkTupleLocals (ElementsR l ++ [e]) (HadEllipsis l)
                     (EllipsisLoc l) (Invalid l) in
          T <- getTok ;;
          (if is_ T tok.equal then
             equalLoc <- consumeToken ;;
             init <- liftC (parseExpr C diag.expected_initializer_expr) ;;
             diagnoseFull
               (mkDiag equalLoc diag.tuple_type_init None
                  (option_map (fun e => mkRange equalLoc (getEndLoc e)) init))
           else ret tt) ;;
          T <- getTok ;;
          if is_ T tok.ellipsis then
            L <- consumeToken ;;
            T <- getTok ;;
            if is_ T tok.r_paren then
              ret (false, mkTupleLocals (ElementsR l) true L (Invalid l))
            else
              diagnose L diag.unexpected_ellipsis_in_tuple ;;
              ret (false, mkTupleLocals (ElementsR l) (HadEllipsis l) L true)
          else ret (false, l)
      end
  end.

End WithCollaborators.

(** ** What is assumed of collaborators, where a property needs it *)

(** [skipSingle] consumes something unless the input is at its end. *)
Definition SkipAdvances (C : Collaborators) : Prop :=
  forall ts, is_ (hd eofToken ts) tok.eof = false ->
             weight (skipSingle C ts) < weight ts.

(** The expression parser does not put input back. *)
Definition ExprBounded (C : Collaborators) : Prop :=
  forall D P, weight (Toks (snd (parseExpr C D P))) <= weight (Toks P).

(** The attribute parser does not put input back. *)
Definition AttrBounded (C : Collaborators) : Prop :=
  forall P, weight (Toks (snd (parseAttributeList C P))) <= weight (Toks P).

(** The attribute parser only adds diagnostics. *)
Definition extends (ds ds' : list Diagnostic) : Prop :=
  exists more, ds' = ds ++ more.

Definition AttrAppends (C : Collaborators) : Prop :=
  forall P, extends (Diags P) (Diags (snd (parseAttributeList C P))).

(** The expression parser only adds diagnostics, and adds one when it
    returns nothing. *)
Definition ExprDiagnoses (C : Collaborators) : Prop :=
  forall D P,
    extends (Diags P) (Diags (snd (parseExpr C D P))) /\
    (fst (parseExpr C D P) = None ->
     List.length (Diags P) < List.length (Diags (snd (parseExpr C D P)))).

(** What a run of the committed parser from [P] to [P'] emitted:
    diagnostics were only added, and at least one was if the run failed. *)
Definition emits (failed : bool) (P P' : Parser) : Prop :=
  extends (Diags P) (Diags P') /\
  (failed = true -> List.length (Diags P) < List.length (Diags P')).

Definition isNone {A} (o : option A) : bool :=
  match o with
  | None => true
  | Some _ => false
  end.

(** No opening parenthesis among the tokens: the input has no tuple type,
    so that the list helper and the collaborators of tuple elements are
    not reached. *)
Definition noParen (ts : list Token) : bool :=
  forallb (fun T => isNot T tok.l_paren) ts.

(** The prober's footprint: from [P] to [P'] no diagnostic was emitted and
    no input was put back. *)
Definition advances (P P' : Parser) : Prop :=
  Diags P' = Diags P /\ weight (Toks P') <= weight (Toks P).

(** The disambiguating set as the specification words it: closing
    delimiters, comma, semicolon, end of input, a period whose preceding
    character is [>], or an opening parenthesis or bracket that does not
    start a line.  To be compared with
    [isGenericTypeDisambiguatingToken]. *)
Definition specDisambiguatingToken (T : Token) : bool :=
  match getKind T with
  | tok.r_paren | tok.r_square | tok.r_brace
  | tok.comma | tok.semi | tok.eof => true
  | tok.period | tok.period_prefix => Ascii.eqb (PrevChar T) ">"%char
  | tok.l_paren | tok.l_square => negb (isAtStartOfLine T)
  | _ => false
  end.

(** What holds of the locals of [parseTypeTupleBody] at every point: the
    variadic flag is only ever set after an element was pushed. *)
Definition ellipsisAfterElement (l : TupleLocals) : Prop :=
  HadEllipsis l = true -> ElementsR l <> [].

(** How many [AttributedTypeRepr] wrappers sit on top of a node. *)
Fixpoint attributedDepth (ty : TypeRepr) : nat :=
  match ty with
  | AttributedTypeRepr _ (Some ty') => S (attributedDepth ty')
  | _ => 0
  end.

(** What is left of an operator token once its first character is
    consumed, as [consumeStartingCharacter] forms it. *)
Definition splitRemainder (T : Token) : Token :=
  mkToken (getKind T) (dropFirstChar (getText T)) (option_map S (getLoc T))
    false
    (match firstChar (getText T) with
     | Some c => c
     | None => " "%char
     end).

(** [parenFreeTo ts ts']: the cursor gets from [ts] to [ts'] by consuming
    tokens none of which is an opening parenthesis; an operator token may
    be consumed in part. *)
Inductive parenFreeTo : list Token -> list Token -> Prop :=
| pft_here ts : parenFreeTo ts ts
| pft_next T ts ts' :
    is_ T tok.l_paren = false -> parenFreeTo ts ts' ->
    parenFreeTo (T :: ts) ts'
| pft_split T ts ts' :
    isAnyOperator T = true -> parenFreeTo (splitRemainder T :: ts) ts' ->
    parenFreeTo (T :: ts) ts'.

(** The bracket clauses at [ts] hold a clause with a size: after zero or
    more [[]] pairs comes a bracket that is not closed at once. *)
Fixpoint hasSizedClause (ts : list Token) : bool :=
  match ts with
  | _ :: r :: rest =>
      if is_ r tok.r_square
      then isFollowingLSquare (hd eofToken rest) && hasSizedClause rest
      else true
  | _ => true
  end.

(** Every size of the bracket clauses at [P] parses as an expression and
    is closed by its bracket.  The clause after a size starts where the
    expression parser stopped, hence the recursion budget. *)
Fixpoint sizesParse (C : Collaborators) (n : nat) (P : Parser) : bool :=
  match n with
  | 0 => false
  | S n =>
      let P1 := setToks P (tl (Toks P)) in
      if is_ (Tok P1) tok.r_square then
        let P2 := setToks P1 (tl (Toks P1)) in
        if isFollowingLSquare (Tok P2) then sizesParse C n P2 else true
      else
        match parseExpr C diag.expected_expr_array_type P1 with
        | (None, _) => false
        | (Some _, P2) =>
            if is_ (Tok P2) tok.r_square then
              let P3 := setToks P2 (tl (Toks P2)) in
              if isFollowingLSquare (Tok P3) then sizesParse C n P3 else true
            else false
        end
  end.

(** The tokens of a run of bracket clauses [[] [] ...], each clause given
    by its two brackets, and the node [parseTypeArray] is to build from
    them: the first clause outermost. *)
Definition isSlice (p : Token * Token) : bool :=
  isFollowingLSquare (fst p) && is_ (snd p) tok.r_square.

Definition sliceTokens (clauses : list (Token * Token)) : list Token :=
  flat_map (fun p => [fst p; snd p]) clauses.

Fixpoint sliceNode (Base : TypeRepr) (clauses : list (Token * Token)) : TypeRepr :=
  match clauses with
  | [] => Base
  | p :: rest =>
      ArrayTypeRepr (sliceNode Base rest) None
        (mkRange (getLoc (fst p)) (getLoc (snd p)))
  end.

(** A question mark that the optional loop takes, and the node a run of
    them builds: the first one innermost. *)
Definition isOptionalSuffix (q : Token) : bool :=
  is_ q tok.question && negb (isAtStartOfLine q).

Definition wrapOptionals (ty : TypeRepr) (qs : list Token) : TypeRepr :=
  fold_left (fun t q => OptionalTypeRepr t (getLoc q)) qs ty.

(** A period and the metatype keyword after it, as the metatype loop
    takes them, and the node a run of them builds. *)
Definition isMetatypeSuffix (pm : Token * Token) : bool :=
  (is_ (fst pm) tok.period || is_ (fst pm) tok.period_prefix) &&
  is_ (snd pm) tok.kw_metatype.

Definition metatypeTokens (suffixes : list (Token * Token)) : list Token :=
  flat_map (fun pm => [fst pm; snd pm]) suffixes.

Definition wrapMetatypes (ty : TypeRepr) (suffixes : list (Token * Token))
    : TypeRepr :=
  fold_left (fun t pm => MetaTypeTypeRepr t (getLoc (snd pm))) suffixes ty.

Definition getIdLoc (c : Component) : SourceLoc :=
  match c with
  | mkComponent l _ _ _ => l
  end.

(** ** A concrete set of collaborators

    Small stand-ins for the out-of-file collaborators, used to run the
    parser on concrete token streams. *)
Module Sample.

(** An expression is a single literal or name. *)
Definition parseExpr (D : diag.t) (P : Parser) : option Expr * Parser :=
  let T := Tok P in
  if is_ T tok.integer_literal || is_ T tok.identifier then
    (Some (mkExpr (mkRange (getLoc T) (getLoc T))), setToks P (tl (Toks P)))
  else (None, mkParser (Toks P) (Diags P ++ [mkDiag (getLoc T) D None None])).

(** The names between [[] and []]. *)
Fixpoint attributeNames (ts : list Token) : DeclAttributes * list Token :=
  match ts with
  | T :: rest =>
      if is_ T tok.identifier then
        let (names, ts') := attributeNames rest in (getText T :: names, ts')
      else ([], ts)
  | [] => ([], [])
  end.

Fixpoint dropUntilRSquare (ts : list Token) : list Token :=
  match ts with
  | T :: rest => if is_ T tok.r_square then rest else dropUntilRSquare rest
  | [] => []
  end.

(** A malformed list is diagnosed and skipped up to its []]. *)
Definition parseAttributeList (P : Parser) : (bool * DeclAttributes) * Parser :=
  if is_ (Tok P) tok.l_square then
    let (names, ts) := attributeNames (tl (Toks P)) in
    let T := hd eofToken ts in
    if is_ T tok.r_square then ((false, names), setToks P (tl ts))
    else ((true, names),
          mkParser (dropUntilRSquare ts)
            (Diags P ++ [mkDiag (getLoc T) diag.invalid_attribute None None]))
  else ((false, []), P).

Definition isStartOfDecl (T N : Token) : bool :=
  is_ T tok.kw_var || is_ T tok.kw_func.

Definition isStartOfBindingName (T : Token) : bool := is_ T tok.identifier.

Definition lookupInScope (I : Identifier) : option ValueDecl := None.

Definition isIdentifierKeyword (K : tok.t) : bool := tok.eqb K tok.kw_This.

Definition closerOf (K : tok.t) : option tok.t :=
  match K with
  | tok.l_paren => Some tok.r_paren
  | tok.l_brace => Some tok.r_brace
  | tok.l_square => Some tok.r_square
  | _ => None
  end.

(** Skip one token, or one bracketed group up to its closing token. *)
Fixpoint skipSingleFuel (n : nat) (ts : list Token) : list Token :=
  match n with
  | 0 => tl ts
  | S n =>
      match ts with
      | [] => []
      | T :: rest =>
          match closerOf (getKind T) with
          | Some K =>
              let ts' := skipUntilFuel n K rest in
              if is_ (hd eofToken ts') K then tl ts' else ts'
          | None => rest
          end
      end
  end
with skipUntilFuel (n : nat) (K : tok.t) (ts : list Token) : list Token :=
  match n with
  | 0 => ts
  | S n =>
      match ts with
      | [] => []
      | T :: _ =>
          if is_ T tok.eof || is_ T K then ts
          else skipUntilFuel n K (skipSingleFuel n ts)
      end
  end.

Definition skipSingle (ts : list Token) : list Token :=
  skipSingleFuel (2 * List.length ts) ts.

Definition collaborators : Collaborators :=
  mkCollaborators parseExpr parseAttributeList isStartOfDecl
    isStartOfBindingName lookupInScope isIdentifierKeyword skipSingle.

(** Tokens of a one-line input, one column per token. *)
Definition token (K : tok.t) (text : string) (col : nat) : Token :=
  mkToken K text (Some col) false " "%char.

Definition start (ts : list Token) : Parser := mkParser ts [].

(** The inputs of the concrete runs. *)

Definition T_node : TypeRepr :=
  IdentTypeRepr [mkComponent (Some 0) "T"%string [] None].

(** [[][]], the suffix of [T[][]]. *)
Definition two_slices : list Token :=
  [token tok.l_square "[" 1; token tok.r_square "]" 2;
   token tok.l_square "[" 3; token tok.r_square "]" 4; token tok.eof "" 5].

(** [T[][]] *)
Definition T_two_slices : list Token :=
  token tok.identifier "T" 0 :: two_slices.

(** [[4]], the suffix of [Int[4]]. *)
Definition sized_4 : list Token :=
  [token tok.l_square "[" 3; token tok.integer_literal "4" 4;
   token tok.r_square "]" 5; token tok.eof "" 6].

(** [[+]], a bracket clause whose size is not an expression. *)
Definition sized_plus : list Token :=
  [token tok.l_square "[" 3; token tok.oper_binary "+" 4;
   token tok.r_square "]" 5; token tok.eof "" 6].

Definition Int_node : TypeRepr :=
  IdentTypeRepr [mkComponent (Some 0) "Int"%string [] None].

(** [Foo.bar] *)
Definition Foo_dot_bar : list Token :=
  [token tok.identifier "Foo" 0; token tok.period "." 3;
   token tok.identifier "bar" 4; token tok.eof "" 7].

Definition kw_metatype_token : Token := token tok.kw_metatype "metatype" 4.

(** [[+] Int]: a malformed attribute list before a type. *)
Definition bad_attribute_Int : list Token :=
  [token tok.l_square "[" 0; token tok.oper_binary "+" 1;
   token tok.r_square "]" 2; token tok.identifier "Int" 4;
   token tok.eof "" 7].

(** [[a] Int]: an attribute before a type. *)
Definition attribute_Int : list Token :=
  [token tok.l_square "[" 0; token tok.identifier "a" 1;
   token tok.r_square "]" 2; token tok.identifier "Int" 4;
   token tok.eof "" 7].

(** [<Int>] followed by [{] on the next line. *)
Definition generic_then_brace : list Token :=
  [token tok.oper_binary "<" 0; token tok.identifier "Int" 1;
   token tok.oper_binary ">" 4;
   mkToken tok.l_brace "{" (Some 6) true " "%char; token tok.eof "" 7].

(** [<Int Int> x]: a generic-argument list with a missing comma. *)
Definition generic_missing_comma : list Token :=
  [token tok.oper_binary "<" 0; token tok.identifier "Int" 1;
   token tok.identifier "Int" 5; token tok.oper_binary ">" 8;
   token tok.identifier "x" 10; token tok.eof "" 11].

(** [protocol<A B>] *)
Definition protocol_A_B : list Token :=
  [token tok.kw_protocol "protocol" 0; token tok.oper_binary "<" 8;
   token tok.identifier "A" 9; token tok.identifier "B" 11;
   token tok.oper_binary ">" 12; token tok.eof "" 13].

(** [(...)] *)
Definition tuple_ellipsis_only : list Token :=
  [token tok.l_paren "(" 0; token tok.ellipsis "..." 1;
   token tok.r_paren ")" 4; token tok.eof "" 5].

(** [(Int...)] *)
Definition tuple_Int_ellipsis : list Token :=
  [token tok.l_paren "(" 0; token tok.identifier "Int" 1;
   token tok.ellipsis "..." 4; token tok.r_paren ")" 7; token tok.eof "" 8].

(** [Array<Int>] *)
Definition Array_of_Int : list Token :=
  [token tok.identifier "Array" 0; token tok.oper_binary "<" 5;
   token tok.identifier "Int" 6; token tok.oper_binary ">" 9;
   token tok.eof "" 10].

(** The bracket clauses of [[][][]]. *)
Definition three_clauses : list (Token * Token) :=
  [(token tok.l_square "[" 1, token tok.r_square "]" 2);
   (token tok.l_square "[" 3, token tok.r_square "]" 4);
   (token tok.l_square "[" 5, token tok.r_square "]" 6)].

(** [Int.metatype??] *)
Definition Int_metatype_twice_optional : list Token :=
  [token tok.identifier "Int" 0; token tok.period "." 3;
   token tok.kw_metatype "metatype" 4; token tok.question "?" 12;
   token tok.question "?" 13; token tok.eof "" 14].

(** [protocol A]: the opening angle bracket is missing. *)
Definition protocol_without_angle : list Token :=
  [token tok.kw_protocol "protocol" 0; token tok.identifier "A" 9;
   token tok.eof "" 10].

(** [(a: Int, Array<Int>) -> Int?] *)
Definition function_of_tuple : list Token :=
  [token tok.l_paren "(" 0; token tok.identifier "a" 1; token tok.colon ":" 2;
   token tok.identifier "Int" 4; token tok.comma "," 7;
   token tok.identifier "Array" 9; token tok.oper_binary "<" 14;
   token tok.identifier "Int" 15; token tok.oper_binary ">" 18;
   token tok.r_paren ")" 19; token tok.arrow "->" 21;
   token tok.identifier "Int" 24; token tok.question "?" 27;
   token tok.eof "" 28].

(** [[4][]], the suffix of [Int[4][]]. *)
Definition sized_4_then_slice : list Token :=
  [token tok.l_square "[" 3; token tok.integer_literal "4" 4;
   token tok.r_square "]" 5; token tok.l_square "[" 6;
   token tok.r_square "]" 7; token tok.eof "" 8].

(** [[][4]], the suffix of [Int[][4]]. *)
Definition slice_then_sized_4 : list Token :=
  [token tok.l_square "[" 3; token tok.r_square "]" 4;
   token tok.l_square "[" 5; token tok.integer_literal "4" 6;
   token tok.r_square "]" 7; token tok.eof "" 8].

(** [[4], the suffix of [Int[4]: the closing bracket is missing. *)
Definition sized_4_unclosed : list Token :=
  [token tok.l_square "[" 3; token tok.integer_literal "4" 4;
   token tok.eof "" 5].

(** [(Int = 4)] *)
Definition tuple_Int_default : list Token :=
  [token tok.l_paren "(" 0; token tok.identifier "Int" 1;
   token tok.equal "=" 5; token tok.integer_literal "4" 7;
   token tok.r_paren ")" 8; token tok.eof "" 9].

(** [(a: Int = 4)] *)
Definition tuple_named_default : list Token :=
  [token tok.l_paren "(" 0; token tok.identifier "a" 1; token tok.colon ":" 2;
   token tok.identifier "Int" 4; token tok.equal "=" 8;
   token tok.integer_literal "4" 10; token tok.r_paren ")" 11;
   token tok.eof "" 12].

(** [()], what follows the type in [Array<Int>()]. *)
Definition call_parentheses : list Token :=
  [token tok.l_paren "(" 10; token tok.r_paren ")" 11; token tok.eof "" 12].

(** [Array<Int>()] *)
Definition Array_of_Int_call : list Token :=
  token tok.identifier "Array" 0 :: token tok.oper_binary "<" 5
    :: token tok.identifier "Int" 6 :: token tok.oper_binary ">" 9
    :: call_parentheses.

End Sample.

(** * Properties *)

Unset Implicit Arguments.

#[local] Arguments hd {A} default l : simpl nomatch.
#[local] Arguments tl {A} l : simpl nomatch.
#[local] Arguments bind {A B} m k P /.
#[local] Arguments ret {A} a P /.
#[local] Arguments getTok P /.
#[local] Arguments getPeek P /.
#[local] Arguments consumeToken P /.
#[local] Arguments consumeIf K P /.
#[local] Arguments diagnose L ID P /.
#[local] Arguments diagnoseFull D P /.
#[local] Arguments onToks f P /.
#[local] Arguments onToksWith {A} f P /.
#[local] Arguments liftC {A} f P /.
#[local] Arguments outOfFuel {A} _ /.
#[local] Arguments Tok P /.
#[local] Arguments peekToken P /.
#[local] Arguments setToks P ts /.
#[local] Arguments is_ : simpl never.
#[local] Arguments isNot : simpl never.
#[local] Arguments isAnyOperator : simpl never.
#[local] Arguments isFollowingLSquare : simpl never.
#[local] Arguments startsWithLess : simpl never.
#[local] Arguments startsWithGreater : simpl never.
#[local] Arguments isGenericTypeDisambiguatingToken : simpl never.
#[local] Arguments isIdentifierToken : simpl never.
#[local] Arguments noParen : simpl never.
#[local] Arguments consumeStartingCharacter : simpl never.
#[local] Arguments consumeStartingLess : simpl never.
#[local] Arguments consumeStartingGreater : simpl never.
#[local] Arguments skipWhileNot : simpl never.
#[local] Arguments skipUntilAnyOperator : simpl never.
#[local] Arguments canSkipAttributes : simpl never.
#[local] Arguments canSkipDefaultValue : simpl never.
#[local] Arguments weight : simpl never.
#[local] Arguments tokWeight : simpl never.
#[local] Arguments skipLoop : simpl never.
#[local] Arguments canParseTypeArray : simpl never.
#[local] Arguments canParseType : simpl never.
#[local] Arguments canParseGenericArguments : simpl never.
#[local] Arguments canParseGenericArguments_list : simpl never.
#[local] Arguments canParseTypeIdentifier : simpl never.
#[local] Arguments canParseTypeIdentifier_loop : simpl never.
#[local] Arguments canParseTypeComposition : simpl never.
#[local] Arguments canParseTypeComposition_list : simpl never.
#[local] Arguments canParseTypeTupleBody : simpl never.
#[local] Arguments canParseTypeTupleBody_list : simpl never.
#[local] Arguments parseList_elements : simpl never.
#[local] Arguments parseTypeArray : simpl never.
#[local] Arguments parseType : simpl never.
#[local] Arguments parseTypeAnnotation : simpl never.
#[local] Arguments parseGenericArguments : simpl never.
#[local] Arguments parseGenericArguments_list : simpl never.
#[local] Arguments parseTypeIdentifier : simpl never.
#[local] Arguments parseTypeIdentifier_loop : simpl never.
#[local] Arguments parseTypeComposition : simpl never.
#[local] Arguments parseTypeComposition_list : simpl never.
#[local] Arguments parseTypeTupleBody : simpl never.
#[local] Arguments parseTypeTupleBody_element : simpl never.
#[local] Arguments sizesParse : simpl never.
#[local] Arguments parseIdentifier C D P /.
#[local] Arguments parseMatchingToken K ErrorDiag OtherLoc P /.

(** ** Token kinds *)

Lemma is_true_iff T K : is_ T K = true <-> getKind T = K.
Proof. apply tok.eqb_eq. Qed.

Lemma is_false_iff T K : is_ T K = false <-> getKind T <> K.
Proof. apply tok.eqb_neq. Qed.

Lemma is_kind T K : getKind T = K -> is_ T K = true.
Proof. apply is_true_iff. Qed.

Lemma is_other T K K' : getKind T = K -> K <> K' -> is_ T K' = false.
Proof. intros <- H. apply is_false_iff. exact H. Qed.

Lemma isNot_kind T K : getKind T = K -> isNot T K = false.
Proof. intros H. unfold isNot. rewrite (is_kind _ _ H). reflexivity. Qed.

Lemma isNot_other T K K' : getKind T = K -> K <> K' -> isNot T K' = true.
Proof. intros H N. unfold isNot. rewrite (is_other _ _ _ H N). reflexivity. Qed.

Lemma isAnyOperator_kind T :
  isAnyOperator T = true <->
  getKind T = tok.oper_binary \/ getKind T = tok.oper_postfix \/
  getKind T = tok.oper_prefix.
Proof.
  unfold isAnyOperator. rewrite !orb_true_iff, !is_true_iff. tauto.
Qed.

Lemma startsWith_operator c T : startsWithChar c T = true -> isAnyOperator T = true.
Proof. unfold startsWithChar. intros H. apply andb_true_iff in H. tauto. Qed.

Lemma not_operator_startsWith c T : isAnyOperator T = false -> startsWithChar c T = false.
Proof. unfold startsWithChar. intros ->. reflexivity. Qed.

Lemma eof_not_operator T : is_ T tok.eof = true -> isAnyOperator T = false.
Proof.
  intros H. apply is_true_iff in H. unfold isAnyOperator.
  rewrite !(is_other _ _ _ H) by discriminate. reflexivity.
Qed.

(** Rewrites every test on the kind of a token whose kind is known. *)
Ltac kinds :=
  repeat match goal with
         | H : getKind ?T = ?K |- context [is_ ?T ?K'] =>
             first [ rewrite (is_kind T K H)
                   | rewrite (@is_other T K K' H) by discriminate ]
         | H : getKind ?T = ?K |- context [isNot ?T ?K'] =>
             first [ rewrite (isNot_kind T K H)
                   | rewrite (@isNot_other T K K' H) by discriminate ]
         end.

Section Properties.

Variable C : Collaborators.

(** ** Unfolding equations

    One round of each recursive function: the body of its definition at a
    positive recursion budget. *)

Local Abbreviation skipSingleM := (skipSingleM C).
Local Abbreviation skipLoop := (skipLoop C).
Local Abbreviation skipWhileNot := (skipWhileNot C).
Local Abbreviation skipUntilAnyOperator := (skipUntilAnyOperator C).
Local Abbreviation canSkipAttributes := (canSkipAttributes C).
Local Abbreviation canSkipDefaultValue := (canSkipDefaultValue C).
Local Abbreviation isIdentifierToken := (isIdentifierToken C).
Local Abbreviation canParseAsGenericArgumentList := (canParseAsGenericArgumentList C).
Local Abbreviation parseIdentifier := (parseIdentifier C).
Local Abbreviation parseTypeArray := (parseTypeArray C).
Local Abbreviation resolveFirstComponent := (resolveFirstComponent C).
Local Abbreviation canParseType := (canParseType C).
Local Abbreviation canParseGenericArguments := (canParseGenericArguments C).
Local Abbreviation canParseGenericArguments_list := (canParseGenericArguments_list C).
Local Abbreviation canParseTypeIdentifier := (canParseTypeIdentifier C).
Local Abbreviation canParseTypeIdentifier_loop := (canParseTypeIdentifier_loop C).
Local Abbreviation canParseTypeComposition := (canParseTypeComposition C).
Local Abbreviation canParseTypeComposition_list := (canParseTypeComposition_list C).
Local Abbreviation canParseTypeTupleBody := (canParseTypeTupleBody C).
Local Abbreviation canParseTypeTupleBody_list := (canParseTypeTupleBody_list C).
Local Abbreviation parseType := (parseType C).
Local Abbreviation parseTypeAnnotation := (parseTypeAnnotation C).
Local Abbreviation parseGenericArguments := (parseGenericArguments C).
Local Abbreviation parseGenericArguments_list := (parseGenericArguments_list C).
Local Abbreviation parseTypeIdentifier := (parseTypeIdentifier C).
Local Abbreviation parseTypeIdentifier_loop := (parseTypeIdentifier_loop C).
Local Abbreviation parseTypeComposition := (parseTypeComposition C).
Local Abbreviation parseTypeComposition_list := (parseTypeComposition_list C).
Local Abbreviation parseTypeTupleBody := (parseTypeTupleBody C).
Local Abbreviation parseTypeTupleBody_element := (parseTypeTupleBody_element C).

Lemma canParseTypeArray_S n :
  canParseTypeArray (S n) =
    consumeToken ;;
    T <- getTok ;;
    if is_ T tok.r_square then
      consumeToken ;;
      T <- getTok ;;
      if isFollowingLSquare T then canParseTypeArray n
      else ret true
    else ret false.
Proof. reflexivity. Qed.

Lemma canParseType_S n :
  canParseType (S n) =
    T <- getTok ;;
    ok <- match getKind T with
          | tok.kw_This | tok.identifier => canParseTypeIdentifier n
          | tok.kw_protocol => canParseTypeComposition n
          | tok.l_paren => consumeToken ;; canParseTypeTupleBody n
          | _ => ret false
          end ;;
    if negb ok then ret false
    else
      onToks skipMetatypes ;;
      arrow <- consumeIf tok.arrow ;;
      if arrow then
        ok <- canParseType n ;;
        if negb ok then ret false else ret true
      else
        onToks skipQuestions ;;
        T <- getTok ;;
        if isFollowingLSquare T then canParseTypeArray n
        else ret true.
Proof. reflexivity. Qed.

Lemma canParseGenericArguments_S n :
  canParseGenericArguments (S n) =
    T <- getTok ;;
    if negb (startsWithLess T) then ret false
    else
      consumeStartingLess ;;
      ok <- canParseGenericArguments_list n ;;
      if negb ok then ret false
      else
        T <- getTok ;;
        if negb (startsWithGreater T) then ret false
        else consumeStartingGreater ;; ret true.
Proof. reflexivity. Qed.

Lemma canParseGenericArguments_list_S n :
  canParseGenericArguments_list (S n) =
    ok <- canParseType n ;;
    if negb ok then ret false
    else
      c <- consumeIf tok.comma ;;
      if c then canParseGenericArguments_list n else ret true.
Proof. reflexivity. Qed.

Lemma canParseTypeIdentifier_S n :
  canParseTypeIdentifier (S n) =
    T <- getTok ;;
    if isNot T tok.identifier && isNot T tok.kw_This then ret false
    else canParseTypeIdentifier_loop n.
Proof. reflexivity. Qed.

Lemma canParseTypeIdentifier_loop_S n :
  canParseTypeIdentifier_loop (S n) =
    T <- getTok ;;
    if negb (isIdentifierToken T) then ret false
    else
      consumeToken ;;
      T <- getTok ;;
      ok <- (if startsWithLess T then canParseGenericArguments n else ret true) ;;
      if negb ok then ret false
      else
        T <- getTok ;;
        N <- getPeek ;;
        if (is_ T tok.period || is_ T tok.period_prefix) && isNot N tok.kw_metatype
        then consumeToken ;; canParseTypeIdentifier_loop n
        else ret true.
Proof. reflexivity. Qed.

Lemma canParseTypeComposition_S n :
  canParseTypeComposition (S n) =
    consumeToken ;;
    T <- getTok ;;
    if negb (startsWithLess T) then ret false
    else
      consumeStartingLess ;;
      T <- getTok ;;
      if startsWithGreater T then consumeStartingGreater ;; ret true
      else
        ok <- canParseTypeComposition_list n ;;
        if negb ok then ret false
        else
          T <- getTok ;;
          if negb (startsWithGreater T) then ret false
          else consumeStartingGreater ;; ret true.
Proof. reflexivity. Qed.

Lemma canParseTypeComposition_list_S n :
  canParseTypeComposition_list (S n) =
    ok <- canParseTypeIdentifier n ;;
    if negb ok then ret false
    else
      c <- consumeIf tok.comma ;;
      if c then canParseTypeComposition_list n else ret true.
Proof. reflexivity. Qed.

Lemma canParseTypeTupleBody_S n :
  canParseTypeTupleBody (S n) =
    T <- getTok ;;
    N <- getPeek ;;
    ok <- (if isNot T tok.r_paren && isNot T tok.r_brace &&
              isNot T tok.ellipsis && negb (isStartOfDecl C T N)
           then canParseTypeTupleBody_list n
           else ret true) ;;
    if negb ok then ret false
    else
      T <- getTok ;;
      (if is_ T tok.ellipsis then consumeToken ;; ret tt else ret tt) ;;
      T <- getTok ;;
      if is_ T tok.r_paren then consumeToken ;; ret true
      else ret false.
Proof. reflexivity. Qed.

Lemma canParseTypeTupleBody_list_S n :
  canParseTypeTupleBody_list (S n) =
    T <- getTok ;;
    N <- getPeek ;;
    ok <- (if is_ T tok.identifier && is_ N tok.colon then
             consumeToken ;;
             consumeToken ;;
             a <- canSkipAttributes ;;
             if negb a then ret false
             else
               ok <- canParseType n ;;
               if negb ok then ret false
               else canSkipDefaultValue ;; ret true
           else
             a <- canSkipAttributes ;;
             if negb a then ret false
             else canParseType n) ;;
    if negb ok then ret false
    else
      c <- consumeIf tok.comma ;;
      if c then canParseTypeTupleBody_list n else ret true.
Proof. reflexivity. Qed.

Lemma parseList_elements_S {L : Type} n (RightK SeparatorK : tok.t) (callback : L -> M (bool * L)) (Invalid : bool) (l : L) :
  parseList_elements (S n) RightK SeparatorK callback Invalid l =
    '(err, l) <- callback l ;;
    let Invalid := Invalid || err in
    T <- getTok ;;
    if is_ T RightK then ret (Invalid, l)
    else
      c <- consumeIf SeparatorK ;;
      if c then parseList_elements n RightK SeparatorK callback Invalid l
      else ret (Invalid, l).
Proof. reflexivity. Qed.

Lemma parseTypeArray_S n (Base : TypeRepr) :
  parseTypeArray (S n) Base =
    lsquareLoc <- consumeToken ;;
    T <- getTok ;;
    if is_ T tok.r_square then
      rsquareLoc <- consumeToken ;;
      T <- getTok ;;
      Base' <- (if isFollowingLSquare T then parseTypeArray n Base
                else ret (Some Base)) ;;
      match Base' with
      | None => ret None
      | Some Base =>
          ret (Some (ArrayTypeRepr Base None (mkRange lsquareLoc rsquareLoc)))
      end
    else
      sizeEx <- liftC (parseExpr C diag.expected_expr_array_type) ;;
      match sizeEx with
      | None => ret None
      | Some sizeEx =>
          r <- parseMatchingToken tok.r_square
                 diag.expected_rbracket_array_type lsquareLoc ;;
          match r with
          | None => ret None
          | Some rsquareLoc =>
              T <- getTok ;;
              Base' <- (if isFollowingLSquare T then parseTypeArray n Base
                        else ret (Some Base)) ;;
              match Base' with
              | None => ret None
              | Some _ =>
                  diagnoseFull (mkDiag lsquareLoc
                                  diag.unsupported_fixed_length_array
                                  (Some (getSourceRange sizeEx)) None) ;;
                  ret None
              end
          end
      end.
Proof. reflexivity. Qed.

Lemma parseType_S n (MessageID : diag.t) :
  parseType (S n) MessageID =
    T <- getTok ;;
    ty <- match getKind T with
          | tok.kw_This | tok.identifier =>
              r <- parseTypeIdentifier n ;;
              ret (option_map IdentTypeRepr r)
          | tok.kw_protocol => parseTypeComposition n
          | tok.l_paren => parseTypeTupleBody n
          | _ => diagnose (getLoc T) MessageID ;; ret None
          end ;;
    match ty with
    | None => ret None
    | Some ty =>
        ty <- onToksWith (parseMetatypes ty) ;;
        arrow <- consumeIf tok.arrow ;;
        if arrow then
          SecondHalf <- parseType n diag.expected_type_function_result ;;
          match SecondHalf with
          | None => ret None
          | Some SecondHalf => ret (Some (FunctionTypeRepr ty SecondHalf))
          end
        else
          ty <- onToksWith (parseOptionals ty) ;;
          T <- getTok ;;
          if isFollowingLSquare T then parseTypeArray n ty
          else ret (Some ty)
    end.
Proof. reflexivity. Qed.

Lemma parseTypeAnnotation_S n (message : diag.t) :
  parseTypeAnnotation (S n) message =
    '(_, attrs) <- liftC (parseAttributeList C) ;;
    ty <- parseType n message ;;
    ret (applyAttributeToType ty attrs).
Proof. reflexivity. Qed.

Lemma parseGenericArguments_S n :
  parseGenericArguments (S n) =
    LAngleLoc <- consumeStartingLess ;;
    '(failed, Args) <- parseGenericArguments_list n [] ;;
    if failed then
      skipUntilAnyOperator ;;
      T <- getTok ;;
      (if startsWithGreater T then consumeStartingGreater ;; ret tt
       else ret tt) ;;
      ret (true, Args, LAngleLoc, None)
    else
      T <- getTok ;;
      if negb (startsWithGreater T) then
        diagnose (getLoc T) diag.expected_rangle_generic_arg_list ;;
        diagnose LAngleLoc diag.opening_angle ;;
        skipUntilAnyOperator ;;
        T <- getTok ;;
        RAngleLoc <- (if startsWithGreater T then consumeStartingGreater
                      else ret None) ;;
        ret (true, Args, LAngleLoc, RAngleLoc)
      else
        RAngleLoc <- consumeStartingGreater ;;
        ret (false, Args, LAngleLoc, RAngleLoc).
Proof. reflexivity. Qed.

Lemma parseGenericArguments_list_S n (Args : list TypeRepr) :
  parseGenericArguments_list (S n) Args =
    Ty <- parseType n diag.expected_type ;;
    match Ty with
    | None => ret (true, Args)
    | Some Ty =>
        let Args := Args ++ [Ty] in
        c <- consumeIf tok.comma ;;
        if c then parseGenericArguments_list n Args
        else ret (false, Args)
    end.
Proof. reflexivity. Qed.

Lemma parseTypeIdentifier_S n :
  parseTypeIdentifier (S n) =
    T <- getTok ;;
    if isNot T tok.identifier && isNot T tok.kw_This then
      diagnose (getLoc T) diag.expected_identifier_for_type ;;
      ret None
    else
      r <- parseTypeIdentifier_loop n [] ;;
      match r with
      | None => ret None
      | Some ComponentsR => ret (Some (resolveFirstComponent ComponentsR))
      end.
Proof. reflexivity. Qed.

Lemma parseTypeIdentifier_loop_S n (ComponentsR : list Component) :
  parseTypeIdentifier_loop (S n) ComponentsR =
    id <- parseIdentifier diag.expected_identifier_in_dotted_type ;;
    match id with
    | None => ret None
    | Some (Name, Loc) =>
        T <- getTok ;;
        ga <- (if startsWithLess T then
                 '(err, GenericArgs, _, _) <- parseGenericArguments n ;;
                 if err : bool then ret None else ret (Some GenericArgs)
               else ret (Some [])) ;;
        match ga with
        | None => ret None
        | Some GenericArgs =>
            let ComponentsR :=
              ComponentsR ++ [mkComponent Loc Name GenericArgs None] in
            T <- getTok ;;
            N <- getPeek ;;
            if (is_ T tok.period || is_ T tok.period_prefix) &&
               isNot N tok.kw_metatype
            then consumeToken ;; parseTypeIdentifier_loop n ComponentsR
            else ret (Some ComponentsR)
        end
    end.
Proof. reflexivity. Qed.

Lemma parseTypeComposition_S n :
  parseTypeComposition (S n) =
    ProtocolLoc <- consumeToken ;;
    T <- getTok ;;
    if negb (startsWithLess T) then
      diagnose (getLoc T) diag.expected_langle_protocol ;;
      ret None
    else
      LAngleLoc <- consumeStartingLess ;;
      T <- getTok ;;
      if startsWithGreater T then
        RAngleLoc <- consumeStartingGreater ;;
        ret (Some (ProtocolCompositionTypeRepr [] ProtocolLoc
                     (mkRange LAngleLoc RAngleLoc)))
      else
        '(Invalid, Protocols) <- parseTypeComposition_list n [] ;;
        T <- getTok ;;
        EndLoc <- (if negb (startsWithGreater T) then
                     (if negb Invalid then
                        diagnose (getLoc T) diag.expected_rangle_protocol ;;
                        diagnose LAngleLoc diag.opening_angle
                      else ret tt) ;;
                     skipUntilAnyOperator ;;
                     T' <- getTok ;;
                     if startsWithGreater T' then consumeStartingGreater
                     else ret (getLoc T)
                   else consumeStartingGreater) ;;
        ret (Some (ProtocolCompositionTypeRepr Protocols ProtocolLoc
                     (mkRange LAngleLoc EndLoc))).
Proof. reflexivity. Qed.

Lemma parseTypeComposition_list_S n (Protocols : list (list Component)) :
  parseTypeComposition_list (S n) Protocols =
    Protocol <- parseTypeIdentifier n ;;
    match Protocol with
    | None => ret (true, Protocols)
    | Some Protocol =>
        let Protocols := Protocols ++ [Protocol] in
        c <- consumeIf tok.comma ;;
        if c then parseTypeComposition_list n Protocols
        else ret (false, Protocols)
    end.
Proof. reflexivity. Qed.

Lemma parseTypeTupleBody_S n :
  parseTypeTupleBody (S n) =
    LPLoc <- consumeToken ;;
    '(Invalid', RPLoc, l) <-
      parseList n tok.r_paren LPLoc tok.comma
        diag.expected_rparen_tuple_type_list
        (parseTypeTupleBody_element n)
        (mkTupleLocals [] false None false) ;;
    if HadEllipsis l && isEmpty (ElementsR l) then
      diagnose (EllipsisLoc l) diag.empty_tuple_ellipsis ;;
      ret None
    else
      T <- getTok ;;
      ret (Some (TupleTypeRepr (ElementsR l) (mkRange LPLoc (getLoc T))
                   (if HadEllipsis l then EllipsisLoc l else None))).
Proof. reflexivity. Qed.

Lemma parseTypeTupleBody_element_S n (l : TupleLocals) :
  parseTypeTupleBody_element (S n) l =
    T <- getTok ;;
    N <- getPeek ;;
    e <- (if isStartOfBindingName C T && is_ N tok.colon then
            let name := getText T in
            nameLoc <- consumeToken ;;
            consumeToken ;;
            type <- parseTypeAnnotation n diag.expected_type ;;
            match type with
            | None => ret None
            | Some type => ret (Some (NamedTypeRepr name type nameLoc))
            end
          else parseTypeAnnotation n diag.expected_type) ;;
    match e with
    | None => ret (true, l)
    | Some e =>
        let l := mkTupleLocals (ElementsR l ++ [e]) (HadEllipsis l)
                   (EllipsisLoc l) (Invalid l) in
        T <- getTok ;;
        (if is_ T tok.equal then
           equalLoc <- consumeToken ;;
           init <- liftC (parseExpr C diag.expected_initializer_expr) ;;
           diagnoseFull
             (mkDiag equalLoc diag.tuple_type_init None
                (option_map (fun e => mkRange equalLoc (getEndLoc e)) init))
         else ret tt) ;;
        T <- getTok ;;
        if is_ T tok.ellipsis then
          L <- consumeToken ;;
          T <- getTok ;;
          if is_ T tok.r_paren then
            ret (false, mkTupleLocals (ElementsR l) true L (Invalid l))
          else
            diagnose L diag.unexpected_ellipsis_in_tuple ;;
            ret (false, mkTupleLocals (ElementsR l) (HadEllipsis l) L true)
        else ret (false, l)
    end.
Proof. reflexivity. Qed.

(** ** Array suffixes *)

(** A slice clause [[]] that no further bracket follows wraps its base. *)
Lemma parseTypeArray_last_slice n Base l r rest ds :
  getKind r = tok.r_square ->
  isFollowingLSquare (hd eofToken rest) = false ->
  parseTypeArray (S n) Base (mkParser (l :: r :: rest) ds)
  = Some (Some (ArrayTypeRepr Base None (mkRange (getLoc l) (getLoc r))),
          mkParser rest ds).
Proof.
  intros Hr Hrest. rewrite parseTypeArray_S. cbn. kinds. cbn.
  rewrite Hrest. reflexivity.
Qed.

(** A slice clause followed by another bracket clause wraps what the
    recursive call on that clause returns. *)
Lemma parseTypeArray_slice_then n Base l r rest ds :
  getKind r = tok.r_square ->
  isFollowingLSquare (hd eofToken rest) = true ->
  parseTypeArray (S n) Base (mkParser (l :: r :: rest) ds)
  = match parseTypeArray n Base (mkParser rest ds) with
    | Some (Some Inner, P') =>
        Some (Some (ArrayTypeRepr Inner None (mkRange (getLoc l) (getLoc r))), P')
    | Some (None, P') => Some (None, P')
    | None => None
    end.
Proof.
  intros Hr Hrest. rewrite parseTypeArray_S. cbn. kinds. cbn. rewrite Hrest.
  destruct (parseTypeArray n Base _) as [[[Inner|] P']|]; reflexivity.
Qed.

(** C9: for the two slice clauses of [T[][]], [parseTypeArray] returns the
    array node of the first bracket pair, and its base is the array node
    of the second bracket pair, whose base is [T]. *)
Theorem parseTypeArray_two_slices n T l1 r1 l2 r2 rest ds :
  getKind r1 = tok.r_square ->
  isFollowingLSquare l2 = true ->
  getKind r2 = tok.r_square ->
  isFollowingLSquare (hd eofToken rest) = false ->
  parseTypeArray (S (S n)) T (mkParser (l1 :: r1 :: l2 :: r2 :: rest) ds)
  = Some (Some (ArrayTypeRepr
                  (ArrayTypeRepr T None (mkRange (getLoc l2) (getLoc r2)))
                  None (mkRange (getLoc l1) (getLoc r1))),
          mkParser rest ds).
Proof.
  intros H1 H2 H3 H4.
  rewrite parseTypeArray_slice_then by assumption.
  rewrite parseTypeArray_last_slice by assumption.
  reflexivity.
Qed.

(** ** Dotted paths and the metatype suffix *)

(** The metatype loop leaves alone a period that the metatype keyword does
    not follow. *)
Lemma parseMetatypes_without_keyword ty ts :
  is_ (hd eofToken (tl ts)) tok.kw_metatype = false ->
  parseMetatypes ty ts = (ty, ts).
Proof.
  destruct ts as [|p [|m rest]]; try reflexivity.
  cbn. intros ->. rewrite andb_false_r. reflexivity.
Qed.

(** The metatype loop consumes a period and the keyword after it. *)
Lemma parseMetatypes_keyword ty p m rest :
  is_ p tok.period || is_ p tok.period_prefix = true ->
  getKind m = tok.kw_metatype ->
  parseMetatypes ty (p :: m :: rest)
  = parseMetatypes (MetaTypeTypeRepr ty (getLoc m)) rest.
Proof. intros Hp Hm. cbn. rewrite Hp. kinds. reflexivity. Qed.

Lemma period_not_less p :
  is_ p tok.period || is_ p tok.period_prefix = true -> startsWithLess p = false.
Proof.
  intros H. apply not_operator_startsWith. unfold isAnyOperator.
  apply orb_true_iff in H. destruct H as [H|H]; apply is_true_iff in H;
    rewrite !(is_other _ _ _ H) by discriminate; reflexivity.
Qed.

(** One round of the component loop on a name without generic arguments
    that a period and a token other than the metatype keyword follow: the
    period is consumed and the loop goes on after it. *)
Lemma parseTypeIdentifier_loop_dot n Comps a p rest ds :
  isIdentifierToken a = true ->
  is_ p tok.period || is_ p tok.period_prefix = true ->
  is_ (hd eofToken rest) tok.kw_metatype = false ->
  parseTypeIdentifier_loop (S n) Comps (mkParser (a :: p :: rest) ds)
  = parseTypeIdentifier_loop n
      (Comps ++ [mkComponent (getLoc a) (getText a) [] None])
      (mkParser rest ds).
Proof.
  intros Ha Hp Hm. rewrite parseTypeIdentifier_loop_S. cbn. rewrite Ha. cbn.
  rewrite (period_not_less _ Hp). cbn. rewrite Hp.
  unfold isNot. rewrite Hm. reflexivity.
Qed.

(** One round of the component loop on a name that neither generic
    arguments nor a path separator follow: the loop ends after the name. *)
Lemma parseTypeIdentifier_loop_last n Comps a rest ds :
  isIdentifierToken a = true ->
  startsWithLess (hd eofToken rest) = false ->
  is_ (hd eofToken rest) tok.period || is_ (hd eofToken rest) tok.period_prefix = false ->
  parseTypeIdentifier_loop (S n) Comps (mkParser (a :: rest) ds)
  = Some (Some (Comps ++ [mkComponent (getLoc a) (getText a) [] None]),
          mkParser rest ds).
Proof.
  intros Ha Hl Hp. rewrite parseTypeIdentifier_loop_S. cbn. rewrite Ha. cbn.
  rewrite Hl. cbn. rewrite Hp. reflexivity.
Qed.

(** The loop stops before a period that the metatype keyword follows. *)
Lemma parseTypeIdentifier_loop_metatype n Comps a p m rest ds :
  isIdentifierToken a = true ->
  is_ p tok.period || is_ p tok.period_prefix = true ->
  getKind m = tok.kw_metatype ->
  parseTypeIdentifier_loop (S n) Comps (mkParser (a :: p :: m :: rest) ds)
  = Some (Some (Comps ++ [mkComponent (getLoc a) (getText a) [] None]),
          mkParser (p :: m :: rest) ds).
Proof.
  intros Ha Hp Hm. rewrite parseTypeIdentifier_loop_S. cbn. rewrite Ha. cbn.
  rewrite (period_not_less _ Hp). cbn. rewrite Hp.
  rewrite (isNot_kind _ _ Hm). reflexivity.
Qed.

Lemma identifier_isIdentifierToken a :
  getKind a = tok.identifier -> isIdentifierToken a = true.
Proof. intros H. unfold isIdentifierToken. kinds. reflexivity. Qed.

(** One round of the component loop on a token that is no name: the
    diagnostic for a dotted type, nothing returned, nothing consumed. *)
Lemma parseTypeIdentifier_loop_not_a_name n Comps b rest ds :
  isIdentifierToken b = false ->
  parseTypeIdentifier_loop (S n) Comps (mkParser (b :: rest) ds)
  = Some (None,
          mkParser (b :: rest)
            (ds ++ [mkDiag (getLoc b) diag.expected_identifier_in_dotted_type
                      None None])).
Proof.
  intros Hb. rewrite parseTypeIdentifier_loop_S. cbn. rewrite Hb. reflexivity.
Qed.

(** C4 (amended): a period after a name is a path separator unless the
    metatype keyword follows it.  On [a . b], whatever token [b] other
    than the keyword is, the identifier parser consumes the period and
    goes on at [b]: when [b] is a name it consumes it and returns the
    two-component path; when [b] is no name it diagnoses it and returns
    nothing, the period consumed.  On [a . metatype] it stops before the
    period; and the metatype loop of [parseType] consumes nothing unless
    the keyword follows the period. *)
Theorem parseTypeIdentifier_dotted_name n a p b m rest ds :
  getKind a = tok.identifier ->
  is_ p tok.period || is_ p tok.period_prefix = true ->
  getKind b <> tok.kw_metatype ->
  getKind m = tok.kw_metatype ->
  parseTypeIdentifier (S (S n)) (mkParser (a :: p :: b :: rest) ds)
  = match parseTypeIdentifier_loop n
            [mkComponent (getLoc a) (getText a) [] None]
            (mkParser (b :: rest) ds) with
    | Some (Some ComponentsR, P') =>
        Some (Some (resolveFirstComponent ComponentsR), P')
    | Some (None, P') => Some (None, P')
    | None => None
    end
  /\ (isIdentifierToken b = false ->
      parseTypeIdentifier (S (S (S n))) (mkParser (a :: p :: b :: rest) ds)
      = Some (None,
              mkParser (b :: rest)
                (ds ++ [mkDiag (getLoc b)
                          diag.expected_identifier_in_dotted_type None None])))
  /\ (isIdentifierToken b = true ->
      startsWithLess (hd eofToken rest) = false ->
      is_ (hd eofToken rest) tok.period
      || is_ (hd eofToken rest) tok.period_prefix = false ->
      parseTypeIdentifier (S (S (S n))) (mkParser (a :: p :: b :: rest) ds)
      = Some (Some (resolveFirstComponent
                      [mkComponent (getLoc a) (getText a) [] None;
                       mkComponent (getLoc b) (getText b) [] None]),
              mkParser rest ds))
  /\ parseTypeIdentifier (S (S n)) (mkParser (a :: p :: m :: rest) ds)
     = Some (Some (resolveFirstComponent
                     [mkComponent (getLoc a) (getText a) [] None]),
             mkParser (p :: m :: rest) ds)
  /\ (forall ty, parseMetatypes ty (p :: b :: rest) = (ty, p :: b :: rest))
  /\ (forall ty, parseMetatypes ty (p :: m :: rest)
                 = parseMetatypes (MetaTypeTypeRepr ty (getLoc m)) rest).
Proof.
  intros Ha Hp Hbm Hm.
  assert (Ha' := identifier_isIdentifierToken _ Ha).
  assert (Hb' : is_ (hd eofToken (b :: rest)) tok.kw_metatype = false)
    by (apply is_false_iff; exact Hbm).
  assert (Hdot : forall k,
             parseTypeIdentifier (S (S k)) (mkParser (a :: p :: b :: rest) ds)
             = match parseTypeIdentifier_loop k
                       [mkComponent (getLoc a) (getText a) [] None]
                       (mkParser (b :: rest) ds) with
               | Some (Some ComponentsR, P') =>
                   Some (Some (resolveFirstComponent ComponentsR), P')
               | Some (None, P') => Some (None, P')
               | None => None
               end).
  { intros k. rewrite parseTypeIdentifier_S. cbn.
    rewrite (isNot_kind _ _ Ha). cbn.
    rewrite parseTypeIdentifier_loop_dot by assumption. cbn.
    destruct (parseTypeIdentifier_loop k _ _) as [[[cs|] P']|]; reflexivity. }
  repeat apply conj.
  - apply Hdot.
  - intros Hb. rewrite Hdot.
    rewrite parseTypeIdentifier_loop_not_a_name by exact Hb. reflexivity.
  - intros Hb Hl Hd. rewrite Hdot.
    rewrite parseTypeIdentifier_loop_last by assumption. reflexivity.
  - rewrite parseTypeIdentifier_S. cbn.
    rewrite (isNot_kind _ _ Ha). cbn.
    rewrite parseTypeIdentifier_loop_metatype by assumption. reflexivity.
  - intros ty. apply parseMetatypes_without_keyword. exact Hb'.
  - intros ty. apply parseMetatypes_keyword; assumption.
Qed.

(** ** Fixed-size arrays *)

Lemma weight_cons T ts : weight (T :: ts) = tokWeight T + weight ts.
Proof. reflexivity. Qed.

Lemma weight_tl ts : weight (tl ts) <= weight ts.
Proof. destruct ts; cbn [tl]; [lia|]. rewrite weight_cons. lia. Qed.

Lemma weight_tl_lt ts : ts <> [] -> weight (tl ts) < weight ts.
Proof.
  destruct ts; [congruence|]. intros _. cbn [tl]. rewrite weight_cons.
  unfold tokWeight. lia.
Qed.

Lemma weight_tl_pos ts : 0 < weight ts -> weight (tl ts) < weight ts.
Proof.
  intros H. apply weight_tl_lt. intros ->. unfold weight in H. cbn in H. lia.
Qed.

Lemma weight_pos_kind ts K :
  getKind (hd eofToken ts) = K -> K <> tok.eof -> 0 < weight ts.
Proof.
  destruct ts as [|T ts]; cbn; [congruence|]. intros _ _.
  rewrite weight_cons. unfold tokWeight. lia.
Qed.

Lemma weight_pos_is ts K :
  is_ (hd eofToken ts) K = true -> K <> tok.eof -> 0 < weight ts.
Proof. intros H. apply weight_pos_kind. apply is_true_iff. exact H. Qed.

Lemma weight_pos_startsWith c ts :
  startsWithChar c (hd eofToken ts) = true -> 0 < weight ts.
Proof.
  destruct ts as [|T ts]; cbn.
  - unfold startsWithChar. cbn. rewrite andb_false_r. discriminate.
  - intros _. rewrite weight_cons. unfold tokWeight. lia.
Qed.

Lemma is_hd_nonempty ts K : K <> tok.eof -> is_ (hd eofToken ts) K = true -> ts <> [].
Proof.
  intros HK H ->. cbn in H. apply is_true_iff in H. cbn in H. congruence.
Qed.

(** With enough budget for the input left, [parseTypeArray] returns, and
    it does not put input back. *)
Lemma parseTypeArray_total :
  ExprBounded C ->
  forall n Base P, weight (Toks P) < n ->
    exists r P', parseTypeArray n Base P = Some (r, P') /\
                 weight (Toks P') <= weight (Toks P).
Proof.
  intros HE. induction n as [|n IH]; intros Base P Hn; [lia|].
  rewrite parseTypeArray_S. cbn.
  assert (Htl := weight_tl (Toks P)).
  destruct (is_ (hd eofToken (tl (Toks P))) tok.r_square) eqn:Hr; cbn.
  - assert (Hne : tl (Toks P) <> [])
      by (eapply is_hd_nonempty; [|exact Hr]; discriminate).
    apply weight_tl_lt in Hne.
    destruct (isFollowingLSquare (hd eofToken (tl (tl (Toks P))))).
    + destruct (IH Base (mkParser (tl (tl (Toks P))) (Diags P)))
        as (r & P' & E & Hw); [cbn; lia|].
      rewrite E. cbn in Hw. destruct r; cbn; eauto with arith.
      * eexists _, _. split; [reflexivity|]. lia.
      * eexists _, _. split; [reflexivity|]. lia.
    + cbn. eexists _, _. split; [reflexivity|]. cbn. lia.
  - specialize (HE diag.expected_expr_array_type (mkParser (tl (Toks P)) (Diags P))).
    destruct (parseExpr C _ _) as [[sz|] P2]; cbn in HE |- *.
    2:{ eexists _, _. split; [reflexivity|]. lia. }
    destruct (is_ (hd eofToken (Toks P2)) tok.r_square) eqn:Hr2; cbn.
    2:{ eexists _, _. split; [reflexivity|]. cbn. lia. }
    assert (Hne : Toks P2 <> [])
      by (eapply is_hd_nonempty; [|exact Hr2]; discriminate).
    apply weight_tl_lt in Hne.
    destruct (isFollowingLSquare (hd eofToken (tl (Toks P2)))).
    + destruct (IH Base (mkParser (tl (Toks P2)) (Diags P2)))
        as (r & P' & E & Hw); [cbn; lia|].
      rewrite E. cbn in Hw. destruct r; cbn.
      * eexists _, _. split; [reflexivity|]. cbn. lia.
      * eexists _, _. split; [reflexivity|]. lia.
    + cbn. eexists _, _. split; [reflexivity|]. cbn. lia.
Qed.

(** A bracket clause that is not closed at once never yields a node. *)
Lemma parseTypeArray_sized_None n Base P r P' :
  is_ (peekToken P) tok.r_square = false ->
  parseTypeArray n Base P = Some (r, P') -> r = None.
Proof.
  destruct n as [|n]; [discriminate|].
  rewrite parseTypeArray_S. cbn. intros ->. cbn.
  destruct (parseExpr C _ _) as [[sz|] P2]; cbn; [|congruence].
  destruct (is_ (hd eofToken (Toks P2)) tok.r_square); cbn; [|congruence].
  destruct (isFollowingLSquare _); cbn; [|congruence].
  destruct (parseTypeArray n Base _) as [[[b|] P3]|]; cbn; congruence.
Qed.

Lemma sizesParse_S n P :
  sizesParse C (S n) P =
  let P1 := setToks P (tl (Toks P)) in
  if is_ (Tok P1) tok.r_square then
    let P2 := setToks P1 (tl (Toks P1)) in
    if isFollowingLSquare (Tok P2) then sizesParse C n P2 else true
  else
    match parseExpr C diag.expected_expr_array_type P1 with
    | (None, _) => false
    | (Some _, P2) =>
        if is_ (Tok P2) tok.r_square then
          let P3 := setToks P2 (tl (Toks P2)) in
          if isFollowingLSquare (Tok P3) then sizesParse C n P3 else true
        else false
    end.
Proof. reflexivity. Qed.

Lemma hasSizedClause_slice l r rest :
  is_ r tok.r_square = true ->
  hasSizedClause (l :: r :: rest)
  = isFollowingLSquare (hd eofToken rest) && hasSizedClause rest.
Proof. intros H. cbn. rewrite H. reflexivity. Qed.

(** Slice clauses only: a node, no diagnostic. *)
Lemma parseTypeArray_slices_only n :
  forall Base P,
    hasSizedClause (Toks P) = false ->
    weight (Toks P) < n ->
    exists node P',
      parseTypeArray n Base P = Some (Some node, P') /\
      Diags P' = Diags P /\ sizesParse C n P = true.
Proof.
  induction n as [|n IH]; intros Base P Hs Hn; [lia|].
  destruct P as [[|l [|r rest]] ds]; try discriminate Hs.
  cbn [Toks] in Hs, Hn.
  destruct (is_ r tok.r_square) eqn:Hr;
    [|cbn in Hs; rewrite Hr in Hs; discriminate Hs].
  rewrite hasSizedClause_slice in Hs by exact Hr.
  rewrite parseTypeArray_S, sizesParse_S. cbn. rewrite Hr. cbn.
  destruct (isFollowingLSquare (hd eofToken rest)) eqn:Hf; cbn in Hs |- *.
  - destruct (IH Base (mkParser rest ds) Hs) as (node & P' & E & Hd & Hp).
    { cbn. rewrite !weight_cons in Hn. unfold tokWeight in Hn. lia. }
    rewrite E. cbn. eauto 10.
  - eauto 10.
Qed.

(** The clauses hold a size: nothing is returned; the last diagnostic is
    the unsupported one when every size parses and is closed, and the
    parse stops at the first size that does not. *)
Lemma parseTypeArray_sized_suffix :
  ExprBounded C ->
  forall n Base P,
    hasSizedClause (Toks P) = true ->
    weight (Toks P) < n ->
    exists P',
      parseTypeArray n Base P = Some (None, P') /\
      (sizesParse C n P = true ->
       exists ds l sizeEx,
         Diags P' = ds ++ [mkDiag l diag.unsupported_fixed_length_array
                             (Some (getSourceRange sizeEx)) None]) /\
      (sizesParse C n P = false ->
       (exists Q, fst (parseExpr C diag.expected_expr_array_type Q) = None /\
                  P' = snd (parseExpr C diag.expected_expr_array_type Q)) \/
       (exists Q l,
           is_ (Tok Q) tok.r_square = false /\
           P' = mkParser (Toks Q)
                  (Diags Q ++
                   [mkDiag (getLoc (Tok Q)) diag.expected_rbracket_array_type
                      None None;
                    mkDiag l diag.opening_bracket None None]))).
Proof.
  intros HE. induction n as [|n IH]; intros Base P Hs Hn; [lia|].
  rewrite parseTypeArray_S, sizesParse_S. cbn.
  pose proof (weight_tl (Toks P)) as Htl.
  destruct (is_ (hd eofToken (tl (Toks P))) tok.r_square) eqn:Hr; cbn.
  - destruct P as [[|l [|r rest]] ds]; try discriminate Hr.
    cbn in Hr, Hn |- *. cbn [Toks] in Hs.
    rewrite hasSizedClause_slice in Hs by exact Hr.
    apply andb_true_iff in Hs. destruct Hs as [Hf Hs]. rewrite Hf.
    destruct (IH Base (mkParser rest ds) Hs) as (P' & E & H1 & H2).
    { cbn. rewrite !weight_cons in Hn. unfold tokWeight in Hn. lia. }
    rewrite E. cbn. exists P'. repeat split; assumption.
  - pose proof (HE diag.expected_expr_array_type
                  (mkParser (tl (Toks P)) (Diags P))) as Hw.
    destruct (parseExpr C diag.expected_expr_array_type
                (mkParser (tl (Toks P)) (Diags P))) as [[sz|] P2] eqn:Ex;
      cbn in Hw |- *.
    2:{ eexists. split; [reflexivity|]. split; [discriminate|].
        intros _. left. exists (mkParser (tl (Toks P)) (Diags P)).
        rewrite Ex. split; reflexivity. }
    destruct (is_ (hd eofToken (Toks P2)) tok.r_square) eqn:Hr2; cbn.
    2:{ eexists. split; [reflexivity|]. split; [discriminate|].
        intros _. right. exists P2, (getLoc (hd eofToken (Toks P))).
        split; [exact Hr2|]. cbn. rewrite <- app_assoc. reflexivity. }
    assert (Hlt : weight (tl (Toks P2)) < n).
    { assert (0 < weight (Toks P2))
        by (apply (weight_pos_is _ _ Hr2); discriminate).
      pose proof (weight_tl_pos (Toks P2)). lia. }
    destruct (isFollowingLSquare (hd eofToken (tl (Toks P2)))) eqn:Hf; cbn.
    2:{ eexists. split; [reflexivity|]. split; [|discriminate].
        intros _. cbn. eauto. }
    destruct (hasSizedClause (tl (Toks P2))) eqn:Hs2.
    + destruct (IH Base (mkParser (tl (Toks P2)) (Diags P2)) Hs2 Hlt)
        as (P' & E & H1 & H2).
      rewrite E. cbn. exists P'. repeat split; assumption.
    + destruct (parseTypeArray_slices_only n Base
                  (mkParser (tl (Toks P2)) (Diags P2)) Hs2 Hlt)
        as (node & P' & E & Hd & Hp).
      rewrite E. cbn. eexists. split; [reflexivity|].
      rewrite Hp. split; [|discriminate]. intros _. cbn. eauto.
Qed.


(** ** Type annotations *)

Lemma attributed_not_itself attrs ty :
  ty <> AttributedTypeRepr attrs (Some ty).
Proof.
  intros H. apply (f_equal attributedDepth) in H. cbn in H. lia.
Qed.

(** C3 (amended): [parseTypeAnnotation] does not look at the outcome of
    attribute parsing.  With no attribute collected it returns what the
    type parse returns, nothing included; when the type parse succeeds,
    its result is the type wrapped in [AttributedTypeRepr] if and only if
    at least one attribute was collected. *)
Theorem parseTypeAnnotation_wraps n message P err attrs P1 ty P2 :
  parseAttributeList C P = ((err, attrs), P1) ->
  parseType n message P1 = Some (ty, P2) ->
  exists r,
    parseTypeAnnotation (S n) message P = Some (r, P2) /\
    (attrs = [] -> r = ty) /\
    (forall t, ty = Some t ->
       (attrs <> [] <-> r = Some (AttributedTypeRepr attrs (Some t)))).
Proof.
  intros HA HT. rewrite parseTypeAnnotation_S. cbn. rewrite HA. cbn.
  rewrite HT. cbn.
  eexists. split; [reflexivity|]. split.
  - intros ->. reflexivity.
  - intros t ->. destruct attrs as [|a attrs]; cbn; split; try congruence.
    intros [= H]. exfalso. exact (attributed_not_itself _ _ H).
Qed.

(** ** The cursor only moves forward *)

Lemma startsWithChar_nonempty c P :
  startsWithChar c (Tok P) = true -> Toks P <> [].
Proof.
  intros H E. cbn in H. rewrite E in H. cbn in H.
  unfold startsWithChar in H. cbn in H. rewrite andb_false_r in H. discriminate.
Qed.

(** Consuming the leading character of an operator token that has one
    shortens the input and emits nothing. *)
Lemma consumeStartingCharacter_spec c P :
  startsWithChar c (Tok P) = true ->
  exists P', consumeStartingCharacter P = Some (getLoc (Tok P), P') /\
             Diags P' = Diags P /\
             weight (Toks P') < weight (Toks P).
Proof.
  intros H. assert (Hne := startsWithChar_nonempty _ _ H).
  unfold startsWithChar in H. apply andb_true_iff in H. destruct H as [_ H].
  unfold consumeStartingCharacter.
  destruct (Toks P) as [|T ts] eqn:E; [congruence|]. cbn in H |- *.
  rewrite E in H |- *. cbn in H |- *. destruct (Nat.eqb _ 1); cbn.
  - eexists. split; [reflexivity|]. cbn. split; [reflexivity|].
    rewrite weight_cons. unfold tokWeight. lia.
  - eexists. split; [reflexivity|]. cbn. split; [reflexivity|].
    rewrite !weight_cons. unfold tokWeight. cbn.
    revert H. destruct (getText T); cbn; intros H; [discriminate|lia].
Qed.

Lemma consumeStarting_inv c P L P' :
  startsWithChar c (Tok P) = true ->
  consumeStartingCharacter P = Some (L, P') ->
  L = getLoc (Tok P) /\ Diags P' = Diags P /\
  weight (Toks P') < weight (Toks P).
Proof.
  intros H. destruct (consumeStartingCharacter_spec _ _ H) as (P'' & E & H').
  rewrite E. intros [= <- <-]. tauto.
Qed.

Lemma skipLoop_S stop n P :
  skipLoop stop (S n) P =
  if stop P then Some (tt, P) else (skipSingleM ;; skipLoop stop n) P.
Proof. reflexivity. Qed.

Section Skipping.

Hypothesis skip_advances : SkipAdvances C.

Variable stop : Parser -> bool.
Hypothesis stop_at_eof : forall P, stop P = false -> is_ (Tok P) tok.eof = false.
Arguments stop_at_eof : clear implicits.

(** A skipping loop ends where its stop condition holds, having emitted
    nothing. *)
Lemma skipLoop_total n P :
  weight (Toks P) < n ->
  exists P', skipLoop stop n P = Some (tt, P') /\
             stop P' = true /\
             Diags P' = Diags P /\
             weight (Toks P') <= weight (Toks P).
Proof.
  revert P. induction n as [|n IH]; intros P Hn; [lia|].
  rewrite skipLoop_S. destruct (stop P) eqn:Hs.
  - exists P. split; [reflexivity|]. split; [exact Hs|].
    split; [reflexivity|lia].
  - assert (Ha := skip_advances (Toks P) (stop_at_eof P Hs)).
    destruct (IH (mkParser (skipSingle C (Toks P)) (Diags P)))
      as (P' & E & Hs' & Hd & Hw); [cbn; lia|].
    unfold skipSingleM. cbn. rewrite E.
    exists P'. cbn in Hd, Hw. repeat split; try assumption. lia.
Qed.

Lemma skipWhileNot_total P :
  exists P', skipWhileNot stop P = Some (tt, P') /\
             stop P' = true /\
             Diags P' = Diags P /\
             weight (Toks P') <= weight (Toks P).
Proof. unfold skipWhileNot. apply skipLoop_total. lia. Qed.

End Skipping.

Lemma skipUntilAnyOperator_total :
  SkipAdvances C ->
  forall P, exists P',
    skipUntilAnyOperator P = Some (tt, P') /\
    (is_ (Tok P') tok.eof || isAnyOperator (Tok P') = true) /\
    Diags P' = Diags P /\
    weight (Toks P') <= weight (Toks P).
Proof.
  intros HS P. unfold skipUntilAnyOperator.
  apply skipWhileNot_total with
    (stop := fun P => is_ (Tok P) tok.eof || isAnyOperator (Tok P)); [exact HS|].
  intros Q H. apply orb_false_iff in H. tauto.
Qed.

(** ** The prober emits nothing, only moves forward, and returns *)

Lemma weight_skipMetatypes ts : weight (skipMetatypes ts) <= weight ts.
Proof.
  enough (H : weight (skipMetatypes ts) <= weight ts /\
              forall T, weight (skipMetatypes (T :: ts)) <= weight (T :: ts))
    by apply H.
  induction ts as [|m rest [IH1 IH2]]; cbn.
  - split; [lia|]. intros T. lia.
  - split; [apply IH2|]. intros T.
    destruct ((is_ T tok.period || is_ T tok.period_prefix) && is_ m tok.kw_metatype).
    + rewrite !weight_cons. lia.
    + lia.
Qed.

Lemma weight_skipQuestions ts : weight (skipQuestions ts) <= weight ts.
Proof.
  induction ts as [|q rest IH]; cbn; [lia|].
  destruct (negb (isAtStartOfLine q) && is_ q tok.question).
  - rewrite weight_cons. lia.
  - lia.
Qed.

(** Case analysis on the innermost scrutinee of a stuck computation. *)
Ltac break_match_hyp H :=
  match type of H with
  | context [match ?x with _ => _ end] =>
      lazymatch x with
      | context [match _ with _ => _ end] => fail
      | _ => destruct x eqn:?
      end
  end.

Ltac run_hyp H :=
  repeat (cbn in H;
          first [ discriminate H
                | break_match_hyp H ]);
  cbn in H.

(** Arithmetic on what is left of the input: the facts about each tail
    that occurs, then [lia]. *)
Ltac weigh_facts :=
  repeat match goal with
         | |- context [weight (skipMetatypes ?x)] =>
             lazymatch goal with
             | _ : weight (skipMetatypes x) <= weight x |- _ => fail
             | _ => pose proof (weight_skipMetatypes x)
             end
         | _ : context [weight (skipMetatypes ?x)] |- _ =>
             lazymatch goal with
             | _ : weight (skipMetatypes x) <= weight x |- _ => fail
             | _ => pose proof (weight_skipMetatypes x)
             end
         | |- context [weight (skipQuestions ?x)] =>
             lazymatch goal with
             | _ : weight (skipQuestions x) <= weight x |- _ => fail
             | _ => pose proof (weight_skipQuestions x)
             end
         | _ : context [weight (skipQuestions ?x)] |- _ =>
             lazymatch goal with
             | _ : weight (skipQuestions x) <= weight x |- _ => fail
             | _ => pose proof (weight_skipQuestions x)
             end
         | |- context [weight (tl ?x)] =>
             lazymatch goal with
             | _ : weight (tl x) <= weight x |- _ => fail
             | _ => pose proof (weight_tl x); pose proof (@weight_tl_pos x)
             end
         | _ : context [weight (tl ?x)] |- _ =>
             lazymatch goal with
             | _ : weight (tl x) <= weight x |- _ => fail
             | _ => pose proof (weight_tl x); pose proof (@weight_tl_pos x)
             end
         end.

Ltac weigh := weigh_facts; lia.

Lemma advances_refl P : advances P P.
Proof. split; [reflexivity|lia]. Qed.

Lemma advances_trans P Q R : advances P Q -> advances Q R -> advances P R.
Proof. unfold advances. intros [? ?] [? ?]. split; [congruence|lia]. Qed.

Lemma advances_tl P : advances P (mkParser (tl (Toks P)) (Diags P)).
Proof. split; [reflexivity|apply weight_tl]. Qed.

Ltac finish_advances :=
  unfold advances in *; cbn in *;
  repeat match goal with H : _ /\ _ |- _ => destruct H end;
  split; [congruence | weigh].

Lemma canParseTypeArray_advances n P b P' :
  canParseTypeArray n P = Some (b, P') -> advances P P'.
Proof.
  revert P b P'. induction n as [|n IH]; intros P b P' H; [discriminate|].
  rewrite canParseTypeArray_S in H. run_hyp H.
  - apply IH in H. finish_advances.
  - injection H as <- <-. finish_advances.
  - injection H as <- <-. finish_advances.
Qed.

Section ProberAdvances.

Hypothesis skip_advances : SkipAdvances C.

Lemma skipWhileNot_advances stop P P' :
  (forall P, stop P = false -> is_ (Tok P) tok.eof = false) ->
  skipWhileNot stop P = Some (tt, P') -> advances P P'.
Proof.
  intros Hstop H.
  destruct (skipWhileNot_total skip_advances stop Hstop P) as (Q & E & _ & Hd & Hw).
  rewrite E in H. injection H as <-. split; assumption.
Qed.

Lemma canSkipAttributes_advances P b P' :
  canSkipAttributes P = Some (b, P') -> advances P P'.
Proof.
  unfold canSkipAttributes. intros H. run_hyp H.
  - destruct u. apply skipWhileNot_advances in Heqo.
    + injection H as <- <-. finish_advances.
    + intros Q HQ. rewrite !orb_false_iff in HQ. tauto.
  - destruct u. apply skipWhileNot_advances in Heqo.
    + injection H as <- <-. finish_advances.
    + intros Q HQ. rewrite !orb_false_iff in HQ. tauto.
  - injection H as <- <-. apply advances_refl.
Qed.

Lemma canSkipDefaultValue_advances P b P' :
  canSkipDefaultValue P = Some (b, P') -> advances P P'.
Proof.
  unfold canSkipDefaultValue. intros H. run_hyp H.
  - destruct b. apply skipWhileNot_advances in H.
    + finish_advances.
    + intros Q HQ. rewrite !orb_false_iff in HQ. tauto.
  - injection H as <- <-. apply advances_refl.
Qed.

Ltac prober_facts :=
  repeat match goal with
         | H : Some _ = Some _ |- _ => injection H as ? ?; subst
         | H : negb _ = false |- _ => apply negb_false_iff in H
         | H : negb _ = true |- _ => apply negb_true_iff in H
         | E : canParseTypeArray _ _ = Some _ |- _ =>
             apply canParseTypeArray_advances in E
         | E : canSkipAttributes _ = Some _ |- _ =>
             apply canSkipAttributes_advances in E
         | E : canSkipDefaultValue _ = Some _ |- _ =>
             apply canSkipDefaultValue_advances in E
         | E : consumeStartingLess ?Q = Some _,
           W : startsWithLess _ = true |- _ =>
             apply (@consumeStarting_inv "<"%char Q _ _ W) in E
         | E : consumeStartingGreater ?Q = Some _,
           W : startsWithGreater _ = true |- _ =>
             apply (@consumeStarting_inv ">"%char Q _ _ W) in E
         | IH : forall Q, _, E : _ = Some _ |- _ => apply IH in E
         end.

Ltac prober_case H := run_hyp H; prober_facts; finish_advances.

Lemma prober_advances n :
  (forall P b P', canParseType n P = Some (b, P') -> advances P P') /\
  (forall P b P', canParseGenericArguments n P = Some (b, P') -> advances P P') /\
  (forall P b P', canParseGenericArguments_list n P = Some (b, P') -> advances P P') /\
  (forall P b P', canParseTypeIdentifier n P = Some (b, P') -> advances P P') /\
  (forall P b P', canParseTypeIdentifier_loop n P = Some (b, P') -> advances P P') /\
  (forall P b P', canParseTypeComposition n P = Some (b, P') -> advances P P') /\
  (forall P b P', canParseTypeComposition_list n P = Some (b, P') -> advances P P') /\
  (forall P b P', canParseTypeTupleBody n P = Some (b, P') -> advances P P') /\
  (forall P b P', canParseTypeTupleBody_list n P = Some (b, P') -> advances P P').
Proof.
  induction n as [|n (IH1 & IH2 & IH3 & IH4 & IH5 & IH6 & IH7 & IH8 & IH9)];
    [repeat apply conj; intros; discriminate|].
  repeat apply conj; intros P b P' H.
  - rewrite canParseType_S in H. prober_case H.
  - rewrite canParseGenericArguments_S in H. prober_case H.
  - rewrite canParseGenericArguments_list_S in H. prober_case H.
  - rewrite canParseTypeIdentifier_S in H. prober_case H.
  - rewrite canParseTypeIdentifier_loop_S in H. prober_case H.
  - rewrite canParseTypeComposition_S in H. prober_case H.
  - rewrite canParseTypeComposition_list_S in H. prober_case H.
  - rewrite canParseTypeTupleBody_S in H. prober_case H.
  - rewrite canParseTypeTupleBody_list_S in H. prober_case H.
Qed.

(** ** The prober returns *)

(** Adds what the tests met so far say about the size of the input. *)
Ltac strictly :=
  repeat match goal with
         | H : _ && _ = true |- _ => apply andb_true_iff in H; destruct H
         | H : _ || _ = true |- _ => apply orb_true_iff in H; destruct H
         | H : negb _ = false |- _ => apply negb_false_iff in H
         | H : negb _ = true |- _ => apply negb_true_iff in H
         | H : is_ (hd eofToken ?ts) ?K = true |- _ =>
             lazymatch goal with
             | _ : 0 < weight ts |- _ => fail
             | _ => assert (0 < weight ts)
                      by (apply (weight_pos_is _ _ H); discriminate)
             end
         | H : getKind (hd eofToken ?ts) = ?K |- _ =>
             lazymatch goal with
             | _ : 0 < weight ts |- _ => fail
             | _ => assert (0 < weight ts)
                      by (apply (weight_pos_kind _ _ H); discriminate)
             end
         | H : startsWithLess (hd eofToken ?ts) = true |- _ =>
             lazymatch goal with
             | _ : 0 < weight ts |- _ => fail
             | _ => assert (0 < weight ts)
                      by (apply (weight_pos_startsWith _ _ H))
             end
         | H : startsWithGreater (hd eofToken ?ts) = true |- _ =>
             lazymatch goal with
             | _ : 0 < weight ts |- _ => fail
             | _ => assert (0 < weight ts)
                      by (apply (weight_pos_startsWith _ _ H))
             end
         end.

Lemma canParseTypeArray_total n P :
  weight (Toks P) < n -> exists b P', canParseTypeArray n P = Some (b, P').
Proof.
  revert P. induction n as [|n IH]; intros P Hn; [lia|].
  rewrite canParseTypeArray_S. cbn.
  destruct (is_ (hd eofToken (tl (Toks P))) tok.r_square) eqn:Hr; cbn; [|eauto].
  destruct (isFollowingLSquare _); cbn; [|eauto].
  apply IH. cbn. strictly. weigh.
Qed.

Lemma canSkipAttributes_total P :
  exists b P', canSkipAttributes P = Some (b, P').
Proof.
  unfold canSkipAttributes. cbn.
  destruct (is_ (hd eofToken (Toks P)) tok.l_square); cbn; [|eauto].
  match goal with
  | |- context [skipWhileNot ?stop ?Q] =>
      destruct (skipWhileNot_total skip_advances stop) with (P := Q)
        as (Q' & E & _)
  end.
  - intros Q HQ. rewrite !orb_false_iff in HQ. tauto.
  - rewrite E. cbn. destruct (is_ _ tok.r_square); eauto.
Qed.

Lemma canSkipDefaultValue_total P :
  exists P', canSkipDefaultValue P = Some (tt, P').
Proof.
  unfold canSkipDefaultValue. cbn.
  destruct (is_ (hd eofToken (Toks P)) tok.equal); cbn; [|eauto].
  match goal with
  | |- context [skipWhileNot ?stop ?Q] =>
      destruct (skipWhileNot_total skip_advances stop) with (P := Q)
        as (Q' & E & _)
  end.
  - intros Q HQ. rewrite !orb_false_iff in HQ. tauto.
  - rewrite E. eauto.
Qed.

Ltac bound :=
  unfold advances in *; cbn in *;
  repeat match goal with H : _ /\ _ |- _ => destruct H end;
  strictly; weigh.

Ltac call IH ADV Q :=
  let b := fresh "b" in
  let Q' := fresh "Q" in
  let E := fresh "E" in
  destruct (IH Q) as (b & Q' & E); [bound | rewrite E; apply ADV in E].

(** One step through the body of a prober function; [IH] and [ADV] are
    the conjunctions that [prober_total] and [prober_advances] state at
    the smaller budget. *)
Ltac total_step IH ADV :=
  cbn;
  match goal with
  | |- exists b P', Some _ = Some (b, P') => eexists _, _; reflexivity
  | |- exists b P', canParseType _ _ = Some (b, P') =>
      apply (proj1 IH); bound
  | |- exists b P', canParseGenericArguments _ _ = Some (b, P') =>
      apply (proj1 (proj2 IH)); bound
  | |- exists b P', canParseGenericArguments_list _ _ = Some (b, P') =>
      apply (proj1 (proj2 (proj2 IH))); bound
  | |- exists b P', canParseTypeIdentifier _ _ = Some (b, P') =>
      apply (proj1 (proj2 (proj2 (proj2 IH)))); bound
  | |- exists b P', canParseTypeIdentifier_loop _ _ = Some (b, P') =>
      apply (proj1 (proj2 (proj2 (proj2 (proj2 IH))))); bound
  | |- exists b P', canParseTypeComposition _ _ = Some (b, P') =>
      apply (proj1 (proj2 (proj2 (proj2 (proj2 (proj2 IH)))))); bound
  | |- exists b P', canParseTypeComposition_list _ _ = Some (b, P') =>
      apply (proj1 (proj2 (proj2 (proj2 (proj2 (proj2 (proj2 IH))))))); bound
  | |- exists b P', canParseTypeTupleBody _ _ = Some (b, P') =>
      apply (proj1 (proj2 (proj2 (proj2 (proj2 (proj2 (proj2 (proj2 IH)))))))); bound
  | |- exists b P', canParseTypeTupleBody_list _ _ = Some (b, P') =>
      apply (proj2 (proj2 (proj2 (proj2 (proj2 (proj2 (proj2 (proj2 IH)))))))); bound
  | |- exists b P', canParseTypeArray _ _ = Some (b, P') =>
      apply canParseTypeArray_total; bound
  | |- context [match ?x with _ => _ end] =>
      lazymatch x with
      | context [match _ with _ => _ end] => fail
      | canParseType _ ?Q => call (proj1 IH) (proj1 ADV) Q
      | canParseGenericArguments _ ?Q => call (proj1 (proj2 IH)) (proj1 (proj2 ADV)) Q
      | canParseGenericArguments_list _ ?Q => call (proj1 (proj2 (proj2 IH))) (proj1 (proj2 (proj2 ADV))) Q
      | canParseTypeIdentifier _ ?Q => call (proj1 (proj2 (proj2 (proj2 IH)))) (proj1 (proj2 (proj2 (proj2 ADV)))) Q
      | canParseTypeIdentifier_loop _ ?Q => call (proj1 (proj2 (proj2 (proj2 (proj2 IH))))) (proj1 (proj2 (proj2 (proj2 (proj2 ADV))))) Q
      | canParseTypeComposition _ ?Q => call (proj1 (proj2 (proj2 (proj2 (proj2 (proj2 IH)))))) (proj1 (proj2 (proj2 (proj2 (proj2 (proj2 ADV)))))) Q
      | canParseTypeComposition_list _ ?Q => call (proj1 (proj2 (proj2 (proj2 (proj2 (proj2 (proj2 IH))))))) (proj1 (proj2 (proj2 (proj2 (proj2 (proj2 (proj2 ADV))))))) Q
      | canParseTypeTupleBody _ ?Q => call (proj1 (proj2 (proj2 (proj2 (proj2 (proj2 (proj2 (proj2 IH)))))))) (proj1 (proj2 (proj2 (proj2 (proj2 (proj2 (proj2 (proj2 ADV)))))))) Q
      | canParseTypeTupleBody_list _ ?Q => call (proj2 (proj2 (proj2 (proj2 (proj2 (proj2 (proj2 (proj2 IH)))))))) (proj2 (proj2 (proj2 (proj2 (proj2 (proj2 (proj2 (proj2 ADV)))))))) Q
      | canSkipAttributes ?Q =>
          let E := fresh "E" in
          destruct (canSkipAttributes_total Q) as (? & ? & E);
          rewrite E; apply canSkipAttributes_advances in E
      | canSkipDefaultValue ?Q =>
          let E := fresh "E" in
          destruct (canSkipDefaultValue_total Q) as (? & E);
          rewrite E; apply canSkipDefaultValue_advances in E
      | consumeStartingLess ?Q =>
          let E := fresh "E" in
          strictly;
          match goal with
          | W : startsWithLess _ = true |- _ =>
              destruct (@consumeStartingCharacter_spec "<"%char Q W)
                as (? & E & ? & ?);
              change (consumeStartingLess Q) with (consumeStartingCharacter Q);
              rewrite E
          end
      | consumeStartingGreater ?Q =>
          let E := fresh "E" in
          strictly;
          match goal with
          | W : startsWithGreater _ = true |- _ =>
              destruct (@consumeStartingCharacter_spec ">"%char Q W)
                as (? & E & ? & ?);
              change (consumeStartingGreater Q) with (consumeStartingCharacter Q);
              rewrite E
          end
      | _ => destruct x eqn:?
      end
  end.

(** With a recursion budget that covers the input left, every function
    of the prober returns. *)
Lemma prober_total n :
  (forall P, 5 * weight (Toks P) + 3 <= n ->
             exists b P', canParseType n P = Some (b, P')) /\
  (forall P, 5 * weight (Toks P) + 1 <= n ->
             exists b P', canParseGenericArguments n P = Some (b, P')) /\
  (forall P, 5 * weight (Toks P) + 4 <= n ->
             exists b P', canParseGenericArguments_list n P = Some (b, P')) /\
  (forall P, 5 * weight (Toks P) + 2 <= n ->
             exists b P', canParseTypeIdentifier n P = Some (b, P')) /\
  (forall P, 5 * weight (Toks P) + 1 <= n ->
             exists b P', canParseTypeIdentifier_loop n P = Some (b, P')) /\
  (forall P, 5 * weight (Toks P) + 1 <= n ->
             exists b P', canParseTypeComposition n P = Some (b, P')) /\
  (forall P, 5 * weight (Toks P) + 3 <= n ->
             exists b P', canParseTypeComposition_list n P = Some (b, P')) /\
  (forall P, 5 * weight (Toks P) + 5 <= n ->
             exists b P', canParseTypeTupleBody n P = Some (b, P')) /\
  (forall P, 5 * weight (Toks P) + 4 <= n ->
             exists b P', canParseTypeTupleBody_list n P = Some (b, P')).
Proof.
  induction n as [|n IH]; [repeat apply conj; intros; lia|].
  assert (ADV := prober_advances n).
  repeat apply conj; intros P Hn.
  - rewrite canParseType_S. repeat total_step IH ADV.
  - rewrite canParseGenericArguments_S. repeat total_step IH ADV.
  - rewrite canParseGenericArguments_list_S. repeat total_step IH ADV.
  - rewrite canParseTypeIdentifier_S. repeat total_step IH ADV.
  - rewrite canParseTypeIdentifier_loop_S. repeat total_step IH ADV.
  - rewrite canParseTypeComposition_S. repeat total_step IH ADV.
  - rewrite canParseTypeComposition_list_S. repeat total_step IH ADV.
  - rewrite canParseTypeTupleBody_S. repeat total_step IH ADV.
  - rewrite canParseTypeTupleBody_list_S. repeat total_step IH ADV.
Qed.

End ProberAdvances.

(** ** The generic-argument lookahead *)

Lemma isGenericTypeDisambiguatingToken_spec T :
  isGenericTypeDisambiguatingToken T = true <->
  In (getKind T) [tok.r_paren; tok.r_square; tok.l_brace; tok.r_brace;
                  tok.period; tok.comma; tok.semi; tok.eof] \/
  (getKind T = tok.period_prefix /\ PrevChar T = ">"%char) \/
  ((getKind T = tok.l_paren \/ getKind T = tok.l_square) /\
   isAtStartOfLine T = false).
Proof.
  unfold isGenericTypeDisambiguatingToken. cbn [In].
  destruct (getKind T) eqn:K;
    try (split; [discriminate | intros [H|[[H _]|[[H|H] _]]];
                                 [ repeat (destruct H as [H|H]; try discriminate);
                                   contradiction
                                 | discriminate .. ]]);
    try (split; [intros _; left; tauto | reflexivity]).
  - rewrite negb_true_iff. split.
    + intros H. right. right. tauto.
    + intros [H|[[H _]|[_ H]]]; [|discriminate|exact H].
      repeat (destruct H as [H|H]; try discriminate). contradiction.
  - rewrite negb_true_iff. split.
    + intros H. right. right. tauto.
    + intros [H|[[H _]|[_ H]]]; [|discriminate|exact H].
      repeat (destruct H as [H|H]; try discriminate). contradiction.
  - rewrite Ascii.eqb_eq. split.
    + intros H. right. left. tauto.
    + intros [H|[[_ H]|[[H|H] _]]]; [|exact H|discriminate..].
      repeat (destruct H as [H|H]; try discriminate). contradiction.
Qed.

Lemma canParseAsGenericArgumentList_restores n P b P' :
  canParseAsGenericArgumentList n P = Some (b, P') -> P' = P.
Proof.
  unfold canParseAsGenericArgumentList, BacktrackingScope. cbn.
  destruct (negb (isAnyOperator _) || negb (String.eqb _ "<")); cbn.
  - congruence.
  - destruct (canParseGenericArguments n P) as [[[|] P1]|]; cbn; congruence.
Qed.

(** C5 (amended): the lookahead answers [true] exactly when the current
    token is the operator [<], the generic-argument grammar parses from
    it, and the token after the closing [>] is one of: [)], []], [{], [}],
    a period, a comma, a semicolon, the end of input, a prefix period
    whose preceding character is [>], or a [(] or [[] that does not start
    a line. *)
Theorem canParseAsGenericArgumentList_true n P :
  canParseAsGenericArgumentList n P = Some (true, P) <->
  isAnyOperator (Tok P) = true /\
  getText (Tok P) = "<"%string /\
  exists P1,
    canParseGenericArguments n P = Some (true, P1) /\
    (In (getKind (Tok P1))
        [tok.r_paren; tok.r_square; tok.l_brace; tok.r_brace;
         tok.period; tok.comma; tok.semi; tok.eof] \/
     (getKind (Tok P1) = tok.period_prefix /\ PrevChar (Tok P1) = ">"%char) \/
     ((getKind (Tok P1) = tok.l_paren \/ getKind (Tok P1) = tok.l_square) /\
      isAtStartOfLine (Tok P1) = false)).
Proof.
  unfold canParseAsGenericArgumentList, BacktrackingScope. cbn.
  destruct (isAnyOperator (hd eofToken (Toks P))) eqn:Ho; cbn.
  2:{ split; [discriminate|]. intros [H _]. discriminate. }
  destruct (String.eqb (getText (hd eofToken (Toks P))) "<") eqn:Ht; cbn.
  2:{ split; [discriminate|]. intros (_ & H & _).
      apply String.eqb_neq in Ht. contradiction. }
  apply String.eqb_eq in Ht.
  destruct (canParseGenericArguments n P) as [[[|] P1]|] eqn:E; cbn.
  - split.
    + intros [= H]. repeat split; try assumption. exists P1. split; [reflexivity|].
      apply isGenericTypeDisambiguatingToken_spec. exact H.
    + intros (_ & _ & P1' & [= <-] & H).
      apply isGenericTypeDisambiguatingToken_spec in H. cbn in H.
      rewrite H. reflexivity.
  - split; [discriminate|]. intros (_ & _ & P1' & H & _). discriminate.
  - split; [discriminate|]. intros (_ & _ & P1' & H & _). discriminate.
Qed.

(** C6: the lookahead is pure.  Whatever it answers, the parser it leaves
    is the parser it was given, and with a recursion budget of five per
    unit of input (and one) it does answer. *)
Theorem canParseAsGenericArgumentList_lookahead P :
  SkipAdvances C ->
  (forall n b P', canParseAsGenericArgumentList n P = Some (b, P') -> P' = P) /\
  (exists b, canParseAsGenericArgumentList (5 * weight (Toks P) + 1) P
             = Some (b, P)).
Proof.
  intros HS. split.
  - intros n b P'. apply canParseAsGenericArgumentList_restores.
  - destruct (prober_total HS (5 * weight (Toks P) + 1)) as (_ & H & _).
    destruct (H P) as (b & P1 & E); [lia|].
    revert E. generalize (5 * weight (Toks P) + 1). intros n E.
    unfold canParseAsGenericArgumentList, BacktrackingScope. cbn.
    destruct (negb (isAnyOperator _) || negb (String.eqb _ "<")); cbn.
    + eauto.
    + rewrite E. destruct b; cbn; eauto.
Qed.

(** ** The committed parser only moves forward *)

Section ParserForwards.

Hypothesis skip_advances : SkipAdvances C.
Hypothesis expr_bounded : ExprBounded C.
Hypothesis attr_bounded : AttrBounded C.

Lemma weight_parseMetatypes ty ts :
  weight (snd (parseMetatypes ty ts)) <= weight ts.
Proof.
  enough (H : forall ty,
             weight (snd (parseMetatypes ty ts)) <= weight ts /\
             forall T, weight (snd (parseMetatypes ty (T :: ts)))
                       <= weight (T :: ts))
    by apply H.
  clear ty. induction ts as [|m rest IH]; intros ty; cbn.
  - split; [lia|]. intros T. lia.
  - split; [apply IH|]. intros T.
    destruct ((is_ T tok.period || is_ T tok.period_prefix) && is_ m tok.kw_metatype).
    + rewrite !weight_cons.
      destruct (IH (MetaTypeTypeRepr ty (getLoc m))) as [H _]. lia.
    + cbn. lia.
Qed.

Lemma weight_parseOptionals ty ts :
  weight (snd (parseOptionals ty ts)) <= weight ts.
Proof.
  revert ty. induction ts as [|q rest IH]; intros ty; cbn; [lia|].
  destruct (is_ q tok.question && negb (isAtStartOfLine q)).
  - rewrite weight_cons. specialize (IH (OptionalTypeRepr ty (getLoc q))). lia.
  - cbn. lia.
Qed.

Lemma skipUntilAnyOperator_advances P P' :
  skipUntilAnyOperator P = Some (tt, P') -> advances P P'.
Proof.
  apply skipWhileNot_advances; [exact skip_advances|].
  intros Q H. apply orb_false_iff in H. tauto.
Qed.

Ltac parser_facts :=
  repeat match goal with
         | H : Some _ = Some _ |- _ => injection H as ? ?; subst
         | H : (_, _) = (_, _) |- _ => injection H as ? ?; subst
         | H : negb _ = false |- _ => apply negb_false_iff in H
         | H : negb _ = true |- _ => apply negb_true_iff in H
         | u : unit |- _ => destruct u
         | E : skipUntilAnyOperator _ = Some _ |- _ =>
             apply skipUntilAnyOperator_advances in E
         | E : parseExpr C ?D ?Q = (_, ?Q') |- _ =>
             assert (weight (Toks Q') <= weight (Toks Q))
               by (generalize (expr_bounded D Q); rewrite E; exact (fun H => H));
             clear E
         | E : parseAttributeList C ?Q = (_, ?Q') |- _ =>
             assert (weight (Toks Q') <= weight (Toks Q))
               by (generalize (attr_bounded Q); rewrite E; exact (fun H => H));
             clear E
         | E : parseMetatypes ?ty ?ts = (_, ?ts') |- _ =>
             assert (weight ts' <= weight ts)
               by (generalize (weight_parseMetatypes ty ts); rewrite E;
                   exact (fun H => H));
             clear E
         | E : parseOptionals ?ty ?ts = (_, ?ts') |- _ =>
             assert (weight ts' <= weight ts)
               by (generalize (weight_parseOptionals ty ts); rewrite E;
                   exact (fun H => H));
             clear E
         | E : consumeStartingLess ?Q = Some _,
           W : startsWithLess _ = true |- _ =>
             apply (@consumeStarting_inv "<"%char Q _ _ W) in E
         | E : consumeStartingGreater ?Q = Some _,
           W : startsWithGreater _ = true |- _ =>
             apply (@consumeStarting_inv ">"%char Q _ _ W) in E
         | IH : forall Q, _, E : _ = Some _ |- _ => apply IH in E; [|assumption..]
         end.

Ltac finish_forwards :=
  unfold advances in *; cbn in *;
  repeat match goal with H : _ /\ _ |- _ => destruct H end;
  weigh.

Ltac parser_case H := run_hyp H; parser_facts; finish_forwards.

Lemma parseTypeArray_forwards n Base P r P' :
  parseTypeArray n Base P = Some (r, P') ->
  weight (Toks P') <= weight (Toks P).
Proof.
  revert Base P r P'. induction n as [|n IH]; intros Base P r P' H; [discriminate|].
  rewrite parseTypeArray_S in H. parser_case H.
Qed.

Lemma parseList_elements_forwards {L} (callback : L -> M (bool * L)) RightK SepK :
  (forall l P r P', callback l P = Some (r, P') ->
                    weight (Toks P') <= weight (Toks P)) ->
  forall n Inv l P r P',
    parseList_elements n RightK SepK callback Inv l P = Some (r, P') ->
    weight (Toks P') <= weight (Toks P).
Proof.
  intros Hc. induction n as [|n IH]; intros Inv l P r P' H; [discriminate|].
  rewrite parseList_elements_S in H. parser_case H.
Qed.

Ltac parser_facts' :=
  parser_facts;
  repeat match goal with
         | E : parseTypeArray _ _ _ = Some _ |- _ =>
             apply parseTypeArray_forwards in E
         end.

Lemma parser_forwards n :
  (forall m P r P', parseType n m P = Some (r, P') ->
                    weight (Toks P') <= weight (Toks P)) /\
  (forall m P r P', parseTypeAnnotation n m P = Some (r, P') ->
                    weight (Toks P') <= weight (Toks P)) /\
  (forall P r P', parseGenericArguments n P = Some (r, P') ->
                  startsWithLess (Tok P) = true ->
                  weight (Toks P') < weight (Toks P)) /\
  (forall A P r P', parseGenericArguments_list n A P = Some (r, P') ->
                    weight (Toks P') <= weight (Toks P)) /\
  (forall P r P', parseTypeIdentifier n P = Some (r, P') ->
                  weight (Toks P') <= weight (Toks P)) /\
  (forall A P r P', parseTypeIdentifier_loop n A P = Some (r, P') ->
                    weight (Toks P') <= weight (Toks P)) /\
  (forall P r P', parseTypeComposition n P = Some (r, P') ->
                  weight (Toks P') <= weight (Toks P)) /\
  (forall A P r P', parseTypeComposition_list n A P = Some (r, P') ->
                    weight (Toks P') <= weight (Toks P)) /\
  (forall P r P', parseTypeTupleBody n P = Some (r, P') ->
                  weight (Toks P') <= weight (Toks P)) /\
  (forall l P r P', parseTypeTupleBody_element n l P = Some (r, P') ->
                    weight (Toks P') <= weight (Toks P)).
Proof.
  induction n as [|n (IH1 & IH2 & IH3 & IH4 & IH5 & IH6 & IH7 & IH8 & IH9 & IH10)];
    [repeat apply conj; intros; discriminate|].
  repeat apply conj.
  - intros m P r P' H. rewrite parseType_S in H.
    run_hyp H; parser_facts'; finish_forwards.
  - intros m P r P' H. rewrite parseTypeAnnotation_S in H.
    run_hyp H; parser_facts'; finish_forwards.
  - intros P r P' H W. rewrite parseGenericArguments_S in H.
    run_hyp H; parser_facts'; finish_forwards.
  - intros A P r P' H. rewrite parseGenericArguments_list_S in H.
    run_hyp H; parser_facts'; finish_forwards.
  - intros P r P' H. rewrite parseTypeIdentifier_S in H.
    run_hyp H; parser_facts'; finish_forwards.
  - intros A P r P' H. rewrite parseTypeIdentifier_loop_S in H.
    run_hyp H; parser_facts'; finish_forwards.
  - intros P r P' H. rewrite parseTypeComposition_S in H.
    run_hyp H; parser_facts'; finish_forwards.
  - intros A P r P' H. rewrite parseTypeComposition_list_S in H.
    run_hyp H; parser_facts'; finish_forwards.
  - intros P r P' H. rewrite parseTypeTupleBody_S in H.
    run_hyp H;
      repeat match goal with
             | E : parseList_elements _ _ _ _ _ _ _ = Some _ |- _ =>
                 eapply parseList_elements_forwards in E; [|exact IH10]
             end;
      parser_facts'; finish_forwards.
  - intros l P r P' H. rewrite parseTypeTupleBody_element_S in H.
    run_hyp H; parser_facts'; finish_forwards.
Qed.

End ParserForwards.

(** ** Recovery after a missing [>] *)

Lemma weight_lt_neq P P' :
  weight (Toks P') < weight (Toks P) -> Toks P' <> Toks P.
Proof. intros H E. rewrite E in H. lia. Qed.

(** C10: a failing [parseGenericArguments] does not put the cursor back.
    Whether an argument type failed to parse or the closing [>] is
    missing (which it diagnoses, with a note at the opening [<]), it skips
    to the next operator token or the end of input, consumes that token's
    leading [>] if it has one, and returns its error flag with the cursor
    there, strictly after where it started. *)
Theorem parseGenericArguments_failure_keeps_cursor n P Args LAngleLoc RAngleLoc P' :
  SkipAdvances C -> ExprBounded C -> AttrBounded C ->
  startsWithLess (Tok P) = true ->
  parseGenericArguments (S n) P = Some (true, Args, LAngleLoc, RAngleLoc, P') ->
  exists P1 P2 P3,
    consumeStartingLess P = Some (LAngleLoc, P1) /\
    ((parseGenericArguments_list n [] P1 = Some (true, Args, P2) /\
      skipUntilAnyOperator P2 = Some (tt, P3))
     \/
     (parseGenericArguments_list n [] P1 = Some (false, Args, P2) /\
      startsWithGreater (Tok P2) = false /\
      skipUntilAnyOperator
        (mkParser (Toks P2)
           (Diags P2 ++
            [mkDiag (getLoc (Tok P2)) diag.expected_rangle_generic_arg_list
               None None;
             mkDiag LAngleLoc diag.opening_angle None None]))
      = Some (tt, P3))) /\
    (is_ (Tok P3) tok.eof || isAnyOperator (Tok P3) = true) /\
    (startsWithGreater (Tok P3) = true ->
     exists L, consumeStartingGreater P3 = Some (L, P')) /\
    (startsWithGreater (Tok P3) = false -> P' = P3) /\
    weight (Toks P') < weight (Toks P) /\
    Toks P' <> Toks P.
Proof.
  intros HS HE HA W H.
  assert (Hw : weight (Toks P') < weight (Toks P)).
  { destruct (parser_forwards HS HE HA (S n)) as (_ & _ & F & _).
    exact (F _ _ _ H W). }
  rewrite parseGenericArguments_S in H. cbn in H.
  destruct (consumeStartingLess P) as [[L P1]|] eqn:E1; cbn in H; [|discriminate].
  destruct (parseGenericArguments_list n [] P1) as [[[failed A] P2]|] eqn:E2;
    cbn in H; [|discriminate].
  destruct failed; cbn in H.
  - destruct (skipUntilAnyOperator P2) as [[[] P3]|] eqn:E3; cbn in H; [|discriminate].
    destruct (skipUntilAnyOperator_total HS P2) as (Q & EQ & Hstop & _).
    rewrite E3 in EQ. injection EQ as <-.
    exists P1, P2, P3.
    destruct (startsWithGreater (hd eofToken (Toks P3))) eqn:G; cbn in H.
    + destruct (consumeStartingGreater P3) as [[L' P4]|] eqn:E4; cbn in H;
        [|discriminate].
      injection H as <- <- <- <-.
      split; [reflexivity|]. split; [left; split; assumption|].
      split; [exact Hstop|]. split; [intros _; eauto|].
      split; [cbn; congruence|]. split; [exact Hw|exact (weight_lt_neq _ _ Hw)].
    + injection H as <- <- <- <-.
      split; [reflexivity|]. split; [left; split; assumption|].
      split; [exact Hstop|]. split; [cbn; congruence|].
      split; [reflexivity|]. split; [exact Hw|exact (weight_lt_neq _ _ Hw)].
  - destruct (startsWithGreater (hd eofToken (Toks P2))) eqn:G2; cbn in H.
    { destruct (consumeStartingGreater P2) as [[L' P4]|]; cbn in H; discriminate. }
    rewrite <- app_assoc in H. cbn [app] in H.
    match type of H with
    | context [skipUntilAnyOperator ?Q] =>
        destruct (skipUntilAnyOperator Q) as [[[] P3]|] eqn:E3; cbn in H;
          [|discriminate];
        destruct (skipUntilAnyOperator_total HS Q) as (Q' & EQ & Hstop & _)
    end.
    rewrite E3 in EQ. injection EQ as <-.
    exists P1, P2, P3.
    destruct (startsWithGreater (hd eofToken (Toks P3))) eqn:G; cbn in H.
    + destruct (consumeStartingGreater P3) as [[L' P4]|] eqn:E4; cbn in H;
        [|discriminate].
      injection H as <- <- <- <-.
      split; [reflexivity|].
      split; [right; split; [assumption|split; assumption]|].
      split; [exact Hstop|]. split; [intros _; eauto|].
      split; [cbn; congruence|]. split; [exact Hw|exact (weight_lt_neq _ _ Hw)].
    + injection H as <- <- <- <-.
      split; [reflexivity|].
      split; [right; split; [assumption|split; assumption]|].
      split; [exact Hstop|]. split; [cbn; congruence|].
      split; [reflexivity|]. split; [exact Hw|exact (weight_lt_neq _ _ Hw)].
Qed.


(** ** Variadic tuples *)

Lemma parseList_elements_invariant {L} (I : L -> Prop)
    (callback : L -> M (bool * L)) RightK SepK :
  (forall l P r l' P', callback l P = Some (r, l', P') -> I l -> I l') ->
  forall n Inv l P r l' P',
    parseList_elements n RightK SepK callback Inv l P = Some (r, l', P') ->
    I l -> I l'.
Proof.
  intros Hc. induction n as [|n IH]; intros Inv l P r l' P' H Hl; [discriminate|].
  rewrite parseList_elements_S in H. cbn in H.
  destruct (callback l P) as [[[err l1] P1]|] eqn:E; cbn in H; [|discriminate].
  apply Hc in E; [|exact Hl].
  destruct (is_ (hd eofToken (Toks P1)) RightK); cbn in H.
  - injection H as <- <- <-. exact E.
  - destruct (is_ (hd eofToken (Toks P1)) SepK); cbn in H.
    + eapply IH; eassumption.
    + injection H as <- <- <-. exact E.
Qed.

(** The element callback sets the variadic flag only after it pushed the
    element. *)
Lemma parseTypeTupleBody_element_invariant n l P r l' P' :
  parseTypeTupleBody_element n l P = Some (r, l', P') ->
  ellipsisAfterElement l -> ellipsisAfterElement l'.
Proof.
  destruct n as [|n]; [discriminate|].
  rewrite parseTypeTupleBody_element_S. unfold ellipsisAfterElement.
  intros H Hl. run_hyp H;
    repeat match goal with
           | H : Some _ = Some _ |- _ => injection H as ? ? ?; subst
           end;
    cbn; try assumption; try discriminate;
    intros _ E; apply app_eq_nil in E; destruct E; discriminate.
Qed.

(** The test of lines 332-335 never fires: [parseTypeTupleBody] returns a
    tuple node whenever it returns. *)
Lemma parseTypeTupleBody_returns_node n P r P' :
  parseTypeTupleBody n P = Some (r, P') ->
  exists Elements Parens Ellipsis,
    r = Some (TupleTypeRepr Elements Parens Ellipsis).
Proof.
  destruct n as [|n]; [discriminate|].
  rewrite parseTypeTupleBody_S. cbn. intros H.
  assert (I0 : ellipsisAfterElement (mkTupleLocals [] false None false))
    by (intros H0; discriminate H0).
  unfold parseList in H. cbn in H.
  destruct (is_ (hd eofToken (tl (Toks P))) tok.r_paren); cbn in H.
  - injection H as <- <-. eauto 10.
  - destruct (parseList_elements n tok.r_paren tok.comma
                (parseTypeTupleBody_element n) false _ _)
      as [[[Inv l] P1]|] eqn:E; cbn in H; [|discriminate].
    apply (parseList_elements_invariant ellipsisAfterElement _ _ _
             (parseTypeTupleBody_element_invariant n)) in E; [|exact I0].
    assert (HadEllipsis l && isEmpty (ElementsR l) = false) as Hno.
    { destruct (HadEllipsis l) eqn:Hh; [|reflexivity].
      specialize (E Hh). destruct (ElementsR l); [contradiction|reflexivity]. }
    destruct (is_ (hd eofToken (Toks P1)) tok.r_paren); cbn in H;
      rewrite Hno in H; cbn in H; injection H as <- <-; eauto 10.
Qed.

(** ** What the committed parser emits *)

Lemma extends_refl ds : extends ds ds.
Proof. exists []. rewrite app_nil_r. reflexivity. Qed.

Lemma extends_trans a b c : extends a b -> extends b c -> extends a c.
Proof.
  intros [x ->] [y ->]. exists (x ++ y). rewrite app_assoc. reflexivity.
Qed.

Lemma extends_app a b c : extends a b -> extends a (b ++ c).
Proof. intros [x ->]. exists (x ++ c). rewrite app_assoc. reflexivity. Qed.

Lemma extends_length a b : extends a b -> List.length a <= List.length b.
Proof. intros [x ->]. rewrite length_app. lia. Qed.

Lemma extends_same_length a b :
  extends a b -> List.length b <= List.length a -> b = a.
Proof.
  intros [x ->]. rewrite length_app. intros H.
  destruct x; cbn in H; [apply app_nil_r|lia].
Qed.

Lemma skipLoop_diags stop n P P' :
  skipLoop stop n P = Some (tt, P') -> Diags P' = Diags P.
Proof.
  revert P. induction n as [|n IH]; intros P; [discriminate|].
  rewrite skipLoop_S. destruct (stop P).
  - intros [= <-]. reflexivity.
  - cbn. intros H. apply IH in H. exact H.
Qed.

Lemma skipUntilAnyOperator_diags P P' :
  skipUntilAnyOperator P = Some (tt, P') -> Diags P' = Diags P.
Proof. apply skipLoop_diags. Qed.

Lemma consumeStartingCharacter_diags P L P' :
  consumeStartingCharacter P = Some (L, P') -> Diags P' = Diags P.
Proof.
  unfold consumeStartingCharacter. destruct (Nat.eqb _ 1); cbn;
    intros [= <- <-]; reflexivity.
Qed.

Section ParserEmits.

Hypothesis expr_diagnoses : ExprDiagnoses C.
Hypothesis attr_appends : AttrAppends C.

(** Solves [extends (Diags P) X] along the chain of the runs met. *)
Ltac chain :=
  repeat first
    [ apply extends_refl
    | assumption
    | apply extends_app
    | match goal with
      | H : extends ?b ?c |- extends ?a ?c =>
          apply (extends_trans a b c); [|exact H]
      end ].

Ltac lengths :=
  repeat match goal with
         | H : extends ?a ?b |- _ =>
             lazymatch goal with
             | _ : List.length a <= List.length b |- _ => fail
             | _ => pose proof (extends_length a b H)
             end
         end;
  rewrite ?length_app in *; cbn [List.length] in *; lia.

Ltac emit_facts :=
  repeat match goal with
         | H : option_map _ ?o = _ |- _ =>
             destruct o; cbn in H; [|try discriminate H]; try discriminate H
         | H : Some _ = Some _ |- _ => injection H as ? ?; subst
         | H : (_, _) = (_, _) |- _ => injection H as ? ?; subst
         | H : negb _ = false |- _ => apply negb_false_iff in H
         | H : negb _ = true |- _ => apply negb_true_iff in H
         | u : unit |- _ => destruct u
         | E : skipUntilAnyOperator _ = Some _ |- _ =>
             apply skipUntilAnyOperator_diags in E
         | E : consumeStartingLess _ = Some _ |- _ =>
             apply consumeStartingCharacter_diags in E
         | E : consumeStartingGreater _ = Some _ |- _ =>
             apply consumeStartingCharacter_diags in E
         | E : parseExpr C ?D ?Q = (?e, ?Q') |- _ =>
             let H := fresh "H" in
             assert (H := expr_diagnoses D Q); rewrite E in H; cbn in H;
             destruct H; clear E
         | E : parseAttributeList C ?Q = (_, ?Q') |- _ =>
             let H := fresh "H" in
             assert (H := attr_appends Q); rewrite E in H; cbn in H; clear E
         | H : emits _ _ _ |- _ => destruct H
         | H : true = true -> _ |- _ => specialize (H eq_refl)
         | H : false = true -> _ |- _ => clear H
         | H : None = None -> _ |- _ => specialize (H eq_refl)
         | H : Some _ = None -> _ |- _ => clear H
         | IH : forall Q, _, E : _ = Some _ |- _ => apply IH in E
         end.

Ltac finish_emits :=
  unfold emits in *; cbn in *;
  repeat match goal with
         | H : Diags ?Q = ?X |- _ =>
             assert (extends X (Diags Q)) by (rewrite H; apply extends_refl);
             apply (f_equal (@List.length _)) in H
         end;
  split;
  [ chain
  | let Hf := fresh "Hf" in
    intros Hf; try discriminate Hf;
    repeat match goal with
           | H : ?c = true -> _ |- _ => specialize (H Hf)
           end;
    lengths ].

Lemma parseTypeArray_emits n Base P r P' :
  parseTypeArray n Base P = Some (r, P') -> emits (isNone r) P P'.
Proof.
  revert Base P r P'. induction n as [|n IH]; intros Base P r P' H; [discriminate|].
  rewrite parseTypeArray_S in H. run_hyp H; emit_facts; finish_emits.
Qed.

Lemma parseList_elements_emits {L} (callback : L -> M (bool * L)) RightK SepK :
  (forall l P r P', callback l P = Some (r, P') -> emits false P P') ->
  forall n Inv l P r P',
    parseList_elements n RightK SepK callback Inv l P = Some (r, P') ->
    emits false P P'.
Proof.
  intros Hc. induction n as [|n IH]; intros Inv l P r P' H; [discriminate|].
  rewrite parseList_elements_S in H. run_hyp H; emit_facts; finish_emits.
Qed.

Ltac emit_facts' IH10 :=
  repeat match goal with
         | E : parseTypeTupleBody _ _ = Some (None, _) |- _ =>
             apply parseTypeTupleBody_returns_node in E;
             destruct E as (? & ? & ? & E); discriminate E
         | E : parseTypeArray _ _ _ = Some _ |- _ =>
             apply parseTypeArray_emits in E
         | E : parseList_elements _ _ _ _ _ _ _ = Some _ |- _ =>
             eapply parseList_elements_emits in E; [|exact IH10]
         end;
  emit_facts.

(** Every function of the committed parser only adds diagnostics, and
    adds at least one when it fails. *)
Lemma parser_emits n :
  (forall m P r P', parseType n m P = Some (r, P') -> emits (isNone r) P P') /\
  (forall m P r P', parseTypeAnnotation n m P = Some (r, P') -> emits false P P') /\
  (forall P e A L R P', parseGenericArguments n P = Some (e, A, L, R, P') ->
                        emits e P P') /\
  (forall A P e A' P', parseGenericArguments_list n A P = Some (e, A', P') ->
                       emits e P P') /\
  (forall P r P', parseTypeIdentifier n P = Some (r, P') ->
                  emits (isNone r) P P') /\
  (forall A P r P', parseTypeIdentifier_loop n A P = Some (r, P') ->
                    emits (isNone r) P P') /\
  (forall P r P', parseTypeComposition n P = Some (r, P') ->
                  emits (isNone r) P P') /\
  (forall A P e A' P', parseTypeComposition_list n A P = Some (e, A', P') ->
                       emits e P P') /\
  (forall P r P', parseTypeTupleBody n P = Some (r, P') -> emits false P P') /\
  (forall l P r P', parseTypeTupleBody_element n l P = Some (r, P') ->
                    emits false P P').
Proof.
  induction n as [|n (IH1 & IH2 & IH3 & IH4 & IH5 & IH6 & IH7 & IH8 & IH9 & IH10)];
    [repeat apply conj; intros; discriminate|].
  repeat apply conj.
  - intros m P r P' H. rewrite parseType_S in H.
    run_hyp H; emit_facts' IH10; finish_emits.
  - intros m P r P' H. rewrite parseTypeAnnotation_S in H.
    run_hyp H; emit_facts' IH10; finish_emits.
  - intros P e A L R P' H. rewrite parseGenericArguments_S in H.
    run_hyp H; emit_facts' IH10; finish_emits.
  - intros A P e A' P' H. rewrite parseGenericArguments_list_S in H.
    run_hyp H; emit_facts' IH10; finish_emits.
  - intros P r P' H. rewrite parseTypeIdentifier_S in H.
    run_hyp H; emit_facts' IH10; finish_emits.
  - intros A P r P' H. rewrite parseTypeIdentifier_loop_S in H.
    run_hyp H; emit_facts' IH10; finish_emits.
  - intros P r P' H. rewrite parseTypeComposition_S in H.
    run_hyp H; emit_facts' IH10; finish_emits.
  - intros A P e A' P' H. rewrite parseTypeComposition_list_S in H.
    run_hyp H; emit_facts' IH10; finish_emits.
  - intros P r P' H. rewrite parseTypeTupleBody_S in H.
    run_hyp H; emit_facts' IH10; finish_emits.
  - intros l P r P' H. rewrite parseTypeTupleBody_element_S in H.
    run_hyp H; emit_facts' IH10; finish_emits.
Qed.

End ParserEmits.

(** ** The prober and the committed parser on input without parentheses *)

Lemma noParen_cons T ts :
  noParen (T :: ts) = isNot T tok.l_paren && noParen ts.
Proof. reflexivity. Qed.

Lemma noParen_tl ts : noParen ts = true -> noParen (tl ts) = true.
Proof.
  destruct ts as [|T ts]; cbn [tl]; [trivial|]. rewrite noParen_cons. intros H.
  apply andb_true_iff in H. tauto.
Qed.

Lemma noParen_hd ts : noParen ts = true -> getKind (hd eofToken ts) <> tok.l_paren.
Proof.
  destruct ts as [|T ts]; cbn [hd]; [discriminate|]. rewrite noParen_cons.
  intros H. apply andb_true_iff in H. destruct H as [H _].
  apply negb_true_iff, is_false_iff in H. exact H.
Qed.

Lemma noParen_skipMetatypes ts :
  noParen ts = true -> noParen (skipMetatypes ts) = true.
Proof.
  enough (H : (noParen ts = true -> noParen (skipMetatypes ts) = true) /\
              forall T, noParen (T :: ts) = true ->
                        noParen (skipMetatypes (T :: ts)) = true)
    by apply H.
  induction ts as [|m rest [IH1 IH2]]; cbn [skipMetatypes].
  - split; trivial.
  - split; [apply IH2|]. intros T H.
    destruct ((is_ T tok.period || is_ T tok.period_prefix) && is_ m tok.kw_metatype);
      [|exact H].
    apply IH1. apply noParen_tl in H. apply noParen_tl in H. exact H.
Qed.

Lemma noParen_skipQuestions ts :
  noParen ts = true -> noParen (skipQuestions ts) = true.
Proof.
  induction ts as [|q rest IH]; cbn [skipQuestions]; [trivial|]. intros H.
  destruct (negb (isAtStartOfLine q) && is_ q tok.question); [|exact H].
  apply IH. apply noParen_tl in H. exact H.
Qed.

Lemma noParen_consumeStartingCharacter P L P' :
  consumeStartingCharacter P = Some (L, P') ->
  noParen (Toks P) = true -> noParen (Toks P') = true.
Proof.
  unfold consumeStartingCharacter. destruct (Nat.eqb _ 1); cbn;
    intros [= <- <-] H; cbn.
  - apply noParen_tl. exact H.
  - rewrite noParen_cons, (noParen_tl _ H), andb_true_r.
    apply negb_true_iff, is_false_iff. cbn. apply noParen_hd. exact H.
Qed.

Lemma parseMetatypes_cursor ty ts :
  snd (parseMetatypes ty ts) = skipMetatypes ts.
Proof.
  enough (H : forall ty,
             snd (parseMetatypes ty ts) = skipMetatypes ts /\
             forall T, snd (parseMetatypes ty (T :: ts)) = skipMetatypes (T :: ts))
    by apply H.
  clear ty. induction ts as [|m rest IH]; intros ty; cbn.
  - split; reflexivity.
  - split; [apply IH|]. intros T.
    destruct ((is_ T tok.period || is_ T tok.period_prefix) && is_ m tok.kw_metatype);
      [apply IH|reflexivity].
Qed.

Lemma parseOptionals_cursor ty ts :
  snd (parseOptionals ty ts) = skipQuestions ts.
Proof.
  revert ty. induction ts as [|q rest IH]; intros ty; cbn; [reflexivity|].
  rewrite andb_comm.
  destruct (negb (isAtStartOfLine q) && is_ q tok.question);
    [apply IH|reflexivity].
Qed.

(** The two array productions agree: the prober accepts the bracket
    clauses exactly when the parser builds an array from them, and the
    parser then emits nothing. *)
Lemma array_agree n Base P P' :
  canParseTypeArray n P = Some (true, P') <->
  exists r, parseTypeArray n Base P = Some (Some r, P').
Proof.
  revert Base P P'. induction n as [|n IH]; intros Base P P'.
  - split; [discriminate|]. intros [r H]. discriminate.
  - rewrite canParseTypeArray_S, parseTypeArray_S. cbn.
    destruct (is_ (hd eofToken (tl (Toks P))) tok.r_square); cbn.
    + destruct (isFollowingLSquare (hd eofToken (tl (tl (Toks P))))); cbn.
      * rewrite (IH Base). split.
        -- intros [r ->]. cbn. eauto.
        -- intros [r H].
           destruct (parseTypeArray n Base _) as [[[b|] Q]|]; cbn in H;
             [|discriminate..].
           injection H as <- <-. eauto.
      * split.
        -- intros [= <-]. eauto.
        -- intros [r [= <- <-]]. reflexivity.
    + split; [discriminate|]. intros [r H].
      destruct (parseExpr C _ _) as [[sz|] P2]; cbn in H; [|discriminate].
      destruct (is_ (hd eofToken (Toks P2)) tok.r_square); cbn in H;
        [|discriminate].
      destruct (isFollowingLSquare _); cbn in H; [|discriminate].
      destruct (parseTypeArray n Base _) as [[[b|] Q]|]; cbn in H; discriminate.
Qed.

Lemma noParen_canParseTypeArray n P b P' :
  canParseTypeArray n P = Some (b, P') ->
  noParen (Toks P) = true -> noParen (Toks P') = true.
Proof.
  revert P b P'. induction n as [|n IH]; intros P b P' H Hn; [discriminate|].
  rewrite canParseTypeArray_S in H. run_hyp H.
  - apply IH in H; [exact H|]. cbn. apply noParen_tl, noParen_tl, Hn.
  - injection H as <- <-. cbn. apply noParen_tl, noParen_tl, Hn.
  - injection H as <- <-. cbn. apply noParen_tl, Hn.
Qed.

Ltac np :=
  cbn;
  repeat first
    [ assumption
    | apply noParen_tl
    | apply noParen_skipMetatypes
    | apply noParen_skipQuestions
    | eapply noParen_consumeStartingCharacter; [eassumption|]
    | eapply noParen_canParseTypeArray; [eassumption|] ].

(** What the prober's run tells about the parser's: the facts of each
    call it made. *)
Ltac sim_facts :=
  repeat match goal with
         | H : Some _ = Some _ |- _ => injection H; intros; subst; clear H
         | H : ?p = (_, _) |- _ => is_var p; subst p
         | H : exists _, _ |- _ => destruct H
         | H : negb _ = false |- _ => apply negb_false_iff in H
         | H : negb _ = true |- _ => apply negb_true_iff in H
         | H : ?b = true |- _ => is_var b; subst b
         | H : ?b = false |- _ => is_var b; subst b
         | u : unit |- _ => destruct u
         | E : canParseTypeArray ?n ?Q = Some (true, ?Q') |- _ =>
             assert (noParen (Toks Q') = true)
               by (eapply noParen_canParseTypeArray; [exact E|np]);
             pose proof (fun Base => proj1 (array_agree n Base Q Q') E);
             clear E
         | IH : forall Q, _, E : _ = Some (true, _) |- _ =>
             eapply IH in E; [destruct E|solve [np]]
         end.

(** Replays the parser along the facts gathered. *)
Ltac drive :=
  repeat
    (cbn;
     first
       [ match goal with
         | H : ?c = _ |- context [if ?c then _ else _] => rewrite H
         | H : ?c = _ |- context [if negb ?c then _ else _] => rewrite H
         | H : getKind ?T = _ |- context [match getKind ?T with _ => _ end] =>
             rewrite H
         | E : consumeStartingLess ?Q = Some _
           |- context [consumeStartingLess ?Q] => rewrite E
         | E : consumeStartingGreater ?Q = Some _
           |- context [consumeStartingGreater ?Q] => rewrite E
         | E : ?lhs = Some _ |- context [?lhs] => rewrite E
         | Hs : forall a, exists r, ?f ?n a ?Q = Some _
           |- context [?f ?n ?X ?Q] =>
             let E := fresh "E" in destruct (Hs X) as (? & E); rewrite E; clear E
         | |- context [parseMetatypes ?ty ?ts] =>
             let Em := fresh "Em" in
             let Hc := fresh "Hc" in
             pose proof (parseMetatypes_cursor ty ts) as Hc;
             destruct (parseMetatypes ty ts) as [? ?] eqn:Em;
             cbn in Hc; subst
         | |- context [parseOptionals ?ty ?ts] =>
             let Em := fresh "Em" in
             let Hc := fresh "Hc" in
             pose proof (parseOptionals_cursor ty ts) as Hc;
             destruct (parseOptionals ty ts) as [? ?] eqn:Em;
             cbn in Hc; subst
         end ]);
  cbn; repeat eexists.

Lemma prober_to_parser n :
  (forall P P', noParen (Toks P) = true ->
     canParseType n P = Some (true, P') ->
     noParen (Toks P') = true /\
     forall m, exists ty, parseType n m P = Some (Some ty, P')) /\
  (forall P P', noParen (Toks P) = true ->
     canParseGenericArguments n P = Some (true, P') ->
     noParen (Toks P') = true /\
     exists A L R,
       parseGenericArguments n P = Some (false, A, L, R, P')) /\
  (forall P P', noParen (Toks P) = true ->
     canParseGenericArguments_list n P = Some (true, P') ->
     noParen (Toks P') = true /\
     forall Args, exists A,
       parseGenericArguments_list n Args P = Some (false, A, P')) /\
  (forall P P', noParen (Toks P) = true ->
     canParseTypeIdentifier n P = Some (true, P') ->
     noParen (Toks P') = true /\
     exists cs, parseTypeIdentifier n P = Some (Some cs, P')) /\
  (forall P P', noParen (Toks P) = true ->
     canParseTypeIdentifier_loop n P = Some (true, P') ->
     noParen (Toks P') = true /\
     forall Comps, exists cs,
       parseTypeIdentifier_loop n Comps P = Some (Some cs, P')) /\
  (forall P P', noParen (Toks P) = true ->
     canParseTypeComposition n P = Some (true, P') ->
     noParen (Toks P') = true /\
     exists ty, parseTypeComposition n P = Some (Some ty, P')) /\
  (forall P P', noParen (Toks P) = true ->
     canParseTypeComposition_list n P = Some (true, P') ->
     noParen (Toks P') = true /\
     forall Protocols, exists Ps,
       parseTypeComposition_list n Protocols P = Some (false, Ps, P')).
Proof.
  induction n as [|n (IH1 & IH2 & IH3 & IH4 & IH5 & IH6 & IH7)];
    [repeat apply conj; intros; discriminate|].
  repeat apply conj; intros P P' Hn H.
  - rewrite canParseType_S in H. run_hyp H; sim_facts.
    all: try (exfalso; eapply noParen_hd; eassumption).
    all: (split; [np|intros m; rewrite parseType_S; drive]).
  - rewrite canParseGenericArguments_S in H. run_hyp H; sim_facts.
    all: (split; [np|rewrite parseGenericArguments_S; drive]).
  - rewrite canParseGenericArguments_list_S in H. run_hyp H; sim_facts.
    all: (split; [np|intros Args; rewrite parseGenericArguments_list_S; drive]).
  - rewrite canParseTypeIdentifier_S in H. run_hyp H; sim_facts.
    all: (split; [np|rewrite parseTypeIdentifier_S; drive]).
  - rewrite canParseTypeIdentifier_loop_S in H. run_hyp H; sim_facts.
    all: (split; [np|intros Comps; rewrite parseTypeIdentifier_loop_S; drive]).
  - rewrite canParseTypeComposition_S in H. run_hyp H; sim_facts.
    all: (split; [np|rewrite parseTypeComposition_S; drive]).
  - rewrite canParseTypeComposition_list_S in H. run_hyp H; sim_facts.
    all: (split; [np|intros Protocols; rewrite parseTypeComposition_list_S; drive]).
Qed.

Lemma canParseTypeArray_diags n P b P' :
  canParseTypeArray n P = Some (b, P') -> Diags P' = Diags P.
Proof.
  revert P b P'. induction n as [|n IH]; intros P b P' H; [discriminate|].
  rewrite canParseTypeArray_S in H. run_hyp H.
  - apply IH in H. exact H.
  - injection H as <- <-. reflexivity.
  - injection H as <- <-. reflexivity.
Qed.

Ltac diag_facts :=
  repeat match goal with
         | H : Some _ = Some _ |- _ => injection H; intros; subst; clear H
         | u : unit |- _ => destruct u
         | E : canParseTypeArray _ _ = Some _ |- _ =>
             apply canParseTypeArray_diags in E
         | E : skipWhileNot _ _ = Some _ |- _ => apply skipLoop_diags in E
         | E : consumeStartingLess _ = Some _ |- _ =>
             apply consumeStartingCharacter_diags in E
         | E : consumeStartingGreater _ = Some _ |- _ =>
             apply consumeStartingCharacter_diags in E
         | IH : forall Q, _, E : _ = Some _ |- _ => apply IH in E
         end.

Ltac same_diags H := run_hyp H; diag_facts; cbn in *; congruence.

Lemma canSkipAttributes_diags P b P' :
  canSkipAttributes P = Some (b, P') -> Diags P' = Diags P.
Proof. unfold canSkipAttributes. intros H. same_diags H. Qed.

Lemma canSkipDefaultValue_diags P b P' :
  canSkipDefaultValue P = Some (b, P') -> Diags P' = Diags P.
Proof. unfold canSkipDefaultValue. intros H. same_diags H. Qed.

(** The prober emits no diagnostic. *)
Lemma prober_diags n :
  (forall P b P', canParseType n P = Some (b, P') -> Diags P' = Diags P) /\
  (forall P b P', canParseGenericArguments n P = Some (b, P') -> Diags P' = Diags P) /\
  (forall P b P', canParseGenericArguments_list n P = Some (b, P') -> Diags P' = Diags P) /\
  (forall P b P', canParseTypeIdentifier n P = Some (b, P') -> Diags P' = Diags P) /\
  (forall P b P', canParseTypeIdentifier_loop n P = Some (b, P') -> Diags P' = Diags P) /\
  (forall P b P', canParseTypeComposition n P = Some (b, P') -> Diags P' = Diags P) /\
  (forall P b P', canParseTypeComposition_list n P = Some (b, P') -> Diags P' = Diags P) /\
  (forall P b P', canParseTypeTupleBody n P = Some (b, P') -> Diags P' = Diags P) /\
  (forall P b P', canParseTypeTupleBody_list n P = Some (b, P') -> Diags P' = Diags P).
Proof.
  induction n as [|n (IH1 & IH2 & IH3 & IH4 & IH5 & IH6 & IH7 & IH8 & IH9)];
    [repeat apply conj; intros; discriminate|].
  pose proof canSkipAttributes_diags as SA.
  pose proof canSkipDefaultValue_diags as SD.
  repeat apply conj; intros P b P' H.
  - rewrite canParseType_S in H. same_diags H.
  - rewrite canParseGenericArguments_S in H. same_diags H.
  - rewrite canParseGenericArguments_list_S in H. same_diags H.
  - rewrite canParseTypeIdentifier_S in H. same_diags H.
  - rewrite canParseTypeIdentifier_loop_S in H. same_diags H.
  - rewrite canParseTypeComposition_S in H. same_diags H.
  - rewrite canParseTypeComposition_list_S in H. same_diags H.
  - rewrite canParseTypeTupleBody_S in H. same_diags H.
  - rewrite canParseTypeTupleBody_list_S in H. same_diags H.
Qed.

Lemma canParseType_noParen n P P' :
  noParen (Toks P) = true -> canParseType n P = Some (true, P') ->
  noParen (Toks P') = true.
Proof. intros Hn H. apply (proj1 (prober_to_parser n)) in H; [apply H|exact Hn]. Qed.

Lemma canParseGenericArguments_noParen n P P' :
  noParen (Toks P) = true -> canParseGenericArguments n P = Some (true, P') ->
  noParen (Toks P') = true.
Proof. intros Hn H. apply (proj1 (proj2 (prober_to_parser n))) in H; [apply H|exact Hn]. Qed.

Lemma canParseGenericArguments_list_noParen n P P' :
  noParen (Toks P) = true -> canParseGenericArguments_list n P = Some (true, P') ->
  noParen (Toks P') = true.
Proof. intros Hn H. apply (proj1 (proj2 (proj2 (prober_to_parser n)))) in H; [apply H|exact Hn]. Qed.

Lemma canParseTypeIdentifier_noParen n P P' :
  noParen (Toks P) = true -> canParseTypeIdentifier n P = Some (true, P') ->
  noParen (Toks P') = true.
Proof. intros Hn H. apply (proj1 (proj2 (proj2 (proj2 (prober_to_parser n))))) in H; [apply H|exact Hn]. Qed.

Lemma canParseTypeIdentifier_loop_noParen n P P' :
  noParen (Toks P) = true -> canParseTypeIdentifier_loop n P = Some (true, P') ->
  noParen (Toks P') = true.
Proof. intros Hn H. apply (proj1 (proj2 (proj2 (proj2 (proj2 (prober_to_parser n)))))) in H; [apply H|exact Hn]. Qed.

Lemma canParseTypeComposition_noParen n P P' :
  noParen (Toks P) = true -> canParseTypeComposition n P = Some (true, P') ->
  noParen (Toks P') = true.
Proof. intros Hn H. apply (proj1 (proj2 (proj2 (proj2 (proj2 (proj2 (prober_to_parser n))))))) in H; [apply H|exact Hn]. Qed.

Lemma canParseTypeComposition_list_noParen n P P' :
  noParen (Toks P) = true -> canParseTypeComposition_list n P = Some (true, P') ->
  noParen (Toks P') = true.
Proof. intros Hn H. apply (proj2 (proj2 (proj2 (proj2 (proj2 (proj2 (prober_to_parser n))))))) in H; [apply H|exact Hn]. Qed.

Section ParserToProber.

Hypothesis expr_diagnoses : ExprDiagnoses C.
Hypothesis attr_appends : AttrAppends C.

Lemma parseType_emits n m P r P' :
  parseType n m P = Some (r, P') -> emits (isNone r) P P'.
Proof. apply (parser_emits expr_diagnoses attr_appends n). Qed.

Lemma parseGenericArguments_emits n P e A L R P' :
  parseGenericArguments n P = Some (e, A, L, R, P') -> emits e P P'.
Proof. apply (parser_emits expr_diagnoses attr_appends n). Qed.

Lemma parseGenericArguments_list_emits n A P e A' P' :
  parseGenericArguments_list n A P = Some (e, A', P') -> emits e P P'.
Proof. apply (parser_emits expr_diagnoses attr_appends n). Qed.

Lemma parseTypeIdentifier_emits n P r P' :
  parseTypeIdentifier n P = Some (r, P') -> emits (isNone r) P P'.
Proof. apply (parser_emits expr_diagnoses attr_appends n). Qed.

Lemma parseTypeIdentifier_loop_emits n A P r P' :
  parseTypeIdentifier_loop n A P = Some (r, P') -> emits (isNone r) P P'.
Proof. apply (parser_emits expr_diagnoses attr_appends n). Qed.

Lemma parseTypeComposition_emits n P r P' :
  parseTypeComposition n P = Some (r, P') -> emits (isNone r) P P'.
Proof. apply (parser_emits expr_diagnoses attr_appends n). Qed.

Lemma parseTypeComposition_list_emits n A P e A' P' :
  parseTypeComposition_list n A P = Some (e, A', P') -> emits e P P'.
Proof. apply (parser_emits expr_diagnoses attr_appends n). Qed.

(** Records what each call of the parser's run emitted. *)
Ltac note pf :=
  let T := type of pf in
  lazymatch goal with
  | _ : T |- _ => fail
  | _ => pose proof pf
  end.

Ltac run_facts :=
  repeat match goal with
         | H : option_map _ ?o = _ |- _ =>
             destruct o; cbn in H; [|try discriminate H]; try discriminate H
         | H : Some _ = Some _ |- _ => injection H; intros; subst; clear H
         | H : (_, _) = (_, _) |- _ => injection H; intros; subst; clear H
         | H : ?p = (_, _) |- _ => is_var p; subst p
         | H : negb _ = false |- _ => apply negb_false_iff in H
         | H : negb _ = true |- _ => apply negb_true_iff in H
         | H : ?b = true |- _ => is_var b; subst b
         | H : ?b = false |- _ => is_var b; subst b
         | u : unit |- _ => destruct u
         | E : parseMetatypes ?ty ?ts = (_, ?l) |- _ =>
             let Hc := fresh "Hc" in
             pose proof (parseMetatypes_cursor ty ts) as Hc;
             rewrite E in Hc; cbn in Hc; subst l; clear E
         | E : parseOptionals ?ty ?ts = (_, ?l) |- _ =>
             let Hc := fresh "Hc" in
             pose proof (parseOptionals_cursor ty ts) as Hc;
             rewrite E in Hc; cbn in Hc; subst l; clear E
         | E : skipUntilAnyOperator _ = Some _ |- _ =>
             apply skipUntilAnyOperator_diags in E
         | E : parseExpr C ?D ?Q = (?e, ?Q') |- _ =>
             let H := fresh "H" in
             assert (H := expr_diagnoses D Q); rewrite E in H; cbn in H;
             destruct H; clear E
         | E : consumeStartingLess _ = Some _ |- _ =>
             note (consumeStartingCharacter_diags _ _ _ E)
         | E : consumeStartingGreater _ = Some _ |- _ =>
             note (consumeStartingCharacter_diags _ _ _ E)
         | E : parseTypeArray _ _ _ = Some _ |- _ =>
             note (parseTypeArray_emits expr_diagnoses _ _ _ _ _ E)
         | E : parseType _ _ _ = Some _ |- _ => note (parseType_emits _ _ _ _ _ E)
         | E : parseGenericArguments _ _ = Some _ |- _ =>
             note (parseGenericArguments_emits _ _ _ _ _ _ _ E)
         | E : parseGenericArguments_list _ _ _ = Some _ |- _ =>
             note (parseGenericArguments_list_emits _ _ _ _ _ _ E)
         | E : parseTypeIdentifier _ _ = Some _ |- _ =>
             note (parseTypeIdentifier_emits _ _ _ _ E)
         | E : parseTypeIdentifier_loop _ _ _ = Some _ |- _ =>
             note (parseTypeIdentifier_loop_emits _ _ _ _ _ E)
         | E : parseTypeComposition _ _ = Some _ |- _ =>
             note (parseTypeComposition_emits _ _ _ _ E)
         | E : parseTypeComposition_list _ _ _ = Some _ |- _ =>
             note (parseTypeComposition_list_emits _ _ _ _ _ _ E)
         end.

(** Splits on the failure flags still unknown. *)
Ltac flags :=
  repeat match goal with
         | H : emits ?b _ _ |- _ => is_var b; destruct b
         end.

(** Arithmetic on the numbers of diagnostics. *)
Ltac count :=
  unfold emits in *; cbn in *;
  repeat match goal with
         | H : _ /\ _ |- _ => destruct H
         | H : true = true -> _ |- _ => specialize (H eq_refl)
         | H : false = true -> _ |- _ => clear H
         | H : Diags ?Q = ?X |- _ =>
             apply (f_equal (@List.length _)) in H
         | H : extends ?a ?b |- _ =>
             lazymatch goal with
             | _ : List.length a <= List.length b |- _ => fail
             | _ => pose proof (extends_length a b H)
             end
         end;
  rewrite ?length_app in *; cbn [List.length] in *; lia.

Ltac same :=
  apply extends_same_length;
  [solve [unfold emits in *; cbn in *; tauto]|count].

(** Turns the facts of the parser's calls into facts of the prober's. *)
Ltac probe_with IH E n Q Q' f keeps :=
  let E' := fresh "E" in
  assert (E' : f n Q = Some (true, Q'))
    by (eapply IH; [solve [np]|try solve [cbn; assumption]..|exact E|same]);
  assert (noParen (Toks Q') = true)
    by (apply (keeps n Q Q'); [solve [np]|exact E']);
  clear E.

Ltac probe IH :=
  repeat match goal with
         | E : parseTypeArray ?n ?B ?Q = Some (Some ?r, ?Q') |- _ =>
             let E' := fresh "E" in
             assert (E' : canParseTypeArray n Q = Some (true, Q'))
               by (apply (array_agree n B Q Q'); exists r; exact E);
             assert (noParen (Toks Q') = true)
               by (eapply noParen_canParseTypeArray; [exact E'|solve [np]]);
             clear E
         | E : parseType ?n _ ?Q = Some (Some _, ?Q') |- _ =>
             probe_with (proj1 IH) E n Q Q'
               constr:(canParseType) canParseType_noParen
         | E : parseGenericArguments ?n ?Q = Some (false, _, _, _, ?Q') |- _ =>
             probe_with (proj1 (proj2 IH)) E n Q Q'
               constr:(canParseGenericArguments) canParseGenericArguments_noParen
         | E : parseGenericArguments_list ?n _ ?Q = Some (false, _, ?Q') |- _ =>
             probe_with (proj1 (proj2 (proj2 IH))) E n Q Q'
               constr:(canParseGenericArguments_list) canParseGenericArguments_list_noParen
         | E : parseTypeIdentifier ?n ?Q = Some (Some _, ?Q') |- _ =>
             probe_with (proj1 (proj2 (proj2 (proj2 IH)))) E n Q Q'
               constr:(canParseTypeIdentifier) canParseTypeIdentifier_noParen
         | E : parseTypeIdentifier_loop ?n _ ?Q = Some (Some _, ?Q') |- _ =>
             probe_with (proj1 (proj2 (proj2 (proj2 (proj2 IH))))) E n Q Q'
               constr:(canParseTypeIdentifier_loop) canParseTypeIdentifier_loop_noParen
         | E : parseTypeComposition ?n ?Q = Some (Some _, ?Q') |- _ =>
             probe_with (proj1 (proj2 (proj2 (proj2 (proj2 (proj2 IH)))))) E n Q Q'
               constr:(canParseTypeComposition) canParseTypeComposition_noParen
         | E : parseTypeComposition_list ?n _ ?Q = Some (false, _, ?Q') |- _ =>
             probe_with (proj2 (proj2 (proj2 (proj2 (proj2 (proj2 IH)))))) E n Q Q'
               constr:(canParseTypeComposition_list) canParseTypeComposition_list_noParen
         end.

Lemma parser_to_prober n :
  (forall m P ty P', noParen (Toks P) = true ->
     parseType n m P = Some (Some ty, P') -> Diags P' = Diags P ->
     canParseType n P = Some (true, P')) /\
  (forall P A L R P', noParen (Toks P) = true ->
     startsWithLess (Tok P) = true ->
     parseGenericArguments n P = Some (false, A, L, R, P') ->
     Diags P' = Diags P ->
     canParseGenericArguments n P = Some (true, P')) /\
  (forall Args P A P', noParen (Toks P) = true ->
     parseGenericArguments_list n Args P = Some (false, A, P') ->
     Diags P' = Diags P ->
     canParseGenericArguments_list n P = Some (true, P')) /\
  (forall P cs P', noParen (Toks P) = true ->
     parseTypeIdentifier n P = Some (Some cs, P') -> Diags P' = Diags P ->
     canParseTypeIdentifier n P = Some (true, P')) /\
  (forall Comps P cs P', noParen (Toks P) = true ->
     parseTypeIdentifier_loop n Comps P = Some (Some cs, P') ->
     Diags P' = Diags P ->
     canParseTypeIdentifier_loop n P = Some (true, P')) /\
  (forall P ty P', noParen (Toks P) = true ->
     parseTypeComposition n P = Some (Some ty, P') -> Diags P' = Diags P ->
     canParseTypeComposition n P = Some (true, P')) /\
  (forall Protocols P Ps P', noParen (Toks P) = true ->
     parseTypeComposition_list n Protocols P = Some (false, Ps, P') ->
     Diags P' = Diags P ->
     canParseTypeComposition_list n P = Some (true, P')).
Proof.
  induction n as [|n IH];
    [repeat apply conj; intros; discriminate|].
  repeat apply conj.
  - intros m P ty P' Hn H Hd. rewrite parseType_S in H.
    run_hyp H; run_facts; flags.
    all: try (exfalso; eapply noParen_hd; eassumption).
    all: try (exfalso; count).
    all: probe IH.
    all: rewrite canParseType_S; drive.
  - intros P A L R P' Hn Hs H Hd. unfold Tok in Hs.
    rewrite parseGenericArguments_S in H.
    run_hyp H; run_facts; flags.
    all: try (exfalso; count).
    all: probe IH.
    all: rewrite canParseGenericArguments_S; drive.
  - intros Args P A P' Hn H Hd. rewrite parseGenericArguments_list_S in H.
    run_hyp H; run_facts; flags.
    all: try (exfalso; count).
    all: probe IH.
    all: rewrite canParseGenericArguments_list_S; drive.
  - intros P cs P' Hn H Hd. rewrite parseTypeIdentifier_S in H.
    run_hyp H; run_facts; flags.
    all: try (exfalso; count).
    all: probe IH.
    all: rewrite canParseTypeIdentifier_S; drive.
  - intros Comps P cs P' Hn H Hd. rewrite parseTypeIdentifier_loop_S in H.
    run_hyp H; run_facts; flags.
    all: try (exfalso; count).
    all: probe IH.
    all: rewrite canParseTypeIdentifier_loop_S; drive.
  - intros P ty P' Hn H Hd. rewrite parseTypeComposition_S in H.
    run_hyp H; run_facts; flags.
    all: try (exfalso; count).
    all: probe IH.
    all: rewrite canParseTypeComposition_S; drive.
  - intros Protocols P Ps P' Hn H Hd. rewrite parseTypeComposition_list_S in H.
    run_hyp H; run_facts; flags.
    all: try (exfalso; count).
    all: probe IH.
    all: rewrite canParseTypeComposition_list_S; drive.
Qed.

End ParserToProber.

(** * Further properties of the prober and of the parser *)

(** X1: with a recursion budget that covers the input left, [canParseType]
    returns on every token stream, and leaves no more input than it
    found, provided [skipSingle] advances. *)
Theorem canParseType_terminates n P :
  SkipAdvances C ->
  5 * weight (Toks P) + 3 <= n ->
  exists b P', canParseType n P = Some (b, P') /\
               weight (Toks P') <= weight (Toks P).
Proof.
  intros Hs Hn.
  destruct (proj1 (prober_total Hs n) P Hn) as (b & P' & E).
  exists b, P'. split; [exact E|].
  apply (proj1 (prober_advances Hs n)) in E. apply E.
Qed.

(** X2: the prober never emits a diagnostic, whatever it answers: neither
    [canParseType] nor [canParseGenericArguments]. *)
Theorem prober_emits_no_diagnostic n P b P' :
  canParseType n P = Some (b, P') \/
  canParseGenericArguments n P = Some (b, P') ->
  Diags P' = Diags P.
Proof.
  intros [H|H].
  - exact (proj1 (prober_diags n) P b P' H).
  - exact (proj1 (proj2 (prober_diags n)) P b P' H).
Qed.

(** X3: the committed parser only adds diagnostics, and each of its
    failure returns is diagnosed: when [parseType],
    [parseTypeIdentifier] or [parseTypeComposition] returns nothing, or
    [parseGenericArguments] returns its error flag, at least one
    diagnostic was emitted during the call. *)
Theorem parser_failure_is_diagnosed n :
  ExprDiagnoses C -> AttrAppends C ->
  (forall m P r P',
      parseType n m P = Some (r, P') ->
      (exists more, Diags P' = Diags P ++ more) /\
      (r = None -> List.length (Diags P) < List.length (Diags P'))) /\
  (forall P r P',
      parseTypeIdentifier n P = Some (r, P') ->
      (exists more, Diags P' = Diags P ++ more) /\
      (r = None -> List.length (Diags P) < List.length (Diags P'))) /\
  (forall P r P',
      parseTypeComposition n P = Some (r, P') ->
      (exists more, Diags P' = Diags P ++ more) /\
      (r = None -> List.length (Diags P) < List.length (Diags P'))) /\
  (forall P err Args L R P',
      parseGenericArguments n P = Some (err, Args, L, R, P') ->
      (exists more, Diags P' = Diags P ++ more) /\
      (err = true -> List.length (Diags P) < List.length (Diags P'))).
Proof.
  intros He Ha.
  destruct (parser_emits He Ha n) as (H1 & _ & H3 & _ & H5 & _ & H7 & _).
  repeat apply conj.
  - intros m P r P' E. destruct (H1 m P r P' E) as [Hx Hl].
    split; [exact Hx|]. intros ->. apply Hl. reflexivity.
  - intros P r P' E. destruct (H5 P r P' E) as [Hx Hl].
    split; [exact Hx|]. intros ->. apply Hl. reflexivity.
  - intros P r P' E. destruct (H7 P r P' E) as [Hx Hl].
    split; [exact Hx|]. intros ->. apply Hl. reflexivity.
  - intros P err Args L R P' E. destruct (H3 P err Args L R P' E) as [Hx Hl].
    split; [exact Hx|exact Hl].
Qed.

(** X4: on the bracket clauses of an array type the prober and the parser
    agree, on every token stream: [canParseTypeArray] answers [true] and
    stops at a cursor exactly when [parseTypeArray] returns a node and
    stops at that cursor. *)
Theorem canParseTypeArray_agrees_with_parseTypeArray n Base P P' :
  canParseTypeArray n P = Some (true, P') <->
  exists node, parseTypeArray n Base P = Some (Some node, P').
Proof. apply array_agree. Qed.

(** X5: a run of slice clauses [[][]...[]] builds one array node per
    clause, the first clause outermost, and consumes exactly the
    clauses. *)
Theorem parseTypeArray_slices n Base clauses rest ds :
  clauses <> [] ->
  forallb isSlice clauses = true ->
  isFollowingLSquare (hd eofToken rest) = false ->
  parseTypeArray (List.length clauses + n) Base
    (mkParser (sliceTokens clauses ++ rest) ds)
  = Some (Some (sliceNode Base clauses), mkParser rest ds).
Proof.
  intros Hne Hall Hrest.
  induction clauses as [|[l r] more IH]; [contradiction|].
  cbn in Hall. apply andb_true_iff in Hall. destruct Hall as [Hlr Hmore].
  unfold isSlice in Hlr. cbn in Hlr.
  apply andb_true_iff in Hlr. destruct Hlr as [_ Hr].
  apply is_true_iff in Hr.
  destruct more as [|[l' r'] more'].
  - cbn. apply parseTypeArray_last_slice; assumption.
  - cbn [List.length Nat.add sliceTokens flat_map fst snd app sliceNode].
    rewrite parseTypeArray_slice_then.
    + change (l' :: r' :: flat_map (fun p => [fst p; snd p]) more' ++ rest)
        with (sliceTokens ((l', r') :: more') ++ rest).
      change (S (List.length more' + n))
        with (List.length ((l', r') :: more') + n).
      rewrite IH; [reflexivity|discriminate|exact Hmore].
    + exact Hr.
    + cbn. cbn in Hmore. apply andb_true_iff in Hmore.
      destruct Hmore as [Hl' _]. unfold isSlice in Hl'. cbn in Hl'.
      apply andb_true_iff in Hl'. apply Hl'.
Qed.

(** X6: the suffix loops of the prober stop where those of the parser
    stop: after the [.metatype] suffixes and after the optional
    suffixes the two cursors are the same, whatever node the parser has
    built. *)
Theorem suffix_loops_agree ty ts :
  snd (parseMetatypes ty ts) = skipMetatypes ts /\
  snd (parseOptionals ty ts) = skipQuestions ts.
Proof. split; [apply parseMetatypes_cursor|apply parseOptionals_cursor]. Qed.

(** A run of question marks of one line builds one optional node each. *)
Lemma parseOptionals_run ty qs rest :
  forallb isOptionalSuffix qs = true ->
  isOptionalSuffix (hd eofToken rest) = false ->
  parseOptionals ty (qs ++ rest) = (wrapOptionals ty qs, rest).
Proof.
  revert ty. induction qs as [|q qs IH]; intros ty Hall Hrest.
  - destruct rest as [|T rest]; [reflexivity|].
    cbn in Hrest. unfold isOptionalSuffix in Hrest. cbn. rewrite Hrest.
    reflexivity.
  - cbn in Hall. apply andb_true_iff in Hall. destruct Hall as [Hq Hall].
    unfold isOptionalSuffix in Hq. cbn. rewrite Hq. apply IH; assumption.
Qed.

Lemma parseMetatypes_other ty q ts :
  is_ q tok.period = false -> is_ q tok.period_prefix = false ->
  parseMetatypes ty (q :: ts) = (ty, q :: ts).
Proof. intros H1 H2. destruct ts; cbn; [|rewrite H1, H2]; reflexivity. Qed.

Lemma parseMetatypes_run ty suffixes rest :
  forallb isMetatypeSuffix suffixes = true ->
  is_ (hd eofToken rest) tok.period = false ->
  is_ (hd eofToken rest) tok.period_prefix = false ->
  parseMetatypes ty (metatypeTokens suffixes ++ rest)
  = (wrapMetatypes ty suffixes, rest).
Proof.
  intros Hall H1 H2. revert ty Hall.
  induction suffixes as [|[p m] more IH]; intros ty Hall.
  - destruct rest as [|T rest]; [reflexivity|].
    apply parseMetatypes_other; assumption.
  - cbn in Hall. apply andb_true_iff in Hall. destruct Hall as [Hpm Hall].
    unfold isMetatypeSuffix in Hpm. cbn in Hpm.
    cbn [metatypeTokens flat_map fst snd app parseMetatypes].
    rewrite Hpm. apply IH. exact Hall.
Qed.

(** X7: the suffixes of a type name.  Each [.metatype] wraps the type in
    one metatype node, then each question mark that does not start a
    line wraps the result in one optional node, in the order they are
    written; the parse stops at the first token that continues
    neither. *)
Theorem parseType_suffixes n m P cs P1 suffixes qs rest :
  getKind (Tok P) = tok.identifier \/ getKind (Tok P) = tok.kw_This ->
  parseTypeIdentifier n P = Some (Some cs, P1) ->
  Toks P1 = metatypeTokens suffixes ++ qs ++ rest ->
  forallb isMetatypeSuffix suffixes = true ->
  forallb isOptionalSuffix qs = true ->
  is_ (hd eofToken (qs ++ rest)) tok.period = false ->
  is_ (hd eofToken (qs ++ rest)) tok.period_prefix = false ->
  is_ (hd eofToken (qs ++ rest)) tok.arrow = false ->
  isOptionalSuffix (hd eofToken rest) = false ->
  isFollowingLSquare (hd eofToken rest) = false ->
  parseType (S n) m P
  = Some (Some (wrapOptionals (wrapMetatypes (IdentTypeRepr cs) suffixes) qs),
          mkParser rest (Diags P1)).
Proof.
  intros Hk E Ht Hms Hqs Hp Hpp Ha Hrest Hsq.
  rewrite parseType_S. cbn. cbn in Hk.
  pose proof (parseMetatypes_run (IdentTypeRepr cs) _ _ Hms Hp Hpp) as Hm.
  pose proof (parseOptionals_run
                (wrapMetatypes (IdentTypeRepr cs) suffixes) _ _ Hqs Hrest) as Ho.
  destruct Hk as [Hk|Hk]; rewrite Hk; cbn; rewrite E; cbn;
    rewrite Ht, Hm; cbn -[parseOptionals wrapMetatypes];
    rewrite Ha; cbn -[parseOptionals wrapMetatypes];
    rewrite Ho; cbn -[wrapOptionals wrapMetatypes];
    rewrite Hsq; reflexivity.
Qed.

(** The dotted-name loop appends to the components it was given, and the
    first one it appends is the name at the cursor. *)
Lemma parseTypeIdentifier_loop_appends n :
  forall Comps P cs P',
    parseTypeIdentifier_loop n Comps P = Some (Some cs, P') ->
    exists c more,
      cs = Comps ++ c :: more /\
      getIdentifier c = getText (Tok P) /\ getIdLoc c = getLoc (Tok P).
Proof.
  induction n as [|n IH]; intros Comps P cs P' H; [discriminate|].
  rewrite parseTypeIdentifier_loop_S in H. unfold parseIdentifier in H.
  run_hyp H;
    repeat match goal with
           | H : Some _ = Some _ |- _ => injection H; intros; subst; clear H
           end.
  all: try (apply IH in H; destruct H as (c & more & -> & _ & _);
            rewrite <- app_assoc; cbn; eexists _, _;
            repeat split; reflexivity).
  all: eexists _, []; repeat split; reflexivity.
Qed.

(** X8: the component list that [parseTypeIdentifier] returns is never
    empty (the access to [ComponentsR[0]] of line 199 is in bounds), and
    its first component is the name at the cursor, with its location. *)
Theorem parseTypeIdentifier_first_component n P cs P' :
  parseTypeIdentifier n P = Some (Some cs, P') ->
  exists c more,
    cs = c :: more /\
    getIdentifier c = getText (Tok P) /\ getIdLoc c = getLoc (Tok P).
Proof.
  destruct n as [|n]; [discriminate|].
  rewrite parseTypeIdentifier_S. intros H. run_hyp H.
  injection H as <- <-.
  apply parseTypeIdentifier_loop_appends in Heqo.
  destruct Heqo as ([l1 i a v] & more & -> & Hi & Hl). cbn in *.
  unfold resolveFirstComponent. cbn.
  destruct (lookupInScope C i); eexists _, _; repeat split; eassumption.
Qed.

(** The argument loop appends to the arguments it was given, at least
    one when it does not fail. *)
Lemma parseGenericArguments_list_appends n :
  forall Args P Args' P',
    parseGenericArguments_list n Args P = Some (false, Args', P') ->
    exists ty more, Args' = Args ++ ty :: more.
Proof.
  induction n as [|n IH]; intros Args P Args' P' H; [discriminate|].
  rewrite parseGenericArguments_list_S in H.
  run_hyp H.
  - apply IH in H. destruct H as (ty & more & ->).
    rewrite <- app_assoc. cbn. eexists _, _. reflexivity.
  - injection H as <- <-. eexists _, []. reflexivity.
Qed.

(** X9: a generic argument list that parses without error holds at least
    one argument (an empty [<>] is not accepted), and its opening
    location is that of the token at the cursor. *)
Theorem parseGenericArguments_has_argument n P Args LAngleLoc RAngleLoc P' :
  parseGenericArguments n P = Some (false, Args, LAngleLoc, RAngleLoc, P') ->
  Args <> [] /\ LAngleLoc = getLoc (Tok P).
Proof.
  destruct n as [|n]; [discriminate|].
  rewrite parseGenericArguments_S. intros H. run_hyp H.
  injection H as <- <- <- <-.
  apply parseGenericArguments_list_appends in Heqo0.
  destruct Heqo0 as (ty & more & ->). split.
  - intros E. apply app_eq_nil in E. destruct E as [_ E]. discriminate E.
  - unfold consumeStartingLess, consumeStartingCharacter in Heqo.
    destruct (Nat.eqb _ 1); cbn in Heqo; injection Heqo as <- _; reflexivity.
Qed.

(** X10: what one run of the tuple element callback does to the locals
    it captures: on its error return they are untouched; otherwise
    exactly one element was pushed; and the variadic flag is set only on
    a return without error that stops at the closing parenthesis. *)
Theorem parseTypeTupleBody_element_effect n l P err l' P' :
  parseTypeTupleBody_element n l P = Some (err, l', P') ->
  (err = true -> l' = l) /\
  (err = false -> exists e, ElementsR l' = ElementsR l ++ [e]) /\
  (HadEllipsis l = false -> HadEllipsis l' = true ->
   err = false /\ is_ (Tok P') tok.r_paren = true).
Proof.
  destruct n as [|n]; [discriminate|].
  rewrite parseTypeTupleBody_element_S. intros H.
  run_hyp H;
    repeat match goal with
           | H : Some _ = Some _ |- _ => injection H; intros; subst; clear H
           end;
    cbn; repeat split; try discriminate; try congruence; eauto.
Qed.

(** What [parseTypeComposition] returns, when it returns: nothing only
    when the opening angle bracket is missing after [protocol]. *)
Lemma parseTypeComposition_outcome n P r P' :
  parseTypeComposition n P = Some (r, P') ->
  (r = None <-> startsWithLess (peekToken P) = false) /\
  (r = None ->
   P' = mkParser (tl (Toks P))
          (Diags P ++ [mkDiag (getLoc (peekToken P))
                         diag.expected_langle_protocol None None])).
Proof.
  destruct n as [|n]; [discriminate|].
  rewrite parseTypeComposition_S. intros H.
  run_hyp H;
    repeat match goal with
           | H : Some _ = Some _ |- _ => injection H; intros; subst; clear H
           | H : negb _ = false |- _ => apply negb_false_iff in H
           | H : negb _ = true |- _ => apply negb_true_iff in H
           end;
    cbn; (split; [split|]); try discriminate; try congruence; reflexivity.
Qed.

(** ** Progress and termination of the committed parser *)

Section ParserTermination.

Hypothesis skip_advances : SkipAdvances C.
Hypothesis expr_bounded : ExprBounded C.
Hypothesis attr_bounded : AttrBounded C.

(** What the calls outside the recursion leave of the input. *)
Ltac left_facts :=
  repeat match goal with
         | H : Some _ = Some _ |- _ => injection H; intros; subst; clear H
         | H : (_, _) = (_, _) |- _ => injection H; intros; subst; clear H
         | H : ?p = (_, _) |- _ => is_var p; subst p
         | u : unit |- _ => destruct u
         | E : parseExpr C ?D ?Q = (_, ?Q') |- _ =>
             assert (weight (Toks Q') <= weight (Toks Q))
               by (generalize (expr_bounded D Q); rewrite E; exact (fun H => H));
             clear E
         | E : parseAttributeList C ?Q = (_, ?Q') |- _ =>
             assert (weight (Toks Q') <= weight (Toks Q))
               by (generalize (attr_bounded Q); rewrite E; exact (fun H => H));
             clear E
         | E : parseMetatypes ?ty ?ts = (_, ?ts') |- _ =>
             assert (weight ts' <= weight ts)
               by (generalize (weight_parseMetatypes ty ts); rewrite E;
                   exact (fun H => H));
             clear E
         | E : parseOptionals ?ty ?ts = (_, ?ts') |- _ =>
             assert (weight ts' <= weight ts)
               by (generalize (weight_parseOptionals ty ts); rewrite E;
                   exact (fun H => H));
             clear E
         end.

Ltac positive :=
  repeat match goal with
         | H : _ && _ = true |- _ => apply andb_true_iff in H; destruct H
         | H : _ || _ = true |- _ => apply orb_true_iff in H; destruct H
         | H : negb _ = false |- _ => apply negb_false_iff in H
         | H : negb _ = true |- _ => apply negb_true_iff in H
         | H : is_ (hd eofToken ?ts) ?K = true |- _ =>
             lazymatch goal with
             | _ : 0 < weight ts |- _ => fail
             | _ => assert (0 < weight ts)
                      by (apply (weight_pos_is _ _ H); discriminate)
             end
         | H : getKind (hd eofToken ?ts) = ?K |- _ =>
             lazymatch goal with
             | _ : 0 < weight ts |- _ => fail
             | _ => assert (0 < weight ts)
                      by (apply (weight_pos_kind _ _ H); discriminate)
             end
         | H : startsWithLess (hd eofToken ?ts) = true |- _ =>
             lazymatch goal with
             | _ : 0 < weight ts |- _ => fail
             | _ => assert (0 < weight ts)
                      by (apply (weight_pos_startsWith _ _ H))
             end
         | H : startsWithGreater (hd eofToken ?ts) = true |- _ =>
             lazymatch goal with
             | _ : 0 < weight ts |- _ => fail
             | _ => assert (0 < weight ts)
                      by (apply (weight_pos_startsWith _ _ H))
             end
         end.

Ltac budget :=
  left_facts; unfold advances in *; cbn in *;
  repeat match goal with H : _ /\ _ |- _ => destruct H end;
  positive; weigh.

(** The element loop of the list helper returns when its callback does,
    each round after the first having consumed a separator. *)
Lemma parseList_elements_total {L} (callback : L -> M (bool * L)) RightK SepK W :
  SepK <> tok.eof ->
  (forall l Q, weight (Toks Q) <= W ->
               exists r Q', callback l Q = Some (r, Q') /\
                            weight (Toks Q') <= weight (Toks Q)) ->
  forall n Inv l P,
    weight (Toks P) <= W -> weight (Toks P) < n ->
    exists r P',
      parseList_elements n RightK SepK callback Inv l P = Some (r, P') /\
      weight (Toks P') <= weight (Toks P).
Proof.
  intros Hsep Hc. induction n as [|n IH]; intros Inv l P HW Hn; [lia|].
  rewrite parseList_elements_S. cbn.
  destruct (Hc l P HW) as ([err l1] & Q & E & Hw). rewrite E. cbn.
  destruct (is_ (hd eofToken (Toks Q)) RightK); cbn; [eauto|].
  destruct (is_ (hd eofToken (Toks Q)) SepK) eqn:Hs; cbn; [|eauto].
  assert (0 < weight (Toks Q)) by (apply (weight_pos_is _ _ Hs); exact Hsep).
  pose proof (weight_tl_pos (Toks Q)).
  destruct (IH (Inv || err) l1 (mkParser (tl (Toks Q)) (Diags Q)))
    as (r & P' & E' & Hw'); cbn; [lia|lia|].
  rewrite E'. cbn in Hw'. eexists _, _. split; [reflexivity|lia].
Qed.

Ltac side :=
  first [ solve [cbn; assumption]
        | solve [apply is_true_iff; cbn; assumption]
        | budget ].

Ltac pcall IH FWD Q :=
  let r := fresh "r" in
  let Q' := fresh "Q" in
  let E := fresh "E" in
  destruct (IH Q) as (r & Q' & E);
  [side.. | rewrite E; apply FWD in E; [|solve [cbn; assumption]..]].

(** One step through the body of a parser function; [IH] is what
    [parser_total] states at the smaller budget, [FWD] what
    [parser_forwards] does. *)
Ltac ptotal_step IH FWD :=
  cbn;
  match goal with
  | |- exists r P', Some _ = Some (r, P') => eexists _, _; reflexivity
  | |- exists r P', parseType _ ?m _ = Some (r, P') =>
      apply (proj1 IH m); budget
  | |- exists r P', parseGenericArguments_list _ ?A _ = Some (r, P') =>
      apply (proj1 (proj2 (proj2 (proj2 IH))) A); budget
  | |- exists r P', parseTypeIdentifier_loop _ ?A _ = Some (r, P') =>
      apply (proj1 (proj2 (proj2 (proj2 (proj2 (proj2 IH))))) A); budget
  | |- exists r P', parseTypeComposition _ _ = Some (r, P') =>
      apply (proj1 (proj2 (proj2 (proj2 (proj2 (proj2 (proj2 IH))))))); budget
  | |- exists r P', parseTypeComposition_list _ ?A _ = Some (r, P') =>
      apply (proj1 (proj2 (proj2 (proj2 (proj2 (proj2 (proj2 (proj2 IH))))))) A);
      budget
  | |- exists r P', parseTypeTupleBody _ _ = Some (r, P') =>
      apply (proj1 (proj2 (proj2 (proj2 (proj2 (proj2 (proj2 (proj2 (proj2 IH)))))))));
      side
  | |- exists r P', parseTypeAnnotation _ ?m _ = Some (r, P') =>
      apply (proj1 (proj2 IH) m); budget
  | |- exists r P', parseTypeArray ?k ?B ?Q = Some (r, P') =>
      let E := fresh "E" in
      destruct (parseTypeArray_total expr_bounded k B Q) as (? & ? & E & _);
      [budget|rewrite E; eexists _, _; reflexivity]
  | |- context [match ?x with _ => _ end] =>
      lazymatch x with
      | context [match _ with _ => _ end] => fail
      | parseType _ ?m ?Q => pcall (proj1 IH m) (proj1 FWD m) Q
      | parseTypeAnnotation _ ?m ?Q =>
          pcall (proj1 (proj2 IH) m) (proj1 (proj2 FWD) m) Q
      | parseGenericArguments _ ?Q =>
          pcall (proj1 (proj2 (proj2 IH))) (proj1 (proj2 (proj2 FWD))) Q
      | parseGenericArguments_list _ ?A ?Q =>
          pcall (proj1 (proj2 (proj2 (proj2 IH))) A)
                (proj1 (proj2 (proj2 (proj2 FWD))) A) Q
      | parseTypeIdentifier _ ?Q =>
          pcall (proj1 (proj2 (proj2 (proj2 (proj2 IH)))))
                (proj1 (proj2 (proj2 (proj2 (proj2 FWD))))) Q
      | parseTypeIdentifier_loop _ ?A ?Q =>
          pcall (proj1 (proj2 (proj2 (proj2 (proj2 (proj2 IH))))) A)
                (proj1 (proj2 (proj2 (proj2 (proj2 (proj2 FWD))))) A) Q
      | parseTypeComposition _ ?Q =>
          pcall (proj1 (proj2 (proj2 (proj2 (proj2 (proj2 (proj2 IH)))))))
                (proj1 (proj2 (proj2 (proj2 (proj2 (proj2 (proj2 FWD))))))) Q
      | parseTypeComposition_list _ ?A ?Q =>
          pcall (proj1 (proj2 (proj2 (proj2 (proj2 (proj2 (proj2 (proj2 IH))))))) A)
                (proj1 (proj2 (proj2 (proj2 (proj2 (proj2 (proj2 (proj2 FWD))))))) A) Q
      | parseTypeTupleBody _ ?Q =>
          pcall (proj1 (proj2 (proj2 (proj2 (proj2 (proj2 (proj2 (proj2 (proj2 IH)))))))))
                (proj1 (proj2 (proj2 (proj2 (proj2 (proj2 (proj2 (proj2 (proj2 FWD))))))))) Q
      | parseTypeArray ?k ?B ?Q =>
          let E := fresh "E" in
          destruct (parseTypeArray_total expr_bounded k B Q) as (? & ? & E & ?);
          [budget|rewrite E]
      | parseList_elements ?k ?R ?Sp ?cb ?i0 ?l0 ?Q0 =>
          let E := fresh "E" in
          let X := fresh "X" in
          pose proof (fun H1 H2 =>
                        parseList_elements_total cb R Sp (weight (Toks Q0))
                          H1 H2 k i0 l0 Q0) as X;
          destruct X as (? & ? & E & ?);
          [ discriminate
          | let l' := fresh "l" in
            let Q' := fresh "Q" in
            let HW := fresh "HW" in
            let E' := fresh "E" in
            intros l' Q' HW;
            destruct (proj2 (proj2 (proj2 (proj2 (proj2 (proj2 (proj2 (proj2 (proj2 IH))))))))
                        l' Q') as (? & ? & E');
            [ budget
            | eexists _, _; split; [exact E'|];
              apply (proj2 (proj2 (proj2 (proj2 (proj2 (proj2 (proj2 (proj2 (proj2 FWD)))))))))
                in E'; exact E' ]
          | cbn; lia
          | budget
          | rewrite E ]
      | skipUntilAnyOperator ?Q =>
          let E := fresh "E" in
          destruct (skipUntilAnyOperator_total skip_advances Q)
            as (? & E & _ & _ & ?);
          rewrite E
      | consumeStartingLess ?Q =>
          let E := fresh "E" in
          positive;
          match goal with
          | W : startsWithLess _ = true |- _ =>
              destruct (@consumeStartingCharacter_spec "<"%char Q W)
                as (? & E & ? & ?);
              change (consumeStartingLess Q) with (consumeStartingCharacter Q);
              rewrite E
          end
      | consumeStartingGreater ?Q =>
          let E := fresh "E" in
          positive;
          match goal with
          | W : startsWithGreater _ = true |- _ =>
              destruct (@consumeStartingCharacter_spec ">"%char Q W)
                as (? & E & ? & ?);
              change (consumeStartingGreater Q) with (consumeStartingCharacter Q);
              rewrite E
          end
      | _ => destruct x eqn:?
      end
  end.

(** With a recursion budget that covers the input left, every function
    of the committed parser returns. *)
Lemma parser_total n :
  (forall m P, 5 * weight (Toks P) + 3 <= n ->
               exists r P', parseType n m P = Some (r, P')) /\
  (forall m P, 5 * weight (Toks P) + 4 <= n ->
               exists r P', parseTypeAnnotation n m P = Some (r, P')) /\
  (forall P, startsWithLess (Tok P) = true ->
             5 * weight (Toks P) + 1 <= n ->
             exists r P', parseGenericArguments n P = Some (r, P')) /\
  (forall A P, 5 * weight (Toks P) + 4 <= n ->
               exists r P', parseGenericArguments_list n A P = Some (r, P')) /\
  (forall P, 5 * weight (Toks P) + 2 <= n ->
             exists r P', parseTypeIdentifier n P = Some (r, P')) /\
  (forall A P, 5 * weight (Toks P) + 1 <= n ->
               exists r P', parseTypeIdentifier_loop n A P = Some (r, P')) /\
  (forall P, 5 * weight (Toks P) + 1 <= n ->
             exists r P', parseTypeComposition n P = Some (r, P')) /\
  (forall A P, 5 * weight (Toks P) + 3 <= n ->
               exists r P', parseTypeComposition_list n A P = Some (r, P')) /\
  (forall P, is_ (Tok P) tok.l_paren = true ->
             5 * weight (Toks P) + 1 <= n ->
             exists r P', parseTypeTupleBody n P = Some (r, P')) /\
  (forall l P, 5 * weight (Toks P) + 5 <= n ->
               exists r P', parseTypeTupleBody_element n l P = Some (r, P')).
Proof.
  induction n as [|n IH]; [repeat apply conj; intros; lia|].
  assert (FWD := parser_forwards skip_advances expr_bounded attr_bounded n).
  repeat apply conj.
  - intros m P Hn. rewrite parseType_S. repeat ptotal_step IH FWD.
  - intros m P Hn. rewrite parseTypeAnnotation_S. repeat ptotal_step IH FWD.
  - intros P Hs Hn. unfold Tok in Hs. rewrite parseGenericArguments_S.
    repeat ptotal_step IH FWD.
  - intros A P Hn. rewrite parseGenericArguments_list_S. repeat ptotal_step IH FWD.
  - intros P Hn. rewrite parseTypeIdentifier_S. repeat ptotal_step IH FWD.
  - intros A P Hn. rewrite parseTypeIdentifier_loop_S. repeat ptotal_step IH FWD.
  - intros P Hn. rewrite parseTypeComposition_S. repeat ptotal_step IH FWD.
  - intros A P Hn. rewrite parseTypeComposition_list_S. repeat ptotal_step IH FWD.
  - intros P Hp Hn. unfold Tok in Hp. rewrite parseTypeTupleBody_S.
    unfold parseList. repeat ptotal_step IH FWD.
  - intros l P Hn. rewrite parseTypeTupleBody_element_S. repeat ptotal_step IH FWD.
Qed.

(** X12: with a recursion budget that covers the input left, the entry
    points of the committed parser, [parseType] and
    [parseTypeAnnotation], return on every token stream (error recovery
    included), and leave no more input than they found. *)
Theorem parseType_terminates m P :
  (forall n, 5 * weight (Toks P) + 3 <= n ->
             exists r P', parseType n m P = Some (r, P') /\
                          weight (Toks P') <= weight (Toks P)) /\
  (forall n, 5 * weight (Toks P) + 4 <= n ->
             exists r P', parseTypeAnnotation n m P = Some (r, P') /\
                          weight (Toks P') <= weight (Toks P)).
Proof.
  split; intros n Hn.
  - destruct (proj1 (parser_total n) m P Hn) as (r & P' & E).
    exists r, P'. split; [exact E|].
    exact (proj1 (parser_forwards skip_advances expr_bounded attr_bounded n)
             m P r P' E).
  - destruct (proj1 (proj2 (parser_total n)) m P Hn) as (r & P' & E).
    exists r, P'. split; [exact E|].
    exact (proj1 (proj2 (parser_forwards skip_advances expr_bounded
                           attr_bounded n)) m P r P' E).
Qed.

(** X11: with a recursion budget that covers the input left,
    [parseTypeComposition] returns nothing exactly when the opening angle
    bracket is missing after [protocol]: it then stops right after
    [protocol] with the one diagnostic for it.  Once the bracket is
    there it returns a node, whatever follows. *)
Theorem parseTypeComposition_nothing_iff n P :
  5 * weight (Toks P) + 1 <= n ->
  (startsWithLess (peekToken P) = false ->
   parseTypeComposition n P
   = Some (None,
           mkParser (tl (Toks P))
             (Diags P ++ [mkDiag (getLoc (peekToken P))
                            diag.expected_langle_protocol None None]))) /\
  (startsWithLess (peekToken P) = true ->
   exists ty P', parseTypeComposition n P = Some (Some ty, P')).
Proof.
  intros Hn.
  destruct (proj1 (proj2 (proj2 (proj2 (proj2 (proj2 (proj2 (parser_total n)))))))
              P Hn) as (r & P' & E).
  destruct (parseTypeComposition_outcome n P r P' E) as [Hiff Hstop].
  split; intros Hs.
  - assert (r = None) by (apply Hiff; exact Hs). subst r.
    rewrite E, (Hstop eq_refl). reflexivity.
  - destruct r as [ty|].
    + exists ty, P'. exact E.
    + rewrite (proj1 Hiff eq_refl) in Hs. discriminate Hs.
Qed.

(** What the calls of a run left of the input, from [parser_forwards]. *)
Ltac forward_calls FWD :=
  repeat match goal with
         | u : unit |- _ => destruct u
         | H : negb _ = false |- _ => apply negb_false_iff in H
         | H : negb _ = true |- _ => apply negb_true_iff in H
         | H : _ && _ = false |- _ => apply andb_false_iff in H; destruct H
         | H : isNot _ _ = false |- _ =>
             unfold isNot in H; apply negb_false_iff in H
         | E : parseType _ _ _ = Some _ |- _ => apply (proj1 FWD) in E
         | E : parseTypeAnnotation _ _ _ = Some _ |- _ =>
             apply (proj1 (proj2 FWD)) in E
         | E : parseGenericArguments _ _ = Some _ |- _ =>
             apply (proj1 (proj2 (proj2 FWD))) in E; [|solve [cbn; assumption]]
         | E : parseGenericArguments_list _ _ _ = Some _ |- _ =>
             apply (proj1 (proj2 (proj2 (proj2 FWD)))) in E
         | E : parseTypeIdentifier _ _ = Some _ |- _ =>
             apply (proj1 (proj2 (proj2 (proj2 (proj2 FWD))))) in E
         | E : parseTypeIdentifier_loop _ _ _ = Some _ |- _ =>
             apply (proj1 (proj2 (proj2 (proj2 (proj2 (proj2 FWD)))))) in E
         | E : parseTypeComposition _ _ = Some _ |- _ =>
             apply (proj1 (proj2 (proj2 (proj2 (proj2 (proj2 (proj2 FWD))))))) in E
         | E : parseTypeComposition_list _ _ _ = Some _ |- _ =>
             apply (proj1 (proj2 (proj2 (proj2 (proj2 (proj2 (proj2 (proj2 FWD))))))))
               in E
         | E : parseTypeTupleBody _ _ = Some _ |- _ =>
             apply (proj1 (proj2 (proj2 (proj2 (proj2 (proj2 (proj2 (proj2 (proj2 FWD)))))))))
               in E
         | E : parseList_elements _ _ _ _ _ _ _ = Some _ |- _ =>
             eapply parseList_elements_forwards in E;
             [|exact (proj2 (proj2 (proj2 (proj2 (proj2 (proj2 (proj2 (proj2 (proj2 FWD)))))))))]
         | E : parseTypeArray _ _ _ = Some _ |- _ =>
             apply (parseTypeArray_forwards expr_bounded) in E
         | E : skipUntilAnyOperator _ = Some _ |- _ =>
             apply (skipUntilAnyOperator_advances skip_advances) in E
         | E : consumeStartingLess ?Q = Some _,
           W : startsWithLess _ = true |- _ =>
             apply (@consumeStarting_inv "<"%char Q _ _ W) in E
         | E : consumeStartingGreater ?Q = Some _,
           W : startsWithGreater _ = true |- _ =>
             apply (@consumeStarting_inv ">"%char Q _ _ W) in E
         end.

Ltac consumed H FWD := run_hyp H; forward_calls FWD; budget.

Lemma parseTypeIdentifier_consumes n P cs P' :
  parseTypeIdentifier n P = Some (Some cs, P') ->
  weight (Toks P') < weight (Toks P).
Proof.
  destruct n as [|[|n]]; [discriminate| |].
  - rewrite parseTypeIdentifier_S. intros H. run_hyp H.
  - assert (FWD := parser_forwards skip_advances expr_bounded attr_bounded n).
    rewrite parseTypeIdentifier_S. intros H. run_hyp H.
    rewrite parseTypeIdentifier_loop_S in Heqo. unfold parseIdentifier in Heqo.
    consumed Heqo FWD.
Qed.

Lemma parseTypeComposition_consumes n P r P' :
  0 < weight (Toks P) ->
  parseTypeComposition n P = Some (r, P') ->
  weight (Toks P') < weight (Toks P).
Proof.
  destruct n as [|n]; [discriminate|].
  assert (FWD := parser_forwards skip_advances expr_bounded attr_bounded n).
  rewrite parseTypeComposition_S. intros Hw H. consumed H FWD.
Qed.

Lemma parseTypeTupleBody_consumes n P r P' :
  0 < weight (Toks P) ->
  parseTypeTupleBody n P = Some (r, P') ->
  weight (Toks P') < weight (Toks P).
Proof.
  destruct n as [|n]; [discriminate|].
  assert (FWD := parser_forwards skip_advances expr_bounded attr_bounded n).
  rewrite parseTypeTupleBody_S. unfold parseList. intros Hw H. consumed H FWD.
Qed.

(** X13: a type that parses consumes input: when [parseType] returns a
    node, strictly less input is left than it found. *)
Theorem parseType_success_consumes n m P ty P' :
  parseType n m P = Some (Some ty, P') ->
  weight (Toks P') < weight (Toks P).
Proof.
  destruct n as [|n]; [discriminate|].
  assert (FWD := parser_forwards skip_advances expr_bounded attr_bounded n).
  rewrite parseType_S. intros H. run_hyp H.
  all: repeat match goal with
         | E : parseTypeIdentifier _ _ = Some (Some _, _) |- _ =>
             apply parseTypeIdentifier_consumes in E
         | E : parseTypeComposition _ ?Q = Some _,
           K : getKind (hd eofToken (Toks ?Q)) = _ |- _ =>
             apply parseTypeComposition_consumes in E;
             [|apply (weight_pos_kind _ _ K); discriminate]
         | E : parseTypeTupleBody _ ?Q = Some _,
           K : getKind (hd eofToken (Toks ?Q)) = _ |- _ =>
             apply parseTypeTupleBody_consumes in E;
             [|apply (weight_pos_kind _ _ K); discriminate]
         | H : option_map _ ?o = Some _ |- _ =>
             destruct o; cbn in H; [|discriminate H]
         end.
  all: forward_calls FWD; budget.
Qed.

(** What the calls of a run of the prober left of the input, from
    [prober_advances]. *)
Ltac probed_calls ADV :=
  repeat match goal with
         | u : unit |- _ => destruct u
         | H : negb _ = false |- _ => apply negb_false_iff in H
         | H : negb _ = true |- _ => apply negb_true_iff in H
         | H : _ && _ = false |- _ => apply andb_false_iff in H; destruct H
         | H : isNot _ _ = false |- _ =>
             unfold isNot in H; apply negb_false_iff in H
         | E : canParseType _ _ = Some _ |- _ => apply (proj1 ADV) in E
         | E : canParseGenericArguments _ _ = Some _ |- _ =>
             apply (proj1 (proj2 ADV)) in E
         | E : canParseGenericArguments_list _ _ = Some _ |- _ =>
             apply (proj1 (proj2 (proj2 ADV))) in E
         | E : canParseTypeIdentifier _ _ = Some _ |- _ =>
             apply (proj1 (proj2 (proj2 (proj2 ADV)))) in E
         | E : canParseTypeIdentifier_loop _ _ = Some _ |- _ =>
             apply (proj1 (proj2 (proj2 (proj2 (proj2 ADV))))) in E
         | E : canParseTypeComposition _ _ = Some _ |- _ =>
             apply (proj1 (proj2 (proj2 (proj2 (proj2 (proj2 ADV)))))) in E
         | E : canParseTypeComposition_list _ _ = Some _ |- _ =>
             apply (proj1 (proj2 (proj2 (proj2 (proj2 (proj2 (proj2 ADV)))))))
               in E
         | E : canParseTypeTupleBody _ _ = Some _ |- _ =>
             apply (proj1 (proj2 (proj2 (proj2 (proj2 (proj2 (proj2 (proj2 ADV))))))))
               in E
         | E : canParseTypeArray _ _ = Some _ |- _ =>
             apply canParseTypeArray_advances in E
         | E : consumeStartingLess ?Q = Some _,
           W : startsWithLess _ = true |- _ =>
             apply (@consumeStarting_inv "<"%char Q _ _ W) in E
         | E : consumeStartingGreater ?Q = Some _,
           W : startsWithGreater _ = true |- _ =>
             apply (@consumeStarting_inv ">"%char Q _ _ W) in E
         end.

Lemma canParseTypeIdentifier_consumes n P P' :
  canParseTypeIdentifier n P = Some (true, P') ->
  weight (Toks P') < weight (Toks P).
Proof.
  destruct n as [|[|n]]; [discriminate| |].
  - rewrite canParseTypeIdentifier_S. intros H. run_hyp H.
  - assert (ADV := prober_advances skip_advances n).
    rewrite canParseTypeIdentifier_S. intros H. run_hyp H.
    rewrite canParseTypeIdentifier_loop_S in H.
    run_hyp H; probed_calls ADV; budget.
Qed.

Lemma canParseTypeComposition_consumes n P P' :
  0 < weight (Toks P) ->
  canParseTypeComposition n P = Some (true, P') ->
  weight (Toks P') < weight (Toks P).
Proof.
  destruct n as [|n]; [discriminate|].
  assert (ADV := prober_advances skip_advances n).
  rewrite canParseTypeComposition_S. intros Hw H.
  run_hyp H; probed_calls ADV; budget.
Qed.

(** X14: a type that the prober accepts consumes input: when
    [canParseType] answers [true], strictly less input is left than it
    found. *)
Theorem canParseType_success_consumes n P P' :
  canParseType n P = Some (true, P') ->
  weight (Toks P') < weight (Toks P).
Proof.
  destruct n as [|n]; [discriminate|].
  assert (ADV := prober_advances skip_advances n).
  rewrite canParseType_S. intros H. run_hyp H.
  all: repeat match goal with
         | H : negb ?b = false |- _ =>
             apply negb_false_iff in H; try subst b
         | E : canParseTypeIdentifier _ _ = Some (true, _) |- _ =>
             apply canParseTypeIdentifier_consumes in E
         | E : canParseTypeComposition _ ?Q = Some (true, _),
           K : getKind (hd eofToken (Toks ?Q)) = _ |- _ =>
             apply canParseTypeComposition_consumes in E;
             [|apply (weight_pos_kind _ _ K); discriminate]
         end.
  all: probed_calls ADV; budget.
Qed.

(** ** Agreement on the tokens consumed *)

Lemma consumeStartingCharacter_tokens P L P' :
  consumeStartingCharacter P = Some (L, P') ->
  Toks P' = tl (Toks P) \/
  Toks P' = splitRemainder (hd eofToken (Toks P)) :: tl (Toks P).
Proof.
  unfold consumeStartingCharacter. destruct (Nat.eqb _ 1); cbn;
    intros [= _ <-]; cbn; [left|right]; reflexivity.
Qed.

Lemma tokWeight_splitRemainder T : tokWeight (splitRemainder T) <= tokWeight T.
Proof. unfold tokWeight, splitRemainder. cbn. destruct (getText T); cbn; lia. Qed.

Lemma isAnyOperator_not_paren T :
  isAnyOperator T = true -> is_ T tok.l_paren = false.
Proof.
  unfold isAnyOperator. intros H. apply is_false_iff. intros E.
  rewrite !(is_other _ _ _ E) in H by discriminate. discriminate H.
Qed.

Lemma isAnyOperator_splitRemainder T :
  isAnyOperator (splitRemainder T) = isAnyOperator T.
Proof. reflexivity. Qed.

Lemma pft_trans ts1 ts2 ts3 :
  parenFreeTo ts1 ts2 -> parenFreeTo ts2 ts3 -> parenFreeTo ts1 ts3.
Proof.
  intros H. induction H; intros H3; [exact H3| |].
  - apply pft_next; auto.
  - apply pft_split; auto.
Qed.

Lemma pft_weight ts ts' : parenFreeTo ts ts' -> weight ts' <= weight ts.
Proof.
  intros H. induction H; [lia| |].
  - rewrite weight_cons. lia.
  - rewrite weight_cons in *. pose proof (tokWeight_splitRemainder T). lia.
Qed.

(** From an opening parenthesis the cursor gets nowhere. *)
Lemma pft_paren ts F :
  parenFreeTo ts F -> is_ (hd eofToken ts) tok.l_paren = true -> F = ts.
Proof.
  intros H Hp. destruct H; [reflexivity| |]; cbn in Hp.
  - congruence.
  - apply isAnyOperator_not_paren in H. congruence.
Qed.

(** A target that is not before the next token is reached from it. *)
Lemma pft_cons T ts F :
  parenFreeTo (T :: ts) F -> weight F <= weight ts -> parenFreeTo ts F.
Proof.
  intros H. remember (T :: ts) as l eqn:El. revert T ts El.
  induction H as [l|T0 ts0 F _ H _|T0 ts0 F _ H IH]; intros T ts El Hw.
  - subst l. rewrite weight_cons in Hw. unfold tokWeight in Hw. lia.
  - injection El as -> ->. exact H.
  - injection El as -> ->. eapply IH; [reflexivity|exact Hw].
Qed.

Lemma pft_tl ts F :
  parenFreeTo ts F -> weight F <= weight (tl ts) -> parenFreeTo (tl ts) F.
Proof.
  destruct ts as [|T ts]; cbn; [tauto|]. apply pft_cons.
Qed.

Lemma pft_remainder T ts F :
  isAnyOperator T = true ->
  tokWeight (splitRemainder T) < tokWeight T ->
  parenFreeTo (T :: ts) F ->
  weight F <= weight (splitRemainder T :: ts) ->
  parenFreeTo (splitRemainder T :: ts) F.
Proof.
  intros Ho Hlt H Hw. inversion H; subst.
  - rewrite !weight_cons in Hw. lia.
  - apply pft_next; [|assumption].
    apply isAnyOperator_not_paren. exact Ho.
  - assumption.
Qed.

Lemma pft_consumeStartingCharacter c P L P' F :
  startsWithChar c (Tok P) = true ->
  consumeStartingCharacter P = Some (L, P') ->
  parenFreeTo (Toks P) F ->
  weight F <= weight (Toks P') ->
  parenFreeTo (Toks P') F.
Proof.
  intros Hs E H Hw.
  destruct (consumeStartingCharacter_spec _ _ Hs) as (P'' & E' & _ & Hlt).
  rewrite E in E'. injection E' as _ <-.
  pose proof (startsWithChar_nonempty _ _ Hs) as Hne.
  apply startsWith_operator in Hs. unfold Tok in Hs.
  destruct (consumeStartingCharacter_tokens _ _ _ E) as [Et|Et];
    rewrite Et in *.
  - apply pft_tl; assumption.
  - destruct (Toks P) as [|T ts]; [contradiction|]. cbn in *.
    apply pft_remainder; try assumption.
    rewrite !weight_cons in Hlt. lia.
Qed.

Lemma pft_skipMetatypes ts F :
  parenFreeTo ts F -> weight F <= weight (skipMetatypes ts) ->
  parenFreeTo (skipMetatypes ts) F.
Proof.
  enough (H : (parenFreeTo ts F -> weight F <= weight (skipMetatypes ts) ->
               parenFreeTo (skipMetatypes ts) F) /\
              forall T, parenFreeTo (T :: ts) F ->
                        weight F <= weight (skipMetatypes (T :: ts)) ->
                        parenFreeTo (skipMetatypes (T :: ts)) F)
    by apply H.
  induction ts as [|m rest IH]; cbn.
  - split; [tauto|]. intros T. tauto.
  - split; [apply IH|]. intros T.
    destruct ((is_ T tok.period || is_ T tok.period_prefix) && is_ m tok.kw_metatype);
      [|tauto].
    intros H Hw. destruct IH as [IH _].
    pose proof (weight_skipMetatypes rest) as Hr.
    apply IH; [|exact Hw].
    apply pft_cons with (T := m); [|lia].
    apply pft_cons with (T := T); [exact H|]. rewrite weight_cons. lia.
Qed.

Lemma pft_skipQuestions ts F :
  parenFreeTo ts F -> weight F <= weight (skipQuestions ts) ->
  parenFreeTo (skipQuestions ts) F.
Proof.
  induction ts as [|q rest IH]; cbn; [tauto|].
  destruct (negb (isAtStartOfLine q) && is_ q tok.question); [|tauto].
  intros H Hw. pose proof (weight_skipQuestions rest).
  apply IH; [|exact Hw]. apply pft_cons with (T := q); [exact H|lia].
Qed.

Lemma pft_canParseTypeArray n P b P' F :
  canParseTypeArray n P = Some (b, P') ->
  parenFreeTo (Toks P) F -> weight F <= weight (Toks P') ->
  parenFreeTo (Toks P') F.
Proof.
  revert P b P'. induction n as [|n IH]; intros P b P' H HF Hw; [discriminate|].
  rewrite canParseTypeArray_S in H. run_hyp H.
  - pose proof (canParseTypeArray_advances _ _ _ _ H) as [_ Ha]. cbn in Ha.
    pose proof (weight_tl (tl (Toks P))).
    eapply IH; [exact H| |exact Hw]. cbn.
    apply pft_tl; [apply pft_tl; [exact HF|]|]; lia.
  - injection H as <- <-. cbn in *. pose proof (weight_tl (tl (Toks P))).
    apply pft_tl; [apply pft_tl; [exact HF|]|]; lia.
  - injection H as <- <-. cbn in *. apply pft_tl; assumption.
Qed.

Section Within.

Hypothesis expr_diagnoses : ExprDiagnoses C.
Hypothesis attr_appends : AttrAppends C.

Ltac noted pf :=
  let T := type of pf in
  lazymatch goal with
  | _ : T |- _ => fail
  | _ => pose proof pf
  end.

(** What each call of a run of the prober left of the input, the
    equations kept. *)
Ltac probed ADV :=
  repeat match goal with
         | u : unit |- _ => destruct u
         | H : Some _ = Some _ |- _ => injection H; intros; subst; clear H
         | H : negb _ = false |- _ => apply negb_false_iff in H
         | H : negb _ = true |- _ => apply negb_true_iff in H
         | H : ?b = true |- _ => is_var b; subst b
         | H : ?b = false |- _ => is_var b; subst b
         | E : canParseType _ _ = Some _ |- _ =>
             noted (proj2 (proj1 ADV _ _ _ E))
         | E : canParseGenericArguments _ _ = Some _ |- _ =>
             noted (proj2 (proj1 (proj2 ADV) _ _ _ E))
         | E : canParseGenericArguments_list _ _ = Some _ |- _ =>
             noted (proj2 (proj1 (proj2 (proj2 ADV)) _ _ _ E))
         | E : canParseTypeIdentifier _ _ = Some _ |- _ =>
             noted (proj2 (proj1 (proj2 (proj2 (proj2 ADV))) _ _ _ E))
         | E : canParseTypeIdentifier_loop _ _ = Some _ |- _ =>
             noted (proj2 (proj1 (proj2 (proj2 (proj2 (proj2 ADV)))) _ _ _ E))
         | E : canParseTypeComposition _ _ = Some _ |- _ =>
             noted (proj2 (proj1 (proj2 (proj2 (proj2 (proj2 (proj2 ADV))))) _ _ _ E))
         | E : canParseTypeComposition_list _ _ = Some _ |- _ =>
             noted (proj2 (proj1 (proj2 (proj2 (proj2 (proj2 (proj2 (proj2 ADV)))))) _ _ _ E))
         | E : canParseTypeTupleBody _ _ = Some _ |- _ =>
             noted (proj2 (proj1 (proj2 (proj2 (proj2 (proj2 (proj2 (proj2 (proj2 ADV))))))) _ _ _ E))
         | E : canParseTypeArray _ _ = Some _ |- _ =>
             noted (proj2 (canParseTypeArray_advances _ _ _ _ E))
         | E : consumeStartingLess ?Q = Some _,
           W : startsWithLess _ = true |- _ =>
             noted (proj2 (proj2 (@consumeStarting_inv "<"%char Q _ _ W E)))
         | E : consumeStartingGreater ?Q = Some _,
           W : startsWithGreater _ = true |- _ =>
             noted (proj2 (proj2 (@consumeStarting_inv ">"%char Q _ _ W E)))
         end.

Ltac wt := cbn [Toks Diags] in *; positive; weigh.

Ltac pf :=
  cbn [Toks Diags];
  first
    [ assumption
    | apply pft_tl; [pf|wt]
    | apply pft_skipMetatypes; [pf|wt]
    | apply pft_skipQuestions; [pf|wt]
    | match goal with
      | E : consumeStartingLess ?Q = Some (_, ?Q1),
        W : startsWithLess _ = true |- parenFreeTo (Toks ?Q1) _ =>
          apply (pft_consumeStartingCharacter "<"%char Q _ Q1 _ W E); [pf|wt]
      | E : consumeStartingGreater ?Q = Some (_, ?Q1),
        W : startsWithGreater _ = true |- parenFreeTo (Toks ?Q1) _ =>
          apply (pft_consumeStartingCharacter ">"%char Q _ Q1 _ W E); [pf|wt]
      end ].

(** The prober's fact of a call becomes the parser's, once the cursor
    of the call is known to be on the way to the target. *)
Ltac within_with IH E Q Q1 :=
  match goal with
  | _ : parenFreeTo _ ?F |- _ =>
      let R := fresh "R" in
      let W := fresh "W" in
      assert (R : parenFreeTo (Toks Q) F) by pf;
      assert (W : weight F <= weight (Toks Q1)) by wt;
      destruct (IH Q Q1 F R W E) as [? ?]; clear E
  end.

Ltac within IH :=
  repeat match goal with
         | H : exists _, _ |- _ => destruct H
         | E : canParseTypeArray ?k ?Q = Some (true, ?Q1) |- _ =>
             match goal with
             | _ : parenFreeTo _ ?F |- _ =>
                 assert (parenFreeTo (Toks Q1) F)
                   by (apply (pft_canParseTypeArray k Q true Q1 F E); [pf|wt]);
                 pose proof (fun Base => proj1 (array_agree k Base Q Q1) E);
                 clear E
             end
         | E : canParseType ?k ?Q = Some (true, ?Q1) |- _ =>
             within_with (proj1 IH) E Q Q1
         | E : canParseGenericArguments ?k ?Q = Some (true, ?Q1) |- _ =>
             within_with (proj1 (proj2 IH)) E Q Q1
         | E : canParseGenericArguments_list ?k ?Q = Some (true, ?Q1) |- _ =>
             within_with (proj1 (proj2 (proj2 IH))) E Q Q1
         | E : canParseTypeIdentifier ?k ?Q = Some (true, ?Q1) |- _ =>
             within_with (proj1 (proj2 (proj2 (proj2 IH)))) E Q Q1
         | E : canParseTypeIdentifier_loop ?k ?Q = Some (true, ?Q1) |- _ =>
             within_with (proj1 (proj2 (proj2 (proj2 (proj2 IH))))) E Q Q1
         | E : canParseTypeComposition ?k ?Q = Some (true, ?Q1) |- _ =>
             within_with (proj1 (proj2 (proj2 (proj2 (proj2 (proj2 IH)))))) E Q Q1
         | E : canParseTypeComposition_list ?k ?Q = Some (true, ?Q1) |- _ =>
             within_with (proj2 (proj2 (proj2 (proj2 (proj2 (proj2 IH)))))) E Q Q1
         end.

(** An opening parenthesis at the cursor of a call that consumes it:
    the target would be the cursor itself. *)
Ltac paren_first :=
  match goal with
  | K : getKind (hd eofToken (Toks ?P)) = tok.l_paren,
    HF : parenFreeTo (Toks ?P) ?F |- _ =>
      pose proof (pft_paren _ _ HF (is_kind _ _ K)); subst F; wt
  end.

Lemma prober_to_parser_within n :
  (forall P P' F, parenFreeTo (Toks P) F -> weight F <= weight (Toks P') ->
     canParseType n P = Some (true, P') ->
     parenFreeTo (Toks P') F /\
     forall m, exists ty, parseType n m P = Some (Some ty, P')) /\
  (forall P P' F, parenFreeTo (Toks P) F -> weight F <= weight (Toks P') ->
     canParseGenericArguments n P = Some (true, P') ->
     parenFreeTo (Toks P') F /\
     exists A L R,
       parseGenericArguments n P = Some (false, A, L, R, P')) /\
  (forall P P' F, parenFreeTo (Toks P) F -> weight F <= weight (Toks P') ->
     canParseGenericArguments_list n P = Some (true, P') ->
     parenFreeTo (Toks P') F /\
     forall Args, exists A,
       parseGenericArguments_list n Args P = Some (false, A, P')) /\
  (forall P P' F, parenFreeTo (Toks P) F -> weight F <= weight (Toks P') ->
     canParseTypeIdentifier n P = Some (true, P') ->
     parenFreeTo (Toks P') F /\
     exists cs, parseTypeIdentifier n P = Some (Some cs, P')) /\
  (forall P P' F, parenFreeTo (Toks P) F -> weight F <= weight (Toks P') ->
     canParseTypeIdentifier_loop n P = Some (true, P') ->
     parenFreeTo (Toks P') F /\
     forall Comps, exists cs,
       parseTypeIdentifier_loop n Comps P = Some (Some cs, P')) /\
  (forall P P' F, parenFreeTo (Toks P) F -> weight F <= weight (Toks P') ->
     canParseTypeComposition n P = Some (true, P') ->
     parenFreeTo (Toks P') F /\
     exists ty, parseTypeComposition n P = Some (Some ty, P')) /\
  (forall P P' F, parenFreeTo (Toks P) F -> weight F <= weight (Toks P') ->
     canParseTypeComposition_list n P = Some (true, P') ->
     parenFreeTo (Toks P') F /\
     forall Protocols, exists Ps,
       parseTypeComposition_list n Protocols P = Some (false, Ps, P')).
Proof.
  induction n as [|n IH]; [repeat apply conj; intros; discriminate|].
  assert (ADV := prober_advances skip_advances n).
  repeat apply conj; intros P P' F HF Hw H.
  - rewrite canParseType_S in H. run_hyp H; probed ADV.
    all: try (exfalso; paren_first).
    all: within IH.
    all: (split; [pf|intros m; rewrite parseType_S; drive]).
  - rewrite canParseGenericArguments_S in H. run_hyp H; probed ADV.
    all: within IH.
    all: (split; [pf|rewrite parseGenericArguments_S; drive]).
  - rewrite canParseGenericArguments_list_S in H. run_hyp H; probed ADV.
    all: within IH.
    all: (split; [pf|intros Args; rewrite parseGenericArguments_list_S; drive]).
  - rewrite canParseTypeIdentifier_S in H. run_hyp H; probed ADV.
    all: within IH.
    all: (split; [pf|rewrite parseTypeIdentifier_S; drive]).
  - rewrite canParseTypeIdentifier_loop_S in H. run_hyp H; probed ADV.
    all: within IH.
    all: (split; [pf|intros Comps; rewrite parseTypeIdentifier_loop_S; drive]).
  - rewrite canParseTypeComposition_S in H. run_hyp H; probed ADV.
    all: within IH.
    all: (split; [pf|rewrite parseTypeComposition_S; drive]).
  - rewrite canParseTypeComposition_list_S in H. run_hyp H; probed ADV.
    all: within IH.
    all: (split; [pf|intros Protocols; rewrite parseTypeComposition_list_S; drive]).
Qed.

(** What each call of a run of the parser emitted and left of the
    input, the equations kept. *)
Ltac parsed FWD :=
  repeat match goal with
         | H : option_map _ ?o = _ |- _ =>
             destruct o; cbn in H; [|try discriminate H]; try discriminate H
         | H : Some _ = Some _ |- _ => injection H; intros; subst; clear H
         | H : (_, _) = (_, _) |- _ => injection H; intros; subst; clear H
         | H : ?p = (_, _) |- _ => is_var p; subst p
         | H : negb _ = false |- _ => apply negb_false_iff in H
         | H : negb _ = true |- _ => apply negb_true_iff in H
         | H : ?b = true |- _ => is_var b; subst b
         | H : ?b = false |- _ => is_var b; subst b
         | u : unit |- _ => destruct u
         | E : parseMetatypes ?ty ?ts = (_, ?l) |- _ =>
             let Hc := fresh "Hc" in
             pose proof (parseMetatypes_cursor ty ts) as Hc;
             rewrite E in Hc; cbn in Hc; subst l; clear E
         | E : parseOptionals ?ty ?ts = (_, ?l) |- _ =>
             let Hc := fresh "Hc" in
             pose proof (parseOptionals_cursor ty ts) as Hc;
             rewrite E in Hc; cbn in Hc; subst l; clear E
         | E : skipUntilAnyOperator _ = Some _ |- _ =>
             apply skipUntilAnyOperator_diags in E
         | E : consumeStartingLess ?Q = Some _ |- _ =>
             noted (consumeStartingCharacter_diags _ _ _ E)
         | E : consumeStartingGreater ?Q = Some _ |- _ =>
             noted (consumeStartingCharacter_diags _ _ _ E)
         | E : consumeStartingLess ?Q = Some _,
           W : startsWithLess _ = true |- _ =>
             noted (proj2 (proj2 (@consumeStarting_inv "<"%char Q _ _ W E)))
         | E : consumeStartingGreater ?Q = Some _,
           W : startsWithGreater _ = true |- _ =>
             noted (proj2 (proj2 (@consumeStarting_inv ">"%char Q _ _ W E)))
         | E : parseTypeArray _ _ _ = Some _ |- _ =>
             noted (parseTypeArray_emits expr_diagnoses _ _ _ _ _ E)
         | E : parseTypeArray _ _ _ = Some _ |- _ =>
             noted (parseTypeArray_forwards expr_bounded _ _ _ _ _ E)
         | E : parseType _ _ _ = Some _ |- _ =>
             noted (parseType_emits expr_diagnoses attr_appends _ _ _ _ _ E)
         | E : parseType _ _ _ = Some _ |- _ =>
             noted (proj1 FWD _ _ _ _ E)
         | E : parseGenericArguments _ _ = Some _ |- _ =>
             noted (parseGenericArguments_emits expr_diagnoses attr_appends
                      _ _ _ _ _ _ _ E)
         | E : parseGenericArguments _ ?Q = Some _,
           W : startsWithLess _ = true |- _ =>
             noted (proj1 (proj2 (proj2 FWD)) Q _ _ E W)
         | E : parseGenericArguments_list _ _ _ = Some _ |- _ =>
             noted (parseGenericArguments_list_emits expr_diagnoses attr_appends
                      _ _ _ _ _ _ E)
         | E : parseGenericArguments_list _ _ _ = Some _ |- _ =>
             noted (proj1 (proj2 (proj2 (proj2 FWD))) _ _ _ _ E)
         | E : parseTypeIdentifier _ _ = Some _ |- _ =>
             noted (parseTypeIdentifier_emits expr_diagnoses attr_appends
                      _ _ _ _ E)
         | E : parseTypeIdentifier _ _ = Some _ |- _ =>
             noted (proj1 (proj2 (proj2 (proj2 (proj2 FWD)))) _ _ _ E)
         | E : parseTypeIdentifier_loop _ _ _ = Some _ |- _ =>
             noted (parseTypeIdentifier_loop_emits expr_diagnoses attr_appends
                      _ _ _ _ _ E)
         | E : parseTypeIdentifier_loop _ _ _ = Some _ |- _ =>
             noted (proj1 (proj2 (proj2 (proj2 (proj2 (proj2 FWD))))) _ _ _ _ E)
         | E : parseTypeComposition _ _ = Some _ |- _ =>
             noted (parseTypeComposition_emits expr_diagnoses attr_appends
                      _ _ _ _ E)
         | E : parseTypeComposition _ _ = Some _ |- _ =>
             noted (proj1 (proj2 (proj2 (proj2 (proj2 (proj2 (proj2 FWD))))))
                      _ _ _ E)
         | E : parseTypeComposition_list _ _ _ = Some _ |- _ =>
             noted (parseTypeComposition_list_emits expr_diagnoses attr_appends
                      _ _ _ _ _ _ E)
         | E : parseTypeComposition_list _ _ _ = Some _ |- _ =>
             noted (proj1 (proj2 (proj2 (proj2 (proj2 (proj2 (proj2 (proj2 FWD)))))))
                      _ _ _ _ E)
         | E : parseTypeTupleBody _ _ = Some _ |- _ =>
             noted (proj1 (proj2 (proj2 (proj2 (proj2 (proj2 (proj2 (proj2 (proj2 FWD))))))))
                      _ _ _ E)
         end.

Ltac flags :=
  repeat match goal with
         | H : emits ?b _ _ |- _ => is_var b; destruct b
         end.

(** Arithmetic on the numbers of diagnostics. *)
Ltac count :=
  unfold emits in *; cbn in *;
  repeat match goal with
         | H : _ /\ _ |- _ => destruct H
         | H : true = true -> _ |- _ => specialize (H eq_refl)
         | H : false = true -> _ |- _ => clear H
         | H : Diags ?Q = ?X |- _ =>
             apply (f_equal (@List.length _)) in H
         | H : extends ?a ?b |- _ =>
             lazymatch goal with
             | _ : List.length a <= List.length b |- _ => fail
             | _ => pose proof (extends_length a b H)
             end
         end;
  rewrite ?length_app in *; cbn [List.length] in *; lia.

Ltac same :=
  apply extends_same_length;
  [solve [unfold emits in *; cbn in *; tauto]|count].

(** Turns the facts of the parser's calls into facts of the prober's. *)
Ltac probe_with IH IH' E n Q Q' f :=
  match goal with
  | _ : parenFreeTo _ ?F |- _ =>
      let R := fresh "R" in
      let W := fresh "W" in
      let E' := fresh "E" in
      assert (R : parenFreeTo (Toks Q) F) by pf;
      assert (W : weight F <= weight (Toks Q')) by wt;
      assert (E' : f n Q = Some (true, Q'))
        by (eapply IH; [exact R|exact W|try solve [cbn; assumption]..|exact E|same]);
      pose proof (proj1 (IH' Q Q' F R W E'));
      clear E
  end.

Ltac probe IH :=
  repeat match goal with
         | E : parseTypeArray ?n ?B ?Q = Some (Some ?r, ?Q') |- _ =>
             match goal with
             | _ : parenFreeTo _ ?F |- _ =>
                 let E' := fresh "E" in
                 assert (E' : canParseTypeArray n Q = Some (true, Q'))
                   by (apply (array_agree n B Q Q'); exists r; exact E);
                 assert (parenFreeTo (Toks Q') F)
                   by (apply (pft_canParseTypeArray n Q true Q' F E'); [pf|wt]);
                 clear E
             end
         | E : parseType ?n _ ?Q = Some (Some _, ?Q') |- _ =>
             probe_with (proj1 IH) (proj1 (prober_to_parser_within n))
               E n Q Q' constr:(canParseType)
         | E : parseGenericArguments ?n ?Q = Some (false, _, _, _, ?Q') |- _ =>
             probe_with (proj1 (proj2 IH))
               (proj1 (proj2 (prober_to_parser_within n)))
               E n Q Q' constr:(canParseGenericArguments)
         | E : parseGenericArguments_list ?n _ ?Q = Some (false, _, ?Q') |- _ =>
             probe_with (proj1 (proj2 (proj2 IH)))
               (proj1 (proj2 (proj2 (prober_to_parser_within n))))
               E n Q Q' constr:(canParseGenericArguments_list)
         | E : parseTypeIdentifier ?n ?Q = Some (Some _, ?Q') |- _ =>
             probe_with (proj1 (proj2 (proj2 (proj2 IH))))
               (proj1 (proj2 (proj2 (proj2 (prober_to_parser_within n)))))
               E n Q Q' constr:(canParseTypeIdentifier)
         | E : parseTypeIdentifier_loop ?n _ ?Q = Some (Some _, ?Q') |- _ =>
             probe_with (proj1 (proj2 (proj2 (proj2 (proj2 IH)))))
               (proj1 (proj2 (proj2 (proj2 (proj2 (prober_to_parser_within n))))))
               E n Q Q' constr:(canParseTypeIdentifier_loop)
         | E : parseTypeComposition ?n ?Q = Some (Some _, ?Q') |- _ =>
             probe_with (proj1 (proj2 (proj2 (proj2 (proj2 (proj2 IH))))))
               (proj1 (proj2 (proj2 (proj2 (proj2 (proj2 (prober_to_parser_within n)))))))
               E n Q Q' constr:(canParseTypeComposition)
         | E : parseTypeComposition_list ?n _ ?Q = Some (false, _, ?Q') |- _ =>
             probe_with (proj2 (proj2 (proj2 (proj2 (proj2 (proj2 IH))))))
               (proj2 (proj2 (proj2 (proj2 (proj2 (proj2 (prober_to_parser_within n)))))))
               E n Q Q' constr:(canParseTypeComposition_list)
         end.

(** A tuple body consumes its opening parenthesis. *)
Ltac tuple_first :=
  match goal with
  | E : parseTypeTupleBody _ ?Q = Some _,
    K : getKind (hd eofToken (Toks ?Q)) = tok.l_paren |- _ =>
      pose proof (parseTypeTupleBody_consumes _ _ _ _
                    (weight_pos_kind _ _ K ltac:(discriminate)) E);
      paren_first
  end.

Lemma parser_to_prober_within n :
  (forall m P ty P' F, parenFreeTo (Toks P) F ->
     weight F <= weight (Toks P') ->
     parseType n m P = Some (Some ty, P') -> Diags P' = Diags P ->
     canParseType n P = Some (true, P')) /\
  (forall P A L R P' F, parenFreeTo (Toks P) F ->
     weight F <= weight (Toks P') ->
     startsWithLess (Tok P) = true ->
     parseGenericArguments n P = Some (false, A, L, R, P') ->
     Diags P' = Diags P ->
     canParseGenericArguments n P = Some (true, P')) /\
  (forall Args P A P' F, parenFreeTo (Toks P) F ->
     weight F <= weight (Toks P') ->
     parseGenericArguments_list n Args P = Some (false, A, P') ->
     Diags P' = Diags P ->
     canParseGenericArguments_list n P = Some (true, P')) /\
  (forall P cs P' F, parenFreeTo (Toks P) F ->
     weight F <= weight (Toks P') ->
     parseTypeIdentifier n P = Some (Some cs, P') -> Diags P' = Diags P ->
     canParseTypeIdentifier n P = Some (true, P')) /\
  (forall Comps P cs P' F, parenFreeTo (Toks P) F ->
     weight F <= weight (Toks P') ->
     parseTypeIdentifier_loop n Comps P = Some (Some cs, P') ->
     Diags P' = Diags P ->
     canParseTypeIdentifier_loop n P = Some (true, P')) /\
  (forall P ty P' F, parenFreeTo (Toks P) F ->
     weight F <= weight (Toks P') ->
     parseTypeComposition n P = Some (Some ty, P') -> Diags P' = Diags P ->
     canParseTypeComposition n P = Some (true, P')) /\
  (forall Protocols P Ps P' F, parenFreeTo (Toks P) F ->
     weight F <= weight (Toks P') ->
     parseTypeComposition_list n Protocols P = Some (false, Ps, P') ->
     Diags P' = Diags P ->
     canParseTypeComposition_list n P = Some (true, P')).
Proof.
  induction n as [|n IH];
    [repeat apply conj; intros; discriminate|].
  assert (FWD := parser_forwards skip_advances expr_bounded attr_bounded n).
  repeat apply conj.
  - intros m P ty P' F HF Hw H Hd. rewrite parseType_S in H.
    run_hyp H; parsed FWD; flags.
    all: try (exfalso; tuple_first).
    all: try (exfalso; count).
    all: probe IH.
    all: rewrite canParseType_S; drive.
  - intros P A L R P' F HF Hw Hs H Hd. unfold Tok in Hs.
    rewrite parseGenericArguments_S in H.
    run_hyp H; parsed FWD; flags.
    all: try (exfalso; count).
    all: probe IH.
    all: rewrite canParseGenericArguments_S; drive.
  - intros Args P A P' F HF Hw H Hd. rewrite parseGenericArguments_list_S in H.
    run_hyp H; parsed FWD; flags.
    all: try (exfalso; count).
    all: probe IH.
    all: rewrite canParseGenericArguments_list_S; drive.
  - intros P cs P' F HF Hw H Hd. rewrite parseTypeIdentifier_S in H.
    run_hyp H; parsed FWD; flags.
    all: try (exfalso; count).
    all: probe IH.
    all: rewrite canParseTypeIdentifier_S; drive.
  - intros Comps P cs P' F HF Hw H Hd. rewrite parseTypeIdentifier_loop_S in H.
    run_hyp H; parsed FWD; flags.
    all: try (exfalso; count).
    all: probe IH.
    all: rewrite canParseTypeIdentifier_loop_S; drive.
  - intros P ty P' F HF Hw H Hd. rewrite parseTypeComposition_S in H.
    run_hyp H; parsed FWD; flags.
    all: try (exfalso; count).
    all: probe IH.
    all: rewrite canParseTypeComposition_S; drive.
  - intros Protocols P Ps P' F HF Hw H Hd.
    rewrite parseTypeComposition_list_S in H.
    run_hyp H; parsed FWD; flags.
    all: try (exfalso; count).
    all: probe IH.
    all: rewrite canParseTypeComposition_list_S; drive.
Qed.


End Within.

End ParserTermination.

(** X15: on a token stream without an opening parenthesis the prober and
    the parser agree on a generic argument list: at a token that starts
    with [<], [canParseGenericArguments] answers [true] and stops at a
    cursor exactly when [parseGenericArguments] returns without error,
    stops at that cursor and emits no diagnostic. *)
Theorem canParseGenericArguments_agrees_with_parseGenericArguments n P P' :
  ExprDiagnoses C -> AttrAppends C ->
  noParen (Toks P) = true ->
  startsWithLess (Tok P) = true ->
  (canParseGenericArguments n P = Some (true, P') <->
   (exists Args LAngleLoc RAngleLoc,
       parseGenericArguments n P
       = Some (false, Args, LAngleLoc, RAngleLoc, P')) /\
   Diags P' = Diags P).
Proof.
  intros He Ha Hn Hs. split.
  - intros H. split.
    + apply (proj1 (proj2 (prober_to_parser n))); assumption.
    + exact (proj1 (proj2 (prober_diags n)) P true P' H).
  - intros [(Args & L & R & H) Hd].
    exact (proj1 (proj2 (parser_to_prober He Ha n)) P Args L R P' Hn Hs H Hd).
Qed.

(** X16: looking ahead, then committing.  When
    [canParseAsGenericArgumentList] answers [true] on a token stream
    without an opening parenthesis, the cursor is where it was, and
    [parseGenericArguments] run from there returns without error and
    without a diagnostic, stopping at a disambiguating token. *)
Theorem lookahead_then_commit n P P0 :
  noParen (Toks P) = true ->
  canParseAsGenericArgumentList n P = Some (true, P0) ->
  P0 = P /\
  exists Args LAngleLoc RAngleLoc P',
    parseGenericArguments n P = Some (false, Args, LAngleLoc, RAngleLoc, P') /\
    Diags P' = Diags P /\
    isGenericTypeDisambiguatingToken (Tok P') = true.
Proof.
  intros Hn H. unfold canParseAsGenericArgumentList, BacktrackingScope in H.
  cbn in H.
  destruct (negb (isAnyOperator (hd eofToken (Toks P))) ||
            negb (String.eqb (getText (hd eofToken (Toks P))) "<"));
    cbn in H; [discriminate H|].
  destruct (canParseGenericArguments n P) as [[[|] P1]|] eqn:E; cbn in H;
    try discriminate H.
  injection H as Hd <-. split; [reflexivity|].
  destruct (proj1 (proj2 (prober_to_parser n)) P P1 Hn E)
    as (_ & Args & L & R & Hp).
  exists Args, L, R, P1. split; [exact Hp|]. split; [|exact Hd].
  exact (proj1 (proj2 (prober_diags n)) P true P1 E).
Qed.

End Properties.

(** * The sample collaborators meet what is assumed of collaborators *)

Lemma skipSingleFuel_S n T rest :
  Sample.skipSingleFuel (S n) (T :: rest) =
  match Sample.closerOf (getKind T) with
  | Some K =>
      let ts' := Sample.skipUntilFuel n K rest in
      if is_ (hd eofToken ts') K then tl ts' else ts'
  | None => rest
  end.
Proof. reflexivity. Qed.

Lemma skipUntilFuel_S n K T rest :
  Sample.skipUntilFuel (S n) K (T :: rest) =
  if is_ T tok.eof || is_ T K then T :: rest
  else Sample.skipUntilFuel n K (Sample.skipSingleFuel n (T :: rest)).
Proof. reflexivity. Qed.

Lemma sample_skip_weights n :
  (forall ts, ts <> [] -> weight (Sample.skipSingleFuel n ts) < weight ts) /\
  (forall K ts, weight (Sample.skipUntilFuel n K ts) <= weight ts).
Proof.
  induction n as [|n [IH1 IH2]]; split.
  - intros ts H. apply weight_tl_lt. exact H.
  - intros K ts. cbn. lia.
  - intros [|T rest] H; [congruence|]. rewrite skipSingleFuel_S.
    assert (0 < tokWeight T) by (unfold tokWeight; lia).
    rewrite weight_cons.
    destruct (Sample.closerOf (getKind T)) as [K|]; [|lia].
    cbn zeta. specialize (IH2 K rest).
    destruct (is_ _ K); [|lia].
    pose proof (weight_tl (Sample.skipUntilFuel n K rest)). lia.
  - intros K [|T rest]; [cbn; lia|]. rewrite skipUntilFuel_S.
    destruct (is_ T tok.eof || is_ T K); [lia|].
    specialize (IH1 (T :: rest) ltac:(discriminate)).
    specialize (IH2 K (Sample.skipSingleFuel n (T :: rest))). lia.
Qed.

Lemma sample_skip_advances : SkipAdvances Sample.collaborators.
Proof.
  intros ts H. cbn. unfold Sample.skipSingle.
  apply sample_skip_weights. intros ->. cbn in H. discriminate.
Qed.

Lemma sample_expr_bounded : ExprBounded Sample.collaborators.
Proof.
  intros D P. cbn. unfold Sample.parseExpr.
  destruct (is_ (Tok P) tok.integer_literal || is_ (Tok P) tok.identifier); cbn.
  - apply weight_tl.
  - lia.
Qed.

Lemma sample_attributeNames_weight ts :
  weight (snd (Sample.attributeNames ts)) <= weight ts.
Proof.
  induction ts as [|T rest IH]; cbn; [lia|].
  destruct (is_ T tok.identifier); cbn; [|lia].
  destruct (Sample.attributeNames rest) as [names ts']. cbn in *.
  rewrite weight_cons. lia.
Qed.

Lemma sample_dropUntilRSquare_weight ts :
  weight (Sample.dropUntilRSquare ts) <= weight ts.
Proof.
  induction ts as [|T rest IH]; cbn; [lia|].
  rewrite weight_cons. destruct (is_ T tok.r_square); lia.
Qed.

Lemma sample_attr_bounded : AttrBounded Sample.collaborators.
Proof.
  intros P. cbn. unfold Sample.parseAttributeList.
  destruct (is_ (Tok P) tok.l_square); cbn; [|lia].
  pose proof (sample_attributeNames_weight (tl (Toks P))) as H.
  destruct (Sample.attributeNames (tl (Toks P))) as [names ts]. cbn in H.
  pose proof (weight_tl (Toks P)).
  destruct (is_ (hd eofToken ts) tok.r_square); cbn.
  - pose proof (weight_tl ts). lia.
  - pose proof (sample_dropUntilRSquare_weight ts). lia.
Qed.

Lemma sample_expr_diagnoses : ExprDiagnoses Sample.collaborators.
Proof.
  intros D P. cbn. unfold Sample.parseExpr.
  destruct (is_ (Tok P) tok.integer_literal || is_ (Tok P) tok.identifier); cbn.
  - split; [exists []; symmetry; apply app_nil_r|discriminate].
  - split; [eexists; reflexivity|].
    intros _. rewrite length_app. cbn. lia.
Qed.

Lemma sample_attr_appends : AttrAppends Sample.collaborators.
Proof.
  intros P. cbn. unfold Sample.parseAttributeList.
  destruct (is_ (Tok P) tok.l_square); cbn.
  - destruct (Sample.attributeNames (tl (Toks P))) as [names ts].
    destruct (is_ (hd eofToken ts) tok.r_square); cbn.
    + exists []. symmetry. apply app_nil_r.
    + eexists. reflexivity.
  - exists []. symmetry. apply app_nil_r.
Qed.

(** * Concrete runs *)

Section ConcreteRuns.

Import Sample(token, start, T_node, two_slices, T_two_slices, sized_4,
  sized_plus, Int_node, Foo_dot_bar, kw_metatype_token, bad_attribute_Int,
  attribute_Int, generic_then_brace, generic_missing_comma, protocol_A_B,
  tuple_ellipsis_only, tuple_Int_ellipsis, Array_of_Int).

Let C := Sample.collaborators.

(** C9 at [T[][]]. *)
Lemma parseTypeArray_two_slices_at_T :
  parseTypeArray C 2 T_node (start two_slices)
  = Some (Some (ArrayTypeRepr
                  (ArrayTypeRepr T_node None (mkRange (Some 3) (Some 4)))
                  None (mkRange (Some 1) (Some 2))),
          start [token tok.eof "" 5]).
Proof.
  exact (parseTypeArray_two_slices C 0 T_node
           (token tok.l_square "[" 1) (token tok.r_square "]" 2)
           (token tok.l_square "[" 3) (token tok.r_square "]" 4)
           [token tok.eof "" 5] []
           eq_refl eq_refl eq_refl eq_refl).
Defined.

(** The whole of [T[][]] through [parseType]. *)
Example parseType_T_two_slices :
  parseType C 3 diag.expected_type (start T_two_slices)
  = Some (Some (ArrayTypeRepr
                  (ArrayTypeRepr T_node None (mkRange (Some 3) (Some 4)))
                  None (mkRange (Some 1) (Some 2))),
          start [token tok.eof "" 5]).
Proof. vm_compute. reflexivity. Qed.



(** C3, as stated, fails at [[+] Int]: attribute parsing fails and
    [parseTypeAnnotation] still returns a node. *)
Lemma parseTypeAnnotation_after_failed_attributes :
  fst (fst (parseAttributeList C (start bad_attribute_Int))) = true /\
  exists ty P',
    parseTypeAnnotation C 4 diag.expected_type (start bad_attribute_Int)
    = Some (Some ty, P').
Proof. split; [reflexivity|]. eexists _, _. vm_compute. reflexivity. Qed.

(** C3 (amended) at [[a] Int]. *)
Lemma parseTypeAnnotation_wraps_at_attribute_Int :
  parseTypeAnnotation C 4 diag.expected_type (start attribute_Int)
  = Some (Some (AttributedTypeRepr ["a"%string]
                  (Some (IdentTypeRepr [mkComponent (Some 4) "Int"%string [] None]))),
          start [token tok.eof "" 7]).
Proof.
  destruct (parseTypeAnnotation_wraps C 3 diag.expected_type
              (start attribute_Int) false ["a"%string]
              (start [token tok.identifier "Int" 4; token tok.eof "" 7])
              (Some (IdentTypeRepr [mkComponent (Some 4) "Int"%string [] None]))
              (start [token tok.eof "" 7]) eq_refl eq_refl)
    as (r & E & _ & H).
  rewrite E. f_equal. f_equal.
  apply (H _ eq_refl). discriminate.
Defined.

(** C4, as stated, fails at [Foo.bar]: [parseType] does not stop before
    the period. *)
Lemma parseType_Foo_dot_bar_consumes_separator :
  ~ (exists r ds,
        parseType C 4 diag.expected_type (start Foo_dot_bar)
        = Some (r, mkParser (tl Foo_dot_bar) ds)).
Proof. intros (r & ds & E). vm_compute in E. discriminate E. Qed.

(** C4 (amended) at [Foo.bar], and at [Foo.3], where the period is
    consumed before the literal is refused. *)
Lemma parseTypeIdentifier_dotted_name_at_Foo_dot_bar :
  parseTypeIdentifier C 3 (start Foo_dot_bar)
  = Some (Some [mkComponent (Some 0) "Foo"%string [] None;
                mkComponent (Some 4) "bar"%string [] None],
          start [token tok.eof "" 7]) /\
  parseTypeIdentifier C 3
    (start [token tok.identifier "Foo" 0; token tok.period "." 3;
            token tok.integer_literal "3" 4; token tok.eof "" 5])
  = Some (None,
          mkParser [token tok.integer_literal "3" 4; token tok.eof "" 5]
            [mkDiag (Some 4) diag.expected_identifier_in_dotted_type
               None None]).
Proof.
  split.
  - exact (proj1 (proj2 (proj2
             (parseTypeIdentifier_dotted_name C 0
                (token tok.identifier "Foo" 0) (token tok.period "." 3)
                (token tok.identifier "bar" 4) kw_metatype_token
                [token tok.eof "" 7] []
                eq_refl eq_refl ltac:(discriminate) eq_refl)))
             eq_refl eq_refl eq_refl).
  - exact (proj1 (proj2
             (parseTypeIdentifier_dotted_name C 0
                (token tok.identifier "Foo" 0) (token tok.period "." 3)
                (token tok.integer_literal "3" 4) kw_metatype_token
                [token tok.eof "" 5] []
                eq_refl eq_refl ltac:(discriminate) eq_refl))
             eq_refl).
Defined.

(** C5, as stated, fails at [<Int>] followed by [{] on a new line: the
    token after [>] is outside the set the claim lists, and the lookahead
    answers [true]. *)
Lemma canParseAsGenericArgumentList_before_brace :
  exists P1,
    canParseGenericArguments C 10 (start generic_then_brace) = Some (true, P1) /\
    specDisambiguatingToken (Tok P1) = false /\
    canParseAsGenericArgumentList C 10 (start generic_then_brace)
    = Some (true, start generic_then_brace).
Proof. eexists. split; [vm_compute; reflexivity|]. split; reflexivity. Qed.

(** C6 at [<Int> {]. *)
Lemma canParseAsGenericArgumentList_lookahead_at_generic :
  exists b,
    canParseAsGenericArgumentList C (5 * weight generic_then_brace + 1)
      (start generic_then_brace)
    = Some (b, start generic_then_brace).
Proof.
  exact (proj2 (canParseAsGenericArgumentList_lookahead C
                  (start generic_then_brace) sample_skip_advances)).
Defined.


(** C8 at [(...)]: [parseTypeTupleBody] returns an empty tuple node, and
    what it emits is the diagnostics of the failed element and of the
    unclosed list; the empty-tuple-ellipsis diagnostic is not among them. *)
Theorem parseTypeTupleBody_ellipsis_only :
  exists P',
    parseTypeTupleBody C 5 (start tuple_ellipsis_only)
    = Some (Some (TupleTypeRepr [] (mkRange (Some 0) (Some 1)) None), P') /\
    map DiagID (Diags P')
    = [diag.expected_type; diag.expected_rparen_tuple_type_list;
       diag.opening_paren].
Proof. eexists. split; vm_compute; reflexivity. Qed.

(** [(Int...)] parses to a one-element tuple with the ellipsis recorded. *)
Example parseTypeTupleBody_Int_ellipsis :
  parseTypeTupleBody C 8 (start tuple_Int_ellipsis)
  = Some (Some (TupleTypeRepr
                  [IdentTypeRepr [mkComponent (Some 1) "Int"%string [] None]]
                  (mkRange (Some 0) (Some 8)) (Some 4)),
          start [token tok.eof "" 8]).
Proof. vm_compute. reflexivity. Qed.

(** C10 at [<Int Int> x]. *)
Lemma parseGenericArguments_failure_at_missing_comma :
  parseGenericArguments C 6 (start generic_missing_comma)
  = Some (true, [IdentTypeRepr [mkComponent (Some 1) "Int"%string [] None]],
          Some 0, Some 8,
          mkParser [token tok.identifier "x" 10; token tok.eof "" 11]
            [mkDiag (Some 5) diag.expected_rangle_generic_arg_list None None;
             mkDiag (Some 0) diag.opening_angle None None]) /\
  [token tok.identifier "x" 10; token tok.eof "" 11] <> generic_missing_comma.
Proof.
  assert (E : parseGenericArguments C 6 (start generic_missing_comma)
              = Some (true,
                      [IdentTypeRepr [mkComponent (Some 1) "Int"%string [] None]],
                      Some 0, Some 8,
                      mkParser [token tok.identifier "x" 10; token tok.eof "" 11]
                        [mkDiag (Some 5) diag.expected_rangle_generic_arg_list
                           None None;
                         mkDiag (Some 0) diag.opening_angle None None]))
    by (vm_compute; reflexivity).
  split; [exact E|].
  destruct (parseGenericArguments_failure_keeps_cursor C 5
              (start generic_missing_comma) _ _ _ _
              sample_skip_advances sample_expr_bounded sample_attr_bounded
              eq_refl E)
    as (P1 & P2 & P3 & _ & _ & _ & _ & _ & _ & H).
  exact H.
Defined.


(** No parenthesis before the [()] of [Array<Int>()]. *)
Lemma Array_of_Int_call_free :
  parenFreeTo Sample.Array_of_Int_call Sample.call_parentheses.
Proof.
  unfold Sample.Array_of_Int_call.
  repeat (apply pft_next; [reflexivity|]). apply pft_here.
Defined.


End ConcreteRuns.

(** * Concrete runs of the further properties *)

Section FurtherRuns.

Import Sample(token, start, Int_node, Foo_dot_bar, Array_of_Int, protocol_A_B,
  tuple_Int_ellipsis, three_clauses, Int_metatype_twice_optional,
  protocol_without_angle, function_of_tuple).

Let C := Sample.collaborators.

(** X1 at [(a: Int, Array<Int>) -> Int?]. *)
Lemma canParseType_terminates_at_function_of_tuple :
  exists b P',
    canParseType C 193 (start function_of_tuple) = Some (b, P') /\
    weight (Toks P') <= weight (Toks (start function_of_tuple)).
Proof.
  apply (canParseType_terminates C 193 (start function_of_tuple)
           sample_skip_advances).
  vm_compute. lia.
Defined.

(** X2 at [protocol<A B>], which the prober rejects. *)
Lemma prober_emits_no_diagnostic_at_protocol_A_B :
  Diags (start [token tok.identifier "B" 11; token tok.oper_binary ">" 12;
                token tok.eof "" 13])
  = Diags (start protocol_A_B).
Proof.
  exact (prober_emits_no_diagnostic C 5 (start protocol_A_B) false _
           (or_introl eq_refl)).
Defined.

(** X3 at [protocol A]: [parseType] returns nothing, with a diagnostic. *)
Lemma parser_failure_is_diagnosed_at_protocol_without_angle :
  List.length (Diags (start protocol_without_angle))
  < List.length
      (Diags (mkParser [token tok.identifier "A" 9; token tok.eof "" 10]
                [mkDiag (Some 9) diag.expected_langle_protocol None None])).
Proof.
  exact (proj2 (proj1 (parser_failure_is_diagnosed C 4
                         sample_expr_diagnoses sample_attr_appends)
                  diag.expected_type (start protocol_without_angle) None _
                  eq_refl)
           eq_refl).
Defined.

(** X5 at [Int[][][]]. *)
Lemma parseTypeArray_slices_at_three_clauses :
  parseTypeArray C 3 Int_node
    (start (sliceTokens three_clauses ++ [token tok.eof "" 7]))
  = Some (Some (ArrayTypeRepr
                  (ArrayTypeRepr
                     (ArrayTypeRepr Int_node None (mkRange (Some 5) (Some 6)))
                     None (mkRange (Some 3) (Some 4)))
                  None (mkRange (Some 1) (Some 2))),
          start [token tok.eof "" 7]).
Proof.
  exact (parseTypeArray_slices C 0 Int_node three_clauses
           [token tok.eof "" 7] [] ltac:(discriminate) eq_refl eq_refl).
Defined.

(** X7 at [Int.metatype??]. *)
Lemma parseType_suffixes_at_Int_metatype_twice_optional :
  parseType C 4 diag.expected_type (start Int_metatype_twice_optional)
  = Some (Some (OptionalTypeRepr
                  (OptionalTypeRepr
                     (MetaTypeTypeRepr
                        (IdentTypeRepr
                           [mkComponent (Some 0) "Int"%string [] None])
                        (Some 4))
                     (Some 12))
                  (Some 13)),
          start [token tok.eof "" 14]).
Proof.
  exact (parseType_suffixes C 3 diag.expected_type
           (start Int_metatype_twice_optional)
           [mkComponent (Some 0) "Int"%string [] None]
           (start (tl Int_metatype_twice_optional))
           [(token tok.period "." 3, token tok.kw_metatype "metatype" 4)]
           [token tok.question "?" 12; token tok.question "?" 13]
           [token tok.eof "" 14]
           (or_introl eq_refl) eq_refl eq_refl eq_refl eq_refl
           eq_refl eq_refl eq_refl eq_refl eq_refl).
Defined.

(** X8 at [Foo.bar]. *)
Lemma parseTypeIdentifier_first_component_at_Foo_dot_bar :
  exists c more,
    [mkComponent (Some 0) "Foo"%string [] None;
     mkComponent (Some 4) "bar"%string [] None] = c :: more /\
    getIdentifier c = "Foo"%string /\ getIdLoc c = Some 0.
Proof.
  exact (parseTypeIdentifier_first_component C 3 (start Foo_dot_bar) _ _
           eq_refl).
Defined.

(** X9 at the [<Int>] of [Array<Int>]. *)
Lemma parseGenericArguments_has_argument_at_Array_of_Int :
  [IdentTypeRepr [mkComponent (Some 6) "Int"%string [] None]] <> [] /\
  Some 5 = getLoc (Tok (start (tl Array_of_Int))).
Proof.
  exact (parseGenericArguments_has_argument C 6 (start (tl Array_of_Int))
           _ _ (Some 9) (start [token tok.eof "" 10]) eq_refl).
Defined.

(** X10 at the element of [(Int...)]. *)
Lemma parseTypeTupleBody_element_effect_at_Int_ellipsis :
  exists e,
    [IdentTypeRepr [mkComponent (Some 1) "Int"%string [] None]] = [] ++ [e].
Proof.
  exact (proj1 (proj2 (parseTypeTupleBody_element_effect C 6
                         (mkTupleLocals [] false None false)
                         (start (tl tuple_Int_ellipsis)) false
                         (mkTupleLocals
                            [IdentTypeRepr
                               [mkComponent (Some 1) "Int"%string [] None]]
                            true (Some 4) false)
                         (start [token tok.r_paren ")" 7; token tok.eof "" 8])
                         eq_refl))
           eq_refl).
Defined.

(** X11 at [protocol A] and at [protocol<A B>]. *)
Lemma parseTypeComposition_nothing_iff_at_protocols :
  parseTypeComposition C 61 (start protocol_without_angle)
  = Some (None,
          mkParser [token tok.identifier "A" 9; token tok.eof "" 10]
            [mkDiag (Some 9) diag.expected_langle_protocol None None]) /\
  exists ty P', parseTypeComposition C 91 (start protocol_A_B)
                = Some (Some ty, P').
Proof.
  split.
  - apply (parseTypeComposition_nothing_iff C sample_skip_advances
             sample_expr_bounded sample_attr_bounded 61
             (start protocol_without_angle)); [vm_compute; lia|reflexivity].
  - apply (parseTypeComposition_nothing_iff C sample_skip_advances
             sample_expr_bounded sample_attr_bounded 91
             (start protocol_A_B)); [vm_compute; lia|reflexivity].
Defined.

(** X12 at [(a: Int, Array<Int>) -> Int?]. *)
Lemma parseType_terminates_at_function_of_tuple :
  exists r P',
    parseType C 193 diag.expected_type (start function_of_tuple)
    = Some (r, P') /\
    weight (Toks P') <= weight (Toks (start function_of_tuple)).
Proof.
  apply (proj1 (parseType_terminates C sample_skip_advances sample_expr_bounded
                  sample_attr_bounded diag.expected_type
                  (start function_of_tuple)) 193).
  vm_compute. lia.
Defined.

(** X13 at [(a: Int, Array<Int>) -> Int?]. *)
Lemma parseType_success_consumes_at_function_of_tuple :
  weight [token tok.eof "" 28] < weight function_of_tuple.
Proof.
  exact (parseType_success_consumes C sample_skip_advances sample_expr_bounded
           sample_attr_bounded 12 diag.expected_type
           (start function_of_tuple) _ (start [token tok.eof "" 28]) eq_refl).
Defined.

(** X14 at [(a: Int, Array<Int>) -> Int?]. *)
Lemma canParseType_success_consumes_at_function_of_tuple :
  weight [token tok.eof "" 28] < weight function_of_tuple.
Proof.
  exact (canParseType_success_consumes C sample_skip_advances 12
           (start function_of_tuple) (start [token tok.eof "" 28]) eq_refl).
Defined.

(** X15 at the [<Int>] of [Array<Int>]. *)
Lemma canParseGenericArguments_agrees_at_Array_of_Int :
  (exists Args LAngleLoc RAngleLoc,
      parseGenericArguments C 6 (start (tl Array_of_Int))
      = Some (false, Args, LAngleLoc, RAngleLoc, start [token tok.eof "" 10])) /\
  Diags (start [token tok.eof "" 10]) = Diags (start (tl Array_of_Int)).
Proof.
  exact (proj1 (canParseGenericArguments_agrees_with_parseGenericArguments C 6
                  (start (tl Array_of_Int)) (start [token tok.eof "" 10])
                  sample_expr_diagnoses sample_attr_appends eq_refl eq_refl)
           eq_refl).
Defined.

(** X16 at [<Int>] followed by an opening brace. *)
Lemma lookahead_then_commit_at_generic_then_brace :
  start Sample.generic_then_brace = start Sample.generic_then_brace /\
  exists Args LAngleLoc RAngleLoc P',
    parseGenericArguments C 10 (start Sample.generic_then_brace)
    = Some (false, Args, LAngleLoc, RAngleLoc, P') /\
    Diags P' = Diags (start Sample.generic_then_brace) /\
    isGenericTypeDisambiguatingToken (Tok P') = true.
Proof.
  exact (lookahead_then_commit C 10 (start Sample.generic_then_brace)
           (start Sample.generic_then_brace) eq_refl eq_refl).
Defined.

End FurtherRuns.
